(** * mcp-goose: job registry, log buffers, argument sanitizer, branch publisher

    A shallow embedding of the algorithmic core of the repository:
    - [src/jobs.js]: the bounded log buffer ([makeRingBuffer]: [append],
      [read], [full], [size]) and the job registry ([startJob], [stopJob],
      the handlers of the child's ['exit'], ['data'] and ['error'] events,
      [getJob], [streamLogs], [getOutput]);
    - the MCP server's [sanitizeArgs] with [ALLOWED_FLAGS] and
      [DISALLOWED_FLAGS];
    - [src/publish.js]: [branchSlug], [resolvePreviewRoot],
      [resolveTargetDir], [isSubPath], [ensureDirSync], [rmDirContents],
      [copyDir] and the steps of [publishCurrentBranch] after
      [ensureScopeReady] and [detectBranch].

    Conventions.
    - A JavaScript string is a Rocq string holding its UTF-8 encoding; a Node
      [Buffer] is a list of bytes; JavaScript integers are in [Z].
    - The registry is explicit state.  Job objects live in a heap and the
      [Map] and the event handlers refer to them, as in the source.  What the
      platform decides (the random id, the clock, the pid of the child,
      whether the operating system refuses the spawn, whether
      [process.kill] raises, when events arrive) is an input.
    - [node:path] is the POSIX one.  The file system is a tree of directories
      and regular files; the working tree that is published lies outside the
      preview root and is given as a tree of its own, with its links. *)

From Stdlib Require Import ZArith Lia Strings.Byte Ascii String.
From stdpp Require Import gmap strings list.

Set Warnings "-register-all".

Local Open Scope Z_scope.

(** ** Node's [Buffer]: indices and views *)

Module NodeBuffer.

Definition Buffer := list byte.

Definition blen (b : Buffer) : Z := Z.of_nat (length b).

(** Node clamps the bounds of [subarray]/[slice]: a negative index counts
    from the end, and the result of that is clamped to [0, length]. *)
Definition adjustOffset (offset len : Z) : Z :=
  if offset <? 0 then Z.max (offset + len) 0
  else if offset <? len then offset else len.

(** [buf.subarray(start, end)] *)
Definition subarray (b : Buffer) (start end_ : Z) : Buffer :=
  let s := adjustOffset start (blen b) in
  let e := adjustOffset end_ (blen b) in
  let n := if s <? e then e - s else 0 in
  take (Z.to_nat n) (drop (Z.to_nat s) b).

(** [buf.slice(start)]: [end] defaults to [buf.length]. *)
Definition slice (b : Buffer) (start : Z) : Buffer :=
  subarray b start (blen b).

(** [Buffer.from(string)]: the UTF-8 bytes of the string. *)
Definition Buffer_from (s : string) : Buffer := list_byte_of_string s.

(** The last [n] elements of a list. *)
Definition lastn {A} (n : nat) (l : list A) : list A := drop (length l - n) l.

End NodeBuffer.

(** ** [buf.toString('utf8')]

    Decoding replaces every maximal ill-formed subsequence by U+FFFD and keeps
    well-formed sequences.  The decoded text is kept in UTF-8, so decoding is
    the identity on well-formed input and writes [EF BF BD] for U+FFFD. *)

Module Utf8.

Definition bval (b : byte) : N := Byte.to_N b.

Definition between (lo hi : N) (b : byte) : bool :=
  ((lo <=? bval b) && (bval b <=? hi))%N.

Definition is_ascii_byte (b : byte) : bool := (bval b <? 128)%N.

Definition is_cont (b : byte) : bool := between 128 191 b.

(** U+FFFD in UTF-8 *)
Definition replacement : list byte := [xef; xbf; xbd].

(** Bounds of the first continuation byte after a three-byte lead. *)
Definition lower3 (b0 : byte) : N := if (bval b0 =? 224)%N then 160%N else 128%N.
Definition upper3 (b0 : byte) : N := if (bval b0 =? 237)%N then 159%N else 191%N.

(** Bounds of the first continuation byte after a four-byte lead. *)
Definition lower4 (b0 : byte) : N := if (bval b0 =? 240)%N then 144%N else 128%N.
Definition upper4 (b0 : byte) : N := if (bval b0 =? 244)%N then 143%N else 191%N.

Fixpoint decode (bs : list byte) : list byte :=
  match bs with
  | [] => []
  | b0 :: r0 =>
    if is_ascii_byte b0 then b0 :: decode r0
    else if between 194 223 b0 then
      match r0 with
      | [] => replacement
      | b1 :: r1 =>
        if is_cont b1 then b0 :: b1 :: decode r1
        else replacement ++ decode r0
      end
    else if between 224 239 b0 then
      match r0 with
      | [] => replacement
      | b1 :: r1 =>
        if between (lower3 b0) (upper3 b0) b1 then
          match r1 with
          | [] => replacement
          | b2 :: r2 =>
            if is_cont b2 then b0 :: b1 :: b2 :: decode r2
            else replacement ++ decode r1
          end
        else replacement ++ decode r0
      end
    else if between 240 244 b0 then
      match r0 with
      | [] => replacement
      | b1 :: r1 =>
        if between (lower4 b0) (upper4 b0) b1 then
          match r1 with
          | [] => replacement
          | b2 :: r2 =>
            if is_cont b2 then
              match r2 with
              | [] => replacement
              | b3 :: r3 =>
                if is_cont b3 then b0 :: b1 :: b2 :: b3 :: decode r3
                else replacement ++ decode r2
              end
            else replacement ++ decode r1
          end
        else replacement ++ decode r0
      end
    else replacement ++ decode r0
  end.

(** [buf.toString('utf8')] *)
Definition toString (b : NodeBuffer.Buffer) : list byte := decode b.

(** Text of ASCII characters only. *)
Definition ascii_only (bs : list byte) : Prop := Forall (fun b => is_ascii_byte b = true) bs.

End Utf8.

(** ** The bounded log buffer: [makeRingBuffer] in [src/jobs.js] *)

Module RingBuffer.
Import NodeBuffer.

(** The closure state: the captured [maxBytes] and the mutable [buffer]. *)
Record t := mk { maxBytes : Z; buffer : Buffer }.

Definition makeRingBuffer (maxBytes : Z) : t := mk maxBytes [].

(** [append(chunk)], with [chunk] as the bytes [Buffer.from(chunk)] yields
    (a chunk is falsy or of length zero exactly when these are empty). *)
Definition append (rb : t) (chunk : Buffer) : t :=
  match chunk with
  | [] => rb
  | _ :: _ =>
    let b := buffer rb ++ chunk in
    if maxBytes rb <? blen b
    then mk (maxBytes rb) (slice b (blen b - maxBytes rb))
    else mk (maxBytes rb) b
  end.

Record LogChunk := mkChunk { data : list byte; nextOffset : Z; isEnd : bool }.

(** The local [slice] of [read]. *)
Definition read_slice (rb : t) (offset max : Z) : Buffer :=
  let start := Z.min offset (blen (buffer rb)) in
  let end_ := Z.min (start + max) (blen (buffer rb)) in
  subarray (buffer rb) start end_.

(** [read(offset, max)] *)
Definition read (rb : t) (offset max : Z) : LogChunk :=
  let start := Z.min offset (blen (buffer rb)) in
  let end_ := Z.min (start + max) (blen (buffer rb)) in
  mkChunk (Utf8.toString (read_slice rb offset max)) end_ (blen (buffer rb) <=? end_).

(** [full()] *)
Definition full (rb : t) : list byte := Utf8.toString (buffer rb).

(** [size()] *)
Definition size (rb : t) : Z := blen (buffer rb).

(** All appends of a stream of chunks, in order. *)
Definition append_all (rb : t) (chunks : list Buffer) : t := foldl append rb chunks.

End RingBuffer.

(** ** The job registry: [src/jobs.js] *)

Module Jobs.
Import NodeBuffer.

Inductive Status := running | completed | failed | canceled.

#[global] Instance Status_eq_dec : EqDecision Status.
Proof. solve_decision. Defined.

Definition terminal (s : Status) : Prop := s = completed \/ s = failed \/ s = canceled.

(** The [ChildProcess] kept in [job.child].  [child_pid] is [undefined] when
    the spawn failed; [exited] records that the process's ['exit'] event was
    emitted, which Node does at most once per child. *)
Record ChildProcess := mkChild { child_pid : option Z; exited : bool }.

Record Job := mkJob {
  id : string;
  pid : option Z;
  status : Status;
  command : string;
  args : list string;
  cwd : string;
  startedAt : string;
  finishedAt : option string;
  exitCode : option Z;
  stdout : RingBuffer.t;
  stderr : RingBuffer.t;
  child : ChildProcess
}.

(** The module state.  Job objects live in [heap] (a reference is an index,
    objects are never freed); [jobs] is the [Map] from id to object, and the
    handlers installed by [startJob] hold the reference of their own job. *)
Record Registry := mkRegistry {
  heap : list Job;
  jobs : gmap string nat;
  runningJobId : option string
}.

Definition initial : Registry := mkRegistry [] ∅ None.

(** Truthiness of [runningJobId]: [null] and the empty string are falsy. *)
Definition truthy (v : option string) : bool :=
  match v with
  | None => false
  | Some EmptyString => false
  | Some (String _ _) => true
  end.

(** [getJob(jobId)] *)
Definition getJob (reg : Registry) (jobId : string) : option Job :=
  r ← jobs reg !! jobId; heap reg !! r.

(** [getRunningJobId()] *)
Definition getRunningJobId (reg : Registry) : option string := runningJobId reg.

(** What [startJob] takes from its caller ... *)
Record StartArgs := mkStartArgs {
  a_command : string;
  a_args : list string;
  a_env : list (string * string);
  a_cwd : string;
  a_goosePath : string;
  a_logMaxBytes : Z
}.

(** ... and from the platform: the value of [newId()], the clock, the pid of
    the spawned child ([undefined] when the binary could not be started; the
    failure itself arrives later as an ['error'] event), and the error with
    which the operating system refuses the spawn at once, if it does: Node
    throws it from [spawn] unless it is one of EACCES, EAGAIN, EMFILE, ENFILE
    and ENOENT, which it reports by the ['error'] event. *)
Record StartWorld := mkStartWorld {
  w_newId : string;
  w_now : string;
  w_pid : option Z;
  w_spawn_error : option string
}.

(** What [spawn] throws: [ERR_INVALID_ARG_VALUE] for arguments that it
    rejects before it starts anything, or the error of the operating
    system. *)
Inductive SpawnError :=
| ERR_INVALID_ARG_VALUE
| Errno (e : string).

Inductive JobError :=
| BUSY (message : string)
| SPAWN (e : SpawnError).

Record Started := mkStarted { s_jobId : string; s_pid : option Z; s_startedAt : string }.

(** The string has a NUL character. *)
Definition has_nul (s : string) : bool :=
  existsb (Ascii.eqb "000") (list_ascii_of_string s).

(** The checks of [spawn(goosePath, [command, ...args], { cwd, env, ... })]
    on its arguments: the file is not empty, and neither the file, nor an
    argument, nor [cwd], nor a name or value of [env] has a NUL character
    (the variables of [process.env] have none). *)
Definition spawn_rejects (a : StartArgs) : bool :=
  match a_goosePath a with
  | EmptyString => true
  | String _ _ =>
    has_nul (a_goosePath a)
    || existsb has_nul (a_command a :: a_args a)
    || has_nul (a_cwd a)
    || existsb (fun kv => has_nul kv.1 || has_nul kv.2) (a_env a)
  end.

(** [spawn(...)]: throws, or returns the child.  The child that is returned
    has its [stdout] and [stderr], so that [startJob] can attach its
    handlers; a child that Node hands back without them, which its
    documentation allows when the process could not be spawned, is not part
    of this model. *)
Definition spawn (a : StartArgs) (w : StartWorld) : SpawnError + ChildProcess :=
  if spawn_rejects a then inl ERR_INVALID_ARG_VALUE
  else
    match w_spawn_error w with
    | Some e => inl (Errno e)
    | None => inr (mkChild (w_pid w) false)
    end.

(** [startJob({ command, args, env, cwd, goosePath, logMaxBytes })].  An
    error thrown by [spawn] leaves the function before the job is put into
    [jobs]. *)
Definition startJob (a : StartArgs) (w : StartWorld) (reg : Registry)
  : Registry * (JobError + Started) :=
  if truthy (runningJobId reg) then
    (reg, inl (BUSY "A job is already running. Concurrency is limited to 1."))
  else
    let id := w_newId w in
    let stdoutBuf := RingBuffer.makeRingBuffer (a_logMaxBytes a) in
    let stderrBuf := RingBuffer.makeRingBuffer (a_logMaxBytes a) in
    let startedAt := w_now w in
    match spawn a w with
    | inl e => (reg, inl (SPAWN e))
    | inr child =>
      let job := mkJob id (child_pid child) running (a_command a) (a_args a) (a_cwd a)
                       startedAt None None stdoutBuf stderrBuf child in
      (mkRegistry (heap reg ++ [job]) (<[id := length (heap reg)]> (jobs reg)) (Some id),
       inr (mkStarted id (child_pid child) startedAt))
    end.

(** The handler of [child.on('exit', (code) => ...)] for the job at
    reference [r]; [code] is [null] when the child was ended by a signal. *)
Definition on_exit (r : nat) (code : option Z) (now : string) (reg : Registry) : Registry :=
  match heap reg !! r with
  | None => reg
  | Some job =>
    let job' := mkJob (id job) (pid job)
                      (match code with Some 0 => completed | _ => failed end)
                      (command job) (args job) (cwd job) (startedAt job)
                      (Some now) code (stdout job) (stderr job)
                      (mkChild (child_pid (child job)) true) in
    mkRegistry (<[r := job']> (heap reg)) (jobs reg) None
  end.

Inductive Stream := Stdout | Stderr.

(** The handlers of [child.stdout.on('data')] and [child.stderr.on('data')]. *)
Definition on_data (r : nat) (which : Stream) (d : Buffer) (reg : Registry) : Registry :=
  match heap reg !! r with
  | None => reg
  | Some job =>
    let job' :=
      match which with
      | Stdout => mkJob (id job) (pid job) (status job) (command job) (args job) (cwd job)
                        (startedAt job) (finishedAt job) (exitCode job)
                        (RingBuffer.append (stdout job) d) (stderr job) (child job)
      | Stderr => mkJob (id job) (pid job) (status job) (command job) (args job) (cwd job)
                        (startedAt job) (finishedAt job) (exitCode job)
                        (stdout job) (RingBuffer.append (stderr job) d) (child job)
      end in
    mkRegistry (<[r := job']> (heap reg)) (jobs reg) (runningJobId reg)
  end.

(** The handler of [child.on('error', (e) => ...)]; [msg] is
    [String(e?.message || e)]. *)
Definition on_error (r : nat) (msg : string) (reg : Registry) : Registry :=
  on_data r Stderr (Buffer_from (String "010" "[spawn error] " +:+ msg +:+ String "010" EmptyString)) reg.

(** [process.kill(pid, signal)] either delivers the signal or raises. *)
Inductive KillOutcome := Delivered | Raises (e : string).

(** An [undefined] pid is a type error whatever the platform would answer. *)
Definition process_kill (pid : option Z) (signal : string) (platform : KillOutcome) : KillOutcome :=
  match pid with
  | None =>
    Raises ("TypeError [ERR_INVALID_ARG_TYPE]: The " +:+ String "034" "pid"
            +:+ String "034" " argument must be of type number. Received undefined")
  | Some _ => platform
  end.

Inductive StopResult :=
| StopOk
| StopFailed (reason : string) (error : option string).

(** [stopJob(jobId, signal)].  A reference kept in [jobs] is always in the
    heap; were it not, [jobs.get] would find nothing. *)
Definition stopJob (jobId signal : string) (now : string) (platform : KillOutcome)
  (reg : Registry) : Registry * StopResult :=
  match jobs reg !! jobId with
  | None => (reg, StopFailed "not_found" None)
  | Some r =>
    match heap reg !! r with
    | None => (reg, StopFailed "not_found" None)
    | Some job =>
      if decide (status job <> running) then (reg, StopFailed "not_running" None)
      else
        match process_kill (child_pid (child job)) signal platform with
        | Delivered =>
          let job' := mkJob (id job) (pid job) canceled (command job) (args job) (cwd job)
                            (startedAt job) (Some now) (exitCode job)
                            (stdout job) (stderr job) (child job) in
          (mkRegistry (<[r := job']> (heap reg)) (jobs reg) None, StopOk)
        | Raises e => (reg, StopFailed "kill_failed" (Some e))
        end
    end
  end.

(** [streamLogs(jobId, which, offset, max)]; [None] is [null]. *)
Definition streamLogs (reg : Registry) (jobId : string) (which : Stream) (offset max : Z)
  : option RingBuffer.LogChunk :=
  match getJob reg jobId with
  | None => None
  | Some job =>
    let buf := match which with Stderr => stderr job | Stdout => stdout job end in
    Some (RingBuffer.read buf offset max)
  end.

Record Output := mkOutput { o_stdout : list byte; o_stderr : list byte; o_exitCode : option Z }.

(** [getOutput(jobId)] *)
Definition getOutput (reg : Registry) (jobId : string) : option Output :=
  match getJob reg jobId with
  | None => None
  | Some job => Some (mkOutput (RingBuffer.full (stdout job)) (RingBuffer.full (stderr job)) (exitCode job))
  end.

(** A polling client of [streamLogs]: start at [offset], follow [nextOffset]
    until a chunk reports [isEnd]; [None] when [fuel] calls did not reach the
    end or the job is unknown. *)
Fixpoint pollLogs (fuel : nat) (reg : Registry) (jobId : string) (which : Stream)
  (offset max : Z) : option (list RingBuffer.LogChunk) :=
  match fuel with
  | O => None
  | S fuel' =>
    match streamLogs reg jobId which offset max with
    | None => None
    | Some c =>
      if RingBuffer.isEnd c then Some [c]
      else option_map (cons c) (pollLogs fuel' reg jobId which (RingBuffer.nextOffset c) max)
    end
  end.

(** *** Runs of the registry *)

Definition is_hex (c : ascii) : bool :=
  let n := N_of_ascii c in
  ((48 <=? n) && (n <=? 57) || (97 <=? n) && (n <=? 102))%N.

(** [crypto.randomBytes(12).toString('hex')]: 24 lower-case hex digits. *)
Definition is_newId (s : string) : bool :=
  (String.length s =? 24)%nat && forallb is_hex (list_ascii_of_string s).

Inductive Event :=
| EvStart (a : StartArgs) (w : StartWorld)
| EvStop (jobId signal now : string) (platform : KillOutcome)
| EvExit (r : nat) (code : option Z) (now : string)
| EvData (r : nat) (which : Stream) (d : Buffer)
| EvError (r : nat) (msg : string).

(** An event can occur when its child exists, and ['exit'] once per child;
    calls are always possible. *)
Definition enabled (ev : Event) (reg : Registry) : bool :=
  match ev with
  | EvStart _ w => is_newId (w_newId w)
  | EvStop _ _ _ _ => true
  | EvExit r _ _ =>
    match heap reg !! r with
    | Some job => negb (exited (child job))
    | None => false
    end
  | EvData r _ _ | EvError r _ =>
    match heap reg !! r with Some _ => true | None => false end
  end.

Definition apply_event (ev : Event) (reg : Registry) : Registry :=
  match ev with
  | EvStart a w => fst (startJob a w reg)
  | EvStop jobId signal now platform => fst (stopJob jobId signal now platform reg)
  | EvExit r code now => on_exit r code now reg
  | EvData r which d => on_data r which d reg
  | EvError r msg => on_error r msg reg
  end.

Fixpoint run (evs : list Event) (reg : Registry) : option Registry :=
  match evs with
  | [] => Some reg
  | ev :: evs' => if enabled ev reg then run evs' (apply_event ev reg) else None
  end.

Definition reachable (reg : Registry) : Prop := exists evs, run evs initial = Some reg.

(** The jobs of the registry that are in the ['running'] state. *)
Definition running_jobs (reg : Registry) : list Job :=
  filter (fun job => status job = running) (heap reg).

(** A running job has no finish time, and a job that completed or failed
    belongs to a child that has exited. *)
Definition job_wf (job : Job) : Prop :=
  (status job = running -> finishedAt job = None) /\
  (status job = completed \/ status job = failed -> exited (child job) = true).

Definition stream_of (job : Job) (which : Stream) : RingBuffer.t :=
  match which with Stderr => stderr job | Stdout => stdout job end.

End Jobs.

(** ** The argument sanitizer of the MCP server: [sanitizeArgs] *)

Module Sanitizer.

(** An element of [inputArgs]: a string, or a value whose [typeof] is not
    ['string']. *)
Inductive jsval := VStr (s : string) | VOther.

Definition ALLOWED_FLAGS : gset string := list_to_set [
  (* run (Task Execution) *)
  "--recipe"; "--instructions"; "-i"; "--text"; "-t"; "--no-session"; "--name"; "-n";
  "--resume"; "-r"; "--path"; "-p"; "--max-turns"; "--explain"; "--debug"; "--provider";
  "--model"; "--params"; "--sub-recipe"; "--with-builtin";
  (* session list/export (Session Management) *)
  "--verbose"; "-v"; "--format"; "-f"; "--ascending"; "--id"; "-n"; "--name"; "--path";
  "-p"; "--output"; "-o" ].

Definition DISALLOWED_FLAGS : gset string := list_to_set [ "--interactive"; "-s" ].

(** The character class of [/[`|;&<>$\\]/]. *)
Definition metachars : list ascii := [ "`"; "|"; ";"; "&"; "<"; ">"; "$"; "\" ]%char.

Definition is_metachar (c : ascii) : bool := existsb (Ascii.eqb c) metachars.

(** [/[`|;&<>$\\]/.test(a)] *)
Definition unsafe (a : string) : bool := existsb is_metachar (list_ascii_of_string a).

(** [a.startsWith('-')] *)
Definition startsWith_dash (a : string) : bool :=
  match a with
  | String c _ => Ascii.eqb c "-"
  | EmptyString => false
  end.

Inductive SanitizeError :=
| UnsafeToken (a : string)
| FlagNotAllowed (a : string)
| FlagDisallowed (a : string).

(** The message of the [Error] thrown. *)
Definition message (e : SanitizeError) : string :=
  match e with
  | UnsafeToken a => "unsafe token detected: " +:+ a
  | FlagNotAllowed a => "flag not allowed: " +:+ a
  | FlagDisallowed a => "flag disallowed: " +:+ a
  end.

(** The token has one of the characters of the class. *)
Definition contains_metachar (a : string) : Prop :=
  exists c, c ∈ metachars /\ c ∈ list_ascii_of_string a.

Section WithFlagSets.

Variables allowed disallowed : gset string.

(** The loop of [sanitizeArgs], with [out] the array built so far. *)
Fixpoint sanitize_loop (inputArgs : list jsval) (out : list string)
  : SanitizeError + list string :=
  match inputArgs with
  | [] => inr out
  | VOther :: rest => sanitize_loop rest out
  | VStr a :: rest =>
    if unsafe a then inl (UnsafeToken a)
    else if startsWith_dash a && negb (bool_decide (a ∈ allowed)) then inl (FlagNotAllowed a)
    else if bool_decide (a ∈ disallowed) then inl (FlagDisallowed a)
    else sanitize_loop rest (out ++ [a])
  end.

(** The three checks of the loop, as one verdict on a token. *)
Definition verdict (a : string) : option SanitizeError :=
  if unsafe a then Some (UnsafeToken a)
  else if startsWith_dash a && negb (bool_decide (a ∈ allowed)) then Some (FlagNotAllowed a)
  else if bool_decide (a ∈ disallowed) then Some (FlagDisallowed a)
  else None.

End WithFlagSets.

(** [sanitizeArgs(inputArgs)] *)
Definition sanitizeArgs (inputArgs : list jsval) : SanitizeError + list string :=
  sanitize_loop ALLOWED_FLAGS DISALLOWED_FLAGS inputArgs [].

End Sanitizer.

(** ** [node:path] on POSIX *)

Module Path.

Definition is_sep (c : ascii) : bool := Ascii.eqb c "/".

(** [s.split('/')] *)
Fixpoint split (s : string) : list string :=
  match s with
  | EmptyString => [EmptyString]
  | String c s' =>
    if is_sep c then EmptyString :: split s'
    else
      match split s' with
      | seg :: segs => String c seg :: segs
      | [] => [String c EmptyString]
      end
  end.

Definition join_sep (segs : list string) : string := String.concat "/" segs.

Definition nonempty (s : string) : bool :=
  match s with
  | EmptyString => false
  | String _ _ => true
  end.

Definition isAbsolute (p : string) : bool :=
  match p with
  | String c _ => is_sep c
  | EmptyString => false
  end.

Fixpoint endsWith_sep (p : string) : bool :=
  match p with
  | EmptyString => false
  | String c EmptyString => is_sep c
  | String _ rest => endsWith_sep rest
  end.

(** One segment of [normalizeString]; [res] holds the segments kept so far,
    the last one first. *)
Definition norm_step (allowAboveRoot : bool) (res : list string) (seg : string) : list string :=
  if decide (seg = EmptyString) then res
  else if decide (seg = ".") then res
  else if decide (seg = "..") then
    match res with
    | top :: below =>
      if decide (top = "..") then (if allowAboveRoot then ".." :: res else res)
      else below
    | [] => if allowAboveRoot then [".."] else []
    end
  else seg :: res.

Definition norm_segments (allowAboveRoot : bool) (segs : list string) : list string :=
  rev (fold_left (norm_step allowAboveRoot) segs []).

(** Node's internal [normalizeString(path, allowAboveRoot, '/', ...)] *)
Definition normalizeString (path : string) (allowAboveRoot : bool) : string :=
  join_sep (norm_segments allowAboveRoot (split path)).

(** [path.normalize(path)] *)
Definition normalize (path : string) : string :=
  match path with
  | EmptyString => "."
  | String _ _ =>
    let abs := isAbsolute path in
    let trailingSeparator := endsWith_sep path in
    let p := normalizeString path (negb abs) in
    match p with
    | EmptyString => if abs then "/" else if trailingSeparator then "./" else "."
    | String _ _ =>
      let p := if trailingSeparator then p +:+ "/" else p in
      if abs then "/" +:+ p else p
    end
  end.

(** [path.join(...args)] *)
Definition join (args : list string) : string :=
  match filter (fun a => nonempty a = true) args with
  | [] => "."
  | parts => normalize (join_sep parts)
  end.

(** [path.resolve(p)] with [cwd] the value of [process.cwd()]. *)
Definition resolve (cwd p : string) : string :=
  let '(resolvedPath, resolvedAbsolute) :=
    if nonempty p then
      if isAbsolute p then (p +:+ "/", true)
      else (cwd +:+ "/" +:+ p +:+ "/", isAbsolute cwd)
    else (cwd +:+ "/", isAbsolute cwd) in
  let r := normalizeString resolvedPath (negb resolvedAbsolute) in
  if resolvedAbsolute then "/" +:+ r
  else if nonempty r then r else ".".

(** [path.dirname(p)], for a normalized path [p]. *)
Definition dirname (p : string) : string :=
  let segs := filter (fun s => nonempty s = true) (split p) in
  match removelast segs with
  | [] => if isAbsolute p then "/" else "."
  | ds => if isAbsolute p then "/" +:+ join_sep ds else join_sep ds
  end.

(** [s.startsWith(p)] *)
Definition startsWith (s p : string) : bool := String.prefix p s.

(** An absolute path built from its segments. *)
Definition of_segments (segs : list string) : string := "/" +:+ join_sep segs.

(** A directory name proper: not empty, no separator, neither [.] nor [..]. *)
Definition proper (seg : string) : Prop :=
  seg <> EmptyString /\ seg <> "." /\ seg <> ".." /\
  forallb (fun c => negb (is_sep c)) (list_ascii_of_string seg) = true.

Definition slashfree (s : string) : Prop :=
  forallb (fun c => negb (is_sep c)) (list_ascii_of_string s) = true.

Definition plain (seg : string) : Prop := seg <> EmptyString /\ seg <> "." /\ seg <> "..".

End Path.

(** ** A file system of directories and regular files *)

Module FS.

(** The tree below [/].  The preview root is written by the publisher only,
    which copies no symbolic link, so no link lies on the paths below. *)
Inductive node :=
| File (content : list byte)
| Dir (entries : list (string * node)).

Definition path := list string.

Inductive FsError := EEXIST | ENOTDIR | EISDIR | ENOENT.

Fixpoint lookup_entry {A} (name : string) (es : list (string * A)) : option A :=
  match es with
  | [] => None
  | (n, x) :: rest => if decide (n = name) then Some x else lookup_entry name rest
  end.

(** Replaces the entry called [name], or adds it at the end. *)
Fixpoint set_entry {A} (name : string) (x : A) (es : list (string * A)) : list (string * A) :=
  match es with
  | [] => [(name, x)]
  | (n, y) :: rest =>
    if decide (n = name) then (n, x) :: rest else (n, y) :: set_entry name x rest
  end.

Fixpoint lookup (p : path) (nd : node) : option node :=
  match p with
  | [] => Some nd
  | name :: p' =>
    match nd with
    | File _ => None
    | Dir es =>
      match lookup_entry name es with
      | Some c => lookup p' c
      | None => None
      end
    end
  end.

(** [fs.mkdirSync(dir, { recursive: true })] *)
Fixpoint mkdir_p (p : path) (nd : node) : FsError + node :=
  match nd with
  | File _ => inl (match p with [] => EEXIST | _ :: _ => ENOTDIR end)
  | Dir es =>
    match p with
    | [] => inr nd
    | name :: p' =>
      match mkdir_p p' (default (Dir []) (lookup_entry name es)) with
      | inl e => inl e
      | inr c => inr (Dir (set_entry name c es))
      end
    end
  end.

(** [fsp.copyFile(s, d)] as seen from [d]: writes the regular file [d], whose
    parent directory must exist. *)
Fixpoint write_file (p : path) (content : list byte) (nd : node) : FsError + node :=
  match p with
  | [] =>
    match nd with
    | File _ => inr (File content)
    | Dir _ => inl EISDIR
    end
  | name :: p' =>
    match nd with
    | File _ => inl ENOTDIR
    | Dir es =>
      match lookup_entry name es, p' with
      | Some c, _ =>
        match write_file p' content c with
        | inl e => inl e
        | inr c' => inr (Dir (set_entry name c' es))
        end
      | None, [] => inr (Dir (set_entry name (File content) es))
      | None, _ :: _ => inl ENOENT
      end
    end
  end.

(** Applies [f] to the entries of the directory at [p]. *)
Fixpoint update_dir (p : path) (f : list (string * node) -> list (string * node)) (nd : node)
  : FsError + node :=
  match nd with
  | File _ => inl ENOTDIR
  | Dir es =>
    match p with
    | [] => inr (Dir (f es))
    | name :: p' =>
      match lookup_entry name es with
      | None => inl ENOENT
      | Some c =>
        match update_dir p' f c with
        | inl e => inl e
        | inr c' => inr (Dir (set_entry name c' es))
        end
      end
    end
  end.

(** [q] is [p] or lies below it. *)
Definition below (p q : path) : Prop := p `prefix_of` q.

(** Neither of the two paths lies on or below the other. *)
Definition apart (p q : path) : Prop := ~ below p q /\ ~ below q p.

End FS.

(** ** The branch publisher: [src/publish.js] *)

Module Publish.
Import FS.

Definition MAIN_BRANCH : string := "main".
Definition PREVIEW_PREFIX : string := ".preview".

(** The working tree that is copied, with its symbolic links. *)
Inductive snode :=
| SFile (content : list byte)
| SSymlink (target : string)
| SDir (entries : list (string * snode)).

(** [/[A-Za-z0-9._-]/] *)
Definition slug_keeps (c : ascii) : bool :=
  let n := N_of_ascii c in
  ((65 <=? n) && (n <=? 90) || (97 <=? n) && (n <=? 122) || (48 <=? n) && (n <=? 57)
   || (n =? 46) || (n =? 95) || (n =? 45))%N.

(** The replacement works on UTF-16 code units.  On the UTF-8 form kept here
    a character outside ASCII gives one ["_"] at its lead byte (two for a
    four-byte lead, which is a surrogate pair) and nothing at its
    continuation bytes. *)
Definition slug_unit (c : ascii) : string :=
  let n := N_of_ascii c in
  if (n <? 128)%N then (if slug_keeps c then String c EmptyString else "_")
  else if (n <? 192)%N then EmptyString
  else if (n <? 240)%N then "_"
  else "__".

(** [branchSlug(name)]: [name.replace(/[^A-Za-z0-9._-]/g, '_')] *)
Fixpoint branchSlug (name : string) : string :=
  match name with
  | EmptyString => EmptyString
  | String c rest => slug_unit c +:+ branchSlug rest
  end.

Inductive PublishError :=
| PathEscape
| Fs (e : FsError).

(** The message of the [Error] thrown for [PathEscape]. *)
Definition PathEscape_message : string := "Resolved targetDir is outside of previewRoot".

(** File-system actions: they change the tree and may throw. *)
Definition Action (A : Type) : Type := node -> node * (PublishError + A).

Definition ret {A} (x : A) : Action A := fun fs => (fs, inr x).

Definition throw {A} (e : PublishError) : Action A := fun fs => (fs, inl e).

Definition bind {A B} (k : A -> Action B) (m : Action A) : Action B :=
  fun fs =>
    match m fs with
    | (fs', inl e) => (fs', inl e)
    | (fs', inr x) => k x fs'
    end.

#[global] Instance Action_ret : MRet Action := @ret.
#[global] Instance Action_bind : MBind Action := @bind.

(** Lifts a step on the tree that leaves it as it was when it fails. *)
Definition atomically (step : node -> FsError + node) : Action unit :=
  fun fs =>
    match step fs with
    | inl e => (fs, inl (Fs e))
    | inr fs' => (fs', inr tt)
    end.

Section Platform.

(** [os.homedir()], [process.cwd()] and [process.env.PORT]. *)
Variable homedir : string.
Variable cwd : string.
Variable PORT : option string.

Definition DEFAULT_PREVIEW_ROOT : string :=
  Path.join [homedir; ".cache"; "mcp-goose"; "www"].

(** [resolvePreviewRoot()] *)
Definition resolvePreviewRoot : string := DEFAULT_PREVIEW_ROOT.

(** [isSubPath(parent, child)] *)
Definition isSubPath (parent child : string) : bool :=
  let rp := Path.resolve cwd parent in
  let rc := Path.resolve cwd child in
  bool_decide (rc = rp) || Path.startsWith rc (rp +:+ "/").

(** [resolveTargetDir(previewRoot, branch)] *)
Definition resolveTargetDir (previewRoot branch : string) : string :=
  if decide (branch = MAIN_BRANCH) then previewRoot
  else
    let slug := branchSlug branch in
    Path.join [previewRoot; PREVIEW_PREFIX; slug].

(** The place in the tree that a path string names. *)
Definition locate (p : string) : path :=
  filter (fun s => Path.nonempty s = true) (Path.split (Path.resolve cwd p)).

(** [ensureDirSync(dir)] *)
Definition ensureDirSync (dir : string) : Action unit :=
  atomically (mkdir_p (locate dir)).

(** [rmDirContents(dir, skipNames)]: removes every entry of [dir] whose name
    is not in [skipNames]; [ENOENT] from [readdir] is caught, any other error
    is thrown again. *)
Definition rmDirContents (dir : string) (skipNames : list string) : Action unit :=
  fun fs =>
    match update_dir (locate dir) (filter (fun ent => ent.1 ∈ skipNames)) fs with
    | inr fs' => (fs', inr tt)
    | inl ENOENT => (fs, inr tt)
    | inl e => (fs, inl (Fs e))
    end.

(** The [for] loop of [copyDir] over the entries that [readdir] lists;
    [copyEntry] is the body of the loop after the [.git] filter. *)
Definition copyEntries (copyEntry : snode -> string -> Action unit) (dest : string)
  : list (string * snode) -> Action unit :=
  fix loop (entries : list (string * snode)) : Action unit :=
    match entries with
    | [] => mret tt
    | (name, ent) :: rest =>
      if decide (name = ".git") then loop rest
      else copyEntry ent (Path.join [dest; name]) ;; loop rest
    end.

(** One entry of the source, to be copied to [d]: a directory is copied by
    [copyDir(s, d)], a symbolic link is skipped, anything else is copied as a
    file. *)
Fixpoint copyEntry (ent : snode) (d : string) {struct ent} : Action unit :=
  match ent with
  | SDir children =>
    ensureDirSync d ;;
    copyEntries copyEntry d children
  | SSymlink _ => mret tt
  | SFile content =>
    atomically (mkdir_p (locate (Path.dirname d))) ;;
    atomically (write_file (locate d) content)
  end.

(** [copyDir(src, dest)], with [src] given by its entries. *)
Definition copyDir (src : list (string * snode)) (dest : string) : Action unit :=
  copyEntry (SDir src) dest.

Record Published := mkPublished { branch : string; targetDir : string; url : string }.

Definition port_text : string :=
  match PORT with
  | Some (String c s) => String c s
  | _ => "3003"
  end.

(** [publishCurrentBranch(scopeDir)], from the point where [detectBranch] has
    returned [branch].  The two calls before that point, [ensureScopeReady]
    and [detectBranch], work on the working tree only (they make [scopeDir],
    run [git] in it and write its [README.md]) and are not part of this
    definition; [scope] is what [readdir] then finds in [scopeDir], which lies
    outside the preview root.  The tree of the actions is the file system
    with the preview root; nothing is said of the paths at or below
    [scopeDir]. *)
Definition publishCurrentBranch (branch : string) (scope : list (string * snode))
  : Action Published :=
  let previewRoot := resolvePreviewRoot in
  let targetDir := resolveTargetDir previewRoot branch in
  ensureDirSync previewRoot ;;
  ensureDirSync (Path.dirname targetDir) ;;
  ensureDirSync targetDir ;;
  if negb (isSubPath previewRoot targetDir) then throw PathEscape
  else
    (* When publishing main, preserve the .preview directory *)
    let skipNames := if decide (branch = MAIN_BRANCH) then [PREVIEW_PREFIX] else [] in
    rmDirContents targetDir skipNames ;;
    copyDir scope targetDir ;;
    let url :=
      if decide (branch = MAIN_BRANCH)
      then "http://localhost:" +:+ port_text +:+ "/"
      else "http://localhost:" +:+ port_text +:+ "/" +:+ PREVIEW_PREFIX +:+ "/"
           +:+ branchSlug branch +:+ "/" in
    mret (mkPublished branch targetDir url).

End Platform.

(** The names on the way to the preview root, for a home directory given by
    its names. *)
Definition root_segments (home : list string) : list string :=
  home ++ [".cache"; "mcp-goose"; "www"].

(** The part of the target below the preview root. *)
Definition target_ext (branch : string) : list string :=
  if decide (branch = MAIN_BRANCH) then []
  else
    let slug := branchSlug branch in
    if decide (slug = EmptyString) then [PREVIEW_PREFIX]
    else if decide (slug = ".") then [PREVIEW_PREFIX]
    else if decide (slug = "..") then []
    else [PREVIEW_PREFIX; slug].

(** The action never throws the path-escape error. *)
Definition no_escape {A} (m : Action A) : Prop := forall fs, (m fs).2 <> inl PathEscape.

(** The action changes nothing at the paths in [K], whether it ends well or
    throws on the way. *)
Definition keeps {A} (K : path -> Prop) (m : Action A) : Prop :=
  forall fs q, K q -> lookup q (m fs).1 = lookup q fs.

(** The names in a working tree are directory entries: proper names. *)
Inductive wf_tree : snode -> Prop :=
| wf_file content : wf_tree (SFile content)
| wf_link target : wf_tree (SSymlink target)
| wf_dir entries :
    Forall (fun e => Path.proper e.1 /\ wf_tree e.2) entries -> wf_tree (SDir entries).

End Publish.

(** ** Sample runs and trees *)

Module Samples.
Import Jobs FS Publish.

(** Three values of [newId()]. *)
Definition idA : string := "00000000000000000000000a".
Definition idB : string := "00000000000000000000000b".
Definition idC : string := "00000000000000000000000c".

(** A request to run a text task. *)
Definition run_hello : StartArgs :=
  mkStartArgs "run" ["--text"; "hello"] [] "/srv/app" "goose" 8000000.


(** Job A is stopped, job B is started, then the child of A exits. *)
Definition late_exit_prefix : list Event :=
  [ EvStart run_hello (mkStartWorld idA "2025-01-01T00:00:00.000Z" (Some 101) None);
    EvStop idA "SIGTERM" "2025-01-01T00:00:01.000Z" Delivered;
    EvStart run_hello (mkStartWorld idB "2025-01-01T00:00:02.000Z" (Some 102) None);
    EvExit 0 None "2025-01-01T00:00:03.000Z" ].

(** A third start request. *)
Definition third_start : Event :=
  EvStart run_hello (mkStartWorld idC "2025-01-01T00:00:04.000Z" (Some 103) None).

(** A job is started and stopped. *)
Definition cancel_run : list Event :=
  [ EvStart run_hello (mkStartWorld idA "2025-01-01T00:00:00.000Z" (Some 101) None);
    EvStop idA "SIGTERM" "2025-01-01T00:00:01.000Z" Delivered ].


(** The registry after one start. *)
Definition one_running : Registry :=
  mkRegistry
    [mkJob idA (Some 101) running "run" ["--text"; "hello"] "/srv/app"
       "2025-01-01T00:00:00.000Z" None None
       (RingBuffer.makeRingBuffer 8000000) (RingBuffer.makeRingBuffer 8000000)
       (mkChild (Some 101) false)]
    (<[idA := 0%nat]> ∅) (Some idA).

(** The child writes the two bytes of a two-byte character. *)
Definition accent_run : list Event :=
  [ EvStart run_hello (mkStartWorld idA "2025-01-01T00:00:00.000Z" (Some 101) None);
    EvData 0 Stdout [xc3; xa9] ].

(** The child writes five ASCII bytes in two chunks. *)
Definition hello_run : list Event :=
  [ EvStart run_hello (mkStartWorld idA "2025-01-01T00:00:00.000Z" (Some 101) None);
    EvData 0 Stdout [x68; x65; x6c];
    EvData 0 Stdout [x6c; x6f] ].

(** A preview root with a page of [main] and the preview of one branch. *)
Definition preview_fs : node :=
  Dir [("home", Dir [("goose", Dir [(".cache", Dir [("mcp-goose", Dir [("www", Dir
    [ ("index.html", File [x61]);
      (".preview", Dir [("feature_x", Dir [("index.html", File [x62])])]) ])])])])])].

(** Where that preview root is. *)
Definition www : path := ["home"; "goose"; ".cache"; "mcp-goose"; "www"].

(** A working tree, with its repository directory and its [README.md], that
    has an entry called [.preview]. *)
Definition tree_with_preview : list (string * snode) :=
  [ (".git", SDir [("HEAD", SFile [x72])]);
    ("README.md", SFile [x23]);
    ("index.html", SFile [x63]);
    (PREVIEW_PREFIX, SDir [("feature_x", SDir [("index.html", SFile [x7a])])]) ].

(** A working tree with its repository directory, its [README.md] and a
    page. *)
Definition readme_tree : list (string * snode) :=
  [ (".git", SDir [("HEAD", SFile [x72])]);
    ("README.md", SFile [x23]);
    ("index.html", SFile [x64]) ].

(** A working tree with a repository directory, a link and a directory. *)
Definition plain_tree : list (string * snode) :=
  [ (".git", SDir [("HEAD", SFile [x72])]);
    ("index.html", SFile [x64]);
    ("latest", SSymlink "/etc");
    ("assets", SDir [("site.css", SFile [x65])]) ].

End Samples.

(** ** What a run hands to the log buffers *)

Module JobStreams.
Import NodeBuffer Jobs.

#[global] Instance Stream_eq_dec : EqDecision Stream.
Proof. solve_decision. Defined.

(** The chunk that the ['error'] handler appends to the stderr buffer. *)
Definition spawn_error_chunk (msg : string) : Buffer :=
  Buffer_from (String "010" "[spawn error] " +:+ msg +:+ String "010" EmptyString).

(** The bytes that the events of a run append to the buffer [which] of the
    job at [r], in the order of the events. *)
Fixpoint delivered (r : nat) (which : Stream) (evs : list Event) : Buffer :=
  match evs with
  | [] => []
  | EvData r' which' d :: rest =>
    (if decide (r' = r /\ which' = which) then d else []) ++ delivered r which rest
  | EvError r' msg :: rest =>
    (if decide (r' = r /\ which = Stderr) then spawn_error_chunk msg else [])
      ++ delivered r which rest
  | _ :: rest => delivered r which rest
  end.

(** The three updates of a job object in the source. *)
Definition cancel_job (now : string) (job : Job) : Job :=
  mkJob (id job) (pid job) canceled (command job) (args job) (cwd job)
        (startedAt job) (Some now) (exitCode job) (stdout job) (stderr job) (child job).

Definition exit_job (code : option Z) (now : string) (job : Job) : Job :=
  mkJob (id job) (pid job) (match code with Some 0 => completed | _ => failed end)
        (command job) (args job) (cwd job) (startedAt job) (Some now) code
        (stdout job) (stderr job) (mkChild (child_pid (child job)) true).

Definition log_job (which : Stream) (d : Buffer) (job : Job) : Job :=
  match which with
  | Stdout => mkJob (id job) (pid job) (status job) (command job) (args job) (cwd job)
                    (startedAt job) (finishedAt job) (exitCode job)
                    (RingBuffer.append (stdout job) d) (stderr job) (child job)
  | Stderr => mkJob (id job) (pid job) (status job) (command job) (args job) (cwd job)
                    (startedAt job) (finishedAt job) (exitCode job)
                    (stdout job) (RingBuffer.append (stderr job) d) (child job)
  end.

(** What one event can do to the job object at [r]. *)
Inductive job_change (r : nat) (ev : Event) (job : Job) : Job -> Prop :=
| change_none : job_change r ev job job
| change_cancel jobId signal now platform :
    ev = EvStop jobId signal now platform ->
    status job = running ->
    job_change r ev job (cancel_job now job)
| change_exit code now :
    ev = EvExit r code now ->
    job_change r ev job (exit_job code now job)
| change_data which d :
    ev = EvData r which d ->
    job_change r ev job (log_job which d job)
| change_error msg :
    ev = EvError r msg ->
    job_change r ev job (log_job Stderr (spawn_error_chunk msg) job).

(** The fields of a job that say which job it is. *)
Definition same_identity (job job' : Job) : Prop :=
  id job' = id job /\ pid job' = pid job /\ command job' = command job /\
  args job' = args job /\ cwd job' = cwd job /\ startedAt job' = startedAt job /\
  child_pid (child job') = child_pid (child job).


End JobStreams.

(** ** Further sample states *)

Module Scenarios.
Import Jobs Samples.

(** The registry after the job of [one_running] has exited with code 0. *)
Definition exited_ok : Registry :=
  mkRegistry
    [mkJob idA (Some 101) completed "run" ["--text"; "hello"] "/srv/app"
       "2025-01-01T00:00:00.000Z" (Some "2025-01-01T00:00:09.000Z") (Some 0)
       (RingBuffer.makeRingBuffer 8000000) (RingBuffer.makeRingBuffer 8000000)
       (mkChild (Some 101) true)]
    (<[idA := 0%nat]> ∅) None.

(** The registry after a start whose child got no pid. *)
Definition no_pid_running : Registry :=
  mkRegistry
    [mkJob idA None running "run" ["--text"; "hello"] "/srv/app"
       "2025-01-01T00:00:00.000Z" None None
       (RingBuffer.makeRingBuffer 8000000) (RingBuffer.makeRingBuffer 8000000)
       (mkChild None false)]
    (<[idA := 0%nat]> ∅) (Some idA).

End Scenarios.

(** ** The MCP server: building the arguments of a job *)

Module Server.
Import Sanitizer Jobs.

(** The elements of [inputArgs] that are strings, in order. *)
Definition strings_of (inputArgs : list jsval) : list string :=
  omap (fun v => match v with VStr a => Some a | VOther => None end) inputArgs.

(** A token that passes the checks of [sanitizeArgs]. *)
Definition acceptable (a : string) : Prop :=
  ~ contains_metachar a /\ (startsWith_dash a = true -> a ∈ ALLOWED_FLAGS).

(** The character class of [/^[A-Za-z0-9_.-]+$/]. *)
Definition key_char (c : ascii) : bool :=
  let n := N_of_ascii c in
  ((65 <=? n) && (n <=? 90) || (97 <=? n) && (n <=? 122) || (48 <=? n) && (n <=? 57)
   || (n =? 95) || (n =? 46) || (n =? 45))%N.

(** [/^[A-Za-z0-9_.-]+$/.test(k)] *)
Definition key_ok (k : string) : bool :=
  Path.nonempty k && forallb key_char (list_ascii_of_string k).

Inductive RunArgsError :=
| Sanitize (e : SanitizeError)
| InvalidParamKey (k : string).

(** The message of the [Error] thrown. *)
Definition run_args_message (e : RunArgsError) : string :=
  match e with
  | Sanitize e => message e
  | InvalidParamKey k => "invalid param key: " +:+ k
  end.

(** The loop of [buildRunArgs] over [Object.entries(params)]; each value is
    given as [String(v)]. *)
Fixpoint params_loop (entries : list (string * string)) (finalArgs : list string)
  : RunArgsError + list string :=
  match entries with
  | [] => inr finalArgs
  | (k, v) :: rest =>
    if key_ok k then params_loop rest (finalArgs ++ ["--params"; k +:+ "=" +:+ v])
    else inl (InvalidParamKey k)
  end.

(** [buildRunArgs({ args, params })] *)
Definition buildRunArgs (args : list jsval) (params : list (string * string))
  : RunArgsError + list string :=
  match sanitizeArgs args with
  | inl e => inl (Sanitize e)
  | inr finalArgs => params_loop params finalArgs
  end.

(** The fields of [config] that the tools read. *)
Record Config := mkConfig {
  scopeDir : string;
  gooseBinary : string;
  logMaxBytes : Z
}.

Inductive ToolError :=
| Busy (message : string)
| Rejected (e : SanitizeError)
| NotSpawned (e : SpawnError).


(** [if (x) args.push(flag, x)] for an optional string [x]. *)
Definition push_flag (flag : string) (x : option string) : list string :=
  match x with
  | Some (String c v) => [flag; String c v]
  | _ => []
  end.

(** The guard that the session tools run before they start a job. *)
Definition busy_guard {A} (reg : Registry) (k : Registry * (ToolError + A))
  : Registry * (ToolError + A) :=
  if truthy (getRunningJobId reg)
  then (reg, inl (Busy "A job is already running. Concurrency is limited to 1."))
  else k.

(** [startJob({ command: args.shift(), args: sanitizeArgs(args), env: {},
    cwd: config.scopeDir, goosePath: config.gooseBinary,
    logMaxBytes: config.logMaxBytes })]: the command is taken off first, then
    the rest is sanitized, then the job is started. *)
Definition start_shifted (args : list string) (config : Config) (w : StartWorld)
  (reg : Registry) : Registry * (ToolError + Started) :=
  match sanitizeArgs (VStr <$> tail args) with
  | inl e => (reg, inl (Rejected e))
  | inr finalArgs =>
    match startJob (mkStartArgs (default EmptyString (head args)) finalArgs [] (scopeDir config)
                      (gooseBinary config) (logMaxBytes config)) w reg with
    | (reg', inl (BUSY m)) => (reg', inl (Busy m))
    | (reg', inl (SPAWN e)) => (reg', inl (NotSpawned e))
    | (reg', inr started) => (reg', inr started)
    end
  end.

(** The handler of the tool [goose_session_start]. *)
Definition goose_session_start (name : option string) (config : Config) (w : StartWorld)
  (reg : Registry) : Registry * (ToolError + Started) :=
  let args := ["session"; "--with-builtin"; "developer"] ++ push_flag "--name" name in
  busy_guard reg (start_shifted args config w reg).

(** The handler of the tool [goose_session_resume]. *)
Definition goose_session_resume (name id : option string) (config : Config) (w : StartWorld)
  (reg : Registry) : Registry * (ToolError + Started) :=
  let args := ["session"; "--resume"; "--with-builtin"; "developer"]
              ++ push_flag "--name" name ++ push_flag "--id" id in
  busy_guard reg (start_shifted args config w reg).

(** The handler of the tool [goose_session_remove]. *)
Definition goose_session_remove (id name regex : option string) (config : Config)
  (w : StartWorld) (reg : Registry) : Registry * (ToolError + Started) :=
  let args := ["session"; "remove"] ++ push_flag "--id" id ++ push_flag "--name" name
              ++ push_flag "--regex" regex in
  busy_guard reg (start_shifted args config w reg).

(** The handler of the tool [goose_session_export], which has no guard of its
    own: [startJob] throws when the slot is taken. *)
Definition goose_session_export (id name pth output : option string) (config : Config)
  (w : StartWorld) (reg : Registry) : Registry * (ToolError + Started) :=
  let args := ["session"; "export"] ++ push_flag "--id" id ++ push_flag "--name" name
              ++ push_flag "--path" pth ++ push_flag "--output" output in
  start_shifted args config w reg.




(** The handlers of the tools [goose_recipe_validate] and
    [goose_recipe_deeplink], with [sub] one of ['validate'], ['deeplink']. *)
Definition goose_recipe (sub file : string) (config : Config) (w : StartWorld)
  (reg : Registry) : Registry * (ToolError + Started) :=
  start_shifted ["recipe"; sub; file] config w reg.

End Server.

(** ** What a publish leaves in the target *)

Module PublishImage.
Import FS Publish.

(** The tree with the node at [p] replaced by [new]; the tree as it is when
    there is nothing at [p]. *)
Fixpoint graft (p : path) (new : node) (nd : node) : node :=
  match p with
  | [] => new
  | name :: p' =>
    match nd with
    | File _ => nd
    | Dir es =>
      match lookup_entry name es with
      | Some c => Dir (set_entry name (graft p' new c) es)
      | None => nd
      end
    end
  end.

(** The entries of a directory as [copyDir] hands them on: entries called
    [.git] and symbolic links are left out, at every depth. *)
Definition image_entries (image : snode -> option node)
  : list (string * snode) -> list (string * node) :=
  fix loop (entries : list (string * snode)) : list (string * node) :=
    match entries with
    | [] => []
    | (name, ent) :: rest =>
      if decide (name = ".git") then loop rest
      else
        match image ent with
        | Some nd => (name, nd) :: loop rest
        | None => loop rest
        end
    end.

Fixpoint image (ent : snode) : option node :=
  match ent with
  | SFile content => Some (File content)
  | SSymlink _ => None
  | SDir entries => Some (Dir (image_entries image entries))
  end.

(** The copy of a directory listing. *)
Definition published (entries : list (string * snode)) : list (string * node) :=
  image_entries image entries.

(** What [readdir] lists has no name twice, at any depth. *)
Inductive distinct_names : snode -> Prop :=
| distinct_file content : distinct_names (SFile content)
| distinct_link target : distinct_names (SSymlink target)
| distinct_dir entries :
    NoDup entries.*1 ->
    Forall (fun e => distinct_names e.2) entries ->
    distinct_names (SDir entries).

(** The names that [publishCurrentBranch] tells [rmDirContents] to keep. *)
Definition kept_names (branch : string) : list string :=
  if decide (branch = MAIN_BRANCH) then [PREVIEW_PREFIX] else [].

End PublishImage.

(** ** Serving the published sites: the path guard of [tryServeInjected] *)

Module Preview.
Import Path.

(** The first steps of the middleware that [tryServeInjected(baseDir)]
    returns, on a GET request whose decoded path is [rel]: the file that
    will be looked up, or [None] when the answer is 403. *)
Definition requested_file (baseDir rel : string) : option string :=
  let rel := if endsWith_sep rel then rel +:+ "index.html" else rel in
  let filePath := join [baseDir; rel] in
  (* Prevent path traversal *)
  if negb (startsWith filePath baseDir) then None else Some filePath.

End Preview.

(** ** The scope directory: [src/config.js] *)

Module Config.
Import Path Publish.

(** [.replace(/[^A-Za-z0-9._-]+/g, '_')]: each run of characters outside the
    class becomes one ["_"]; [in_run] says that the character before was
    outside.  The class is the one of [branchSlug]. *)
Fixpoint replace_runs (in_run : bool) (s : string) : string :=
  match s with
  | EmptyString => EmptyString
  | String c rest =>
    if slug_keeps c then String c (replace_runs false rest)
    else if in_run then replace_runs true rest
    else String "_" (replace_runs true rest)
  end.

(** [.replace(/^_+|_+$/g, '')], first alternative: the underscores at the
    start. *)
Fixpoint strip_start (s : string) : string :=
  match s with
  | EmptyString => EmptyString
  | String c rest => if Ascii.eqb c "_" then strip_start rest else s
  end.

(** Second alternative: the underscores at the end. *)
Fixpoint strip_end (s : string) : string :=
  match s with
  | EmptyString => EmptyString
  | String c rest =>
    match strip_end rest with
    | EmptyString => if Ascii.eqb c "_" then EmptyString else String c EmptyString
    | String d r => String c (String d r)
    end
  end.

Section WithTrim.

(** [String.prototype.trim]. *)
Variable trim : string -> string.

(** [slugify(name)] *)
Definition slugify (name : string) : string :=
  match strip_end (strip_start (replace_runs false (trim name))) with
  | EmptyString => "app"
  | String c s => String c s
  end.

(** [process.env.PROJECT_NAME || 'app'] *)
Definition projectName (PROJECT_NAME : option string) : string :=
  match PROJECT_NAME with
  | Some (String c s) => String c s
  | _ => "app"
  end.

(** [defaultScopeDir], for the resolved [projectsBaseDir]. *)
Definition defaultScopeDir (projectsBaseDir : string) (PROJECT_NAME : option string) : string :=
  join [projectsBaseDir; slugify (projectName PROJECT_NAME)].

End WithTrim.

End Config.

(** ** Runs in which no child exits while another job holds the slot *)

Module Timely.
Import Jobs.

(** The ['exit'] event of the child at [r] is timely when the slot is empty
    or names the job of that child. *)
Definition timely (ev : Event) (reg : Registry) : bool :=
  match ev with
  | EvExit r _ _ =>
    match runningJobId reg with
    | Some jobId => bool_decide (jobs reg !! jobId = Some r)
    | None => true
    end
  | _ => true
  end.

Fixpoint run_timely (evs : list Event) (reg : Registry) : option Registry :=
  match evs with
  | [] => Some reg
  | ev :: evs' =>
    if enabled ev reg && timely ev reg then run_timely evs' (apply_event ev reg) else None
  end.

Definition is_exit (ev : Event) : bool :=
  match ev with
  | EvExit _ _ _ => true
  | _ => false
  end.

(** Every running job is the one that the slot names. *)
Definition slot_owns_running (reg : Registry) : Prop :=
  forall r job, heap reg !! r = Some job -> status job = running ->
    exists jobId, runningJobId reg = Some jobId /\ jobs reg !! jobId = Some r.

(** No job but the one at [r] is running. *)
Definition only_running (r : nat) (reg : Registry) : Prop :=
  forall r2 job2, heap reg !! r2 = Some job2 -> status job2 = running -> r2 = r.

End Timely.

(** * Properties *)

(** ** UTF-8 decoding *)

Module UtfFacts.
Import Utf8.

Lemma decode_ascii bs : ascii_only bs -> decode bs = bs.
Proof.
  induction 1 as [|b bs Hb _ IH]; [reflexivity|].
  cbn [decode]. rewrite Hb, IH. reflexivity.
Qed.

Lemma ascii_only_app xs ys : ascii_only (xs ++ ys) <-> ascii_only xs /\ ascii_only ys.
Proof. apply Forall_app. Qed.

Lemma ascii_only_concat (xss : list (list byte)) :
  ascii_only (concat xss) -> Forall ascii_only xss.
Proof.
  induction xss as [|xs xss IH]; cbn [concat]; intros H; [constructor|].
  apply ascii_only_app in H as [H1 H2]. constructor; auto.
Qed.

(** "é" is [C3 A9]; either byte alone is ill-formed. *)
Example decode_e_acute : decode [xc3; xa9] = [xc3; xa9].
Proof. reflexivity. Qed.

Example decode_lead_alone : decode [xc3] = replacement.
Proof. reflexivity. Qed.

Example decode_continuation_alone : decode [xa9] = replacement.
Proof. reflexivity. Qed.

(** An encoded surrogate is ill-formed, byte by byte. *)
Example decode_surrogate : decode [xed; xa0; x80] = replacement ++ replacement ++ replacement.
Proof. reflexivity. Qed.

(** A truncated four-byte sequence is replaced as a whole. *)
Example decode_truncated : decode [xf0; x9f; x98; x41] = replacement ++ [x41].
Proof. reflexivity. Qed.

End UtfFacts.

(** ** The log buffer *)

Module RingBufferFacts.
Import NodeBuffer RingBuffer.

Lemma lastn_all {A} (n : nat) (l : list A) : (length l <= n)%nat -> lastn n l = l.
Proof. intros H. unfold lastn. replace (length l - n)%nat with 0%nat by lia. reflexivity. Qed.

Lemma lastn_length {A} (n : nat) (l : list A) : length (lastn n l) = Nat.min (length l) n.
Proof. unfold lastn. rewrite length_drop. lia. Qed.

Lemma lastn_suffix {A} (n : nat) (l : list A) : lastn n l `suffix_of` l.
Proof. apply suffix_drop. Qed.

Lemma lastn_app {A} (n : nat) (xs ys : list A) :
  lastn n (lastn n xs ++ ys) = lastn n (xs ++ ys).
Proof.
  unfold lastn. rewrite !length_app, !drop_app, length_drop, drop_drop.
  f_equal; f_equal; lia.
Qed.

Lemma slice_lastn (b : Buffer) (C : Z) :
  0 <= C < blen b -> slice b (blen b - C) = lastn (Z.to_nat C) b.
Proof.
  intros HC. unfold slice, subarray, adjustOffset, lastn, blen in *.
  assert (Hs0 : (Z.of_nat (length b) - C <? 0) = false) by lia.
  assert (Hl0 : (Z.of_nat (length b) <? 0) = false) by lia.
  assert (Hll : (Z.of_nat (length b) <? Z.of_nat (length b)) = false) by lia.
  rewrite Hs0, Hl0, Hll.
  destruct (Z.of_nat (length b) - C <? Z.of_nat (length b)) eqn:Hlt.
  - assert (Hlt' : (Z.of_nat (length b) - C <? Z.of_nat (length b)) = true) by lia.
    rewrite Hlt'.
    replace (Z.to_nat (Z.of_nat (length b) - C)) with (length b - Z.to_nat C)%nat by lia.
    apply take_ge. rewrite length_drop. lia.
  - assert (C = 0) by lia. subst C. rewrite Hll. cbn [Z.to_nat].
    rewrite Nat2Z.id, Nat.sub_0_r, drop_all. reflexivity.
Qed.

(** One [append] keeps the last [maxBytes] bytes of what it extends. *)
Lemma append_lastn (rb : t) (chunk : Buffer) :
  0 <= maxBytes rb ->
  blen (buffer rb) <= maxBytes rb ->
  maxBytes (append rb chunk) = maxBytes rb /\
  buffer (append rb chunk) = lastn (Z.to_nat (maxBytes rb)) (buffer rb ++ chunk).
Proof.
  intros HC Hinv. unfold append. destruct chunk as [|c chunk].
  - split; [reflexivity|]. rewrite app_nil_r, lastn_all; [reflexivity|]. unfold blen in Hinv. lia.
  - cbv zeta. destruct (maxBytes rb <? blen (buffer rb ++ c :: chunk)) eqn:Hlt; cbn [maxBytes buffer].
    + split; [reflexivity|]. apply slice_lastn. lia.
    + split; [reflexivity|]. rewrite lastn_all; [reflexivity|]. unfold blen in Hlt. lia.
Qed.

Lemma append_all_lastn (chunks : list Buffer) (rb : t) :
  0 <= maxBytes rb ->
  blen (buffer rb) <= maxBytes rb ->
  buffer (append_all rb chunks) = lastn (Z.to_nat (maxBytes rb)) (buffer rb ++ concat chunks).
Proof.
  revert rb. induction chunks as [|c chunks IH]; intros rb HC Hinv; cbn [append_all foldl concat].
  - rewrite app_nil_r, lastn_all; [reflexivity|]. unfold blen in Hinv. lia.
  - destruct (append_lastn rb c HC Hinv) as [Hm Hb].
    fold (append_all (append rb c) chunks). rewrite IH.
    + rewrite Hm, Hb, lastn_app, <- app_assoc. reflexivity.
    + rewrite Hm. exact HC.
    + rewrite Hm, Hb. unfold blen. rewrite lastn_length. lia.
Qed.

(** C3. Whatever chunks are appended to a log buffer of capacity [C >= 0],
    the buffer then holds at most [C] bytes, and they are the last
    [min(total, C)] bytes of the concatenation of the chunks. *)
Theorem append_all_keeps_suffix (C : Z) (chunks : list Buffer) :
  0 <= C ->
  let rb := append_all (makeRingBuffer C) chunks in
  let stream := concat chunks in
  size rb <= C /\
  size rb = Z.min (blen stream) C /\
  buffer rb `suffix_of` stream /\
  buffer rb = drop (length stream - Z.to_nat C) stream.
Proof.
  intros HC rb stream.
  assert (Hb : buffer rb = lastn (Z.to_nat C) stream).
  { unfold rb. rewrite append_all_lastn; cbn [makeRingBuffer maxBytes buffer]; [reflexivity|lia|].
    unfold blen. cbn. lia. }
  assert (Hlen : size rb = Z.min (blen stream) C).
  { unfold size, blen. rewrite Hb, lastn_length. lia. }
  split; [lia|]. split; [exact Hlen|]. split.
  - rewrite Hb. apply lastn_suffix.
  - exact Hb.
Qed.

Lemma append_all_keeps_suffix_witness :
  0 <= 2 /\
  buffer (append_all (makeRingBuffer 2) [[x61; x62]; []; [x63]]) = [x62; x63].
Proof.
  split; [lia|].
  destruct (append_all_keeps_suffix 2 [[x61; x62]; []; [x63]]) as (_ & _ & _ & H); [lia|].
  exact H.
Defined.

End RingBufferFacts.

(** ** The job registry *)

Module JobsFacts.
Import NodeBuffer Jobs Samples.

(** *** The two ways out of [startJob] *)

Lemma spawn_child (a : StartArgs) (w : StartWorld) (child : ChildProcess) :
  spawn a w = inr child -> child = mkChild (w_pid w) false.
Proof.
  unfold spawn. destruct (spawn_rejects a); [discriminate|].
  destruct (w_spawn_error w); [discriminate|]. intros [= <-]. reflexivity.
Qed.


(** [startJob] throws and leaves the registry as it was, or it registers the
    job of the child that [spawn] returned. *)
Lemma startJob_cases (a : StartArgs) (w : StartWorld) (reg : Registry) :
  (exists e, startJob a w reg = (reg, inl e)) \/
  (truthy (runningJobId reg) = false /\
   spawn a w = inr (mkChild (w_pid w) false) /\
   startJob a w reg
   = (mkRegistry
        (heap reg ++ [mkJob (w_newId w) (w_pid w) running (a_command a) (a_args a) (a_cwd a)
                        (w_now w) None None (RingBuffer.makeRingBuffer (a_logMaxBytes a))
                        (RingBuffer.makeRingBuffer (a_logMaxBytes a))
                        (mkChild (w_pid w) false)])
        (<[w_newId w := length (heap reg)]> (jobs reg)) (Some (w_newId w)),
      inr (mkStarted (w_newId w) (w_pid w) (w_now w)))).
Proof.
  unfold startJob. destruct (truthy (runningJobId reg)); [left; eauto|].
  destruct (spawn a w) as [e|child] eqn:Hs; [left; eauto|].
  apply spawn_child in Hs. subst child. right. auto.
Qed.

(** A call that is accepted: the slot is free and [spawn] returns. *)
Lemma startJob_accepted (a : StartArgs) (w : StartWorld) (reg : Registry) (started : Started) :
  (startJob a w reg).2 = inr started ->
  truthy (runningJobId reg) = false /\
  started = mkStarted (w_newId w) (w_pid w) (w_now w) /\
  (startJob a w reg).1
  = mkRegistry
      (heap reg ++ [mkJob (w_newId w) (w_pid w) running (a_command a) (a_args a) (a_cwd a)
                      (w_now w) None None (RingBuffer.makeRingBuffer (a_logMaxBytes a))
                      (RingBuffer.makeRingBuffer (a_logMaxBytes a))
                      (mkChild (w_pid w) false)])
      (<[w_newId w := length (heap reg)]> (jobs reg)) (Some (w_newId w)).
Proof.
  destruct (startJob_cases a w reg) as [[e ->]|(Hfree & _ & ->)]; [discriminate|].
  cbn [fst snd]. intros [= <-]. auto.
Qed.

(** *** Invariants of runs *)

Lemma run_app (evs1 evs2 : list Event) (reg : Registry) :
  run (evs1 ++ evs2) reg = match run evs1 reg with Some reg' => run evs2 reg' | None => None end.
Proof.
  revert reg. induction evs1 as [|ev evs1 IH]; intros reg; cbn [run app]; [reflexivity|].
  destruct (enabled ev reg); [apply IH|reflexivity].
Qed.

Lemma reachable_initial : reachable initial.
Proof. exists []. reflexivity. Qed.

Lemma reachable_step (ev : Event) (reg : Registry) :
  reachable reg -> enabled ev reg = true -> reachable (apply_event ev reg).
Proof.
  intros [evs Hrun] Hen. exists (evs ++ [ev]).
  rewrite run_app, Hrun. cbn [run]. rewrite Hen. reflexivity.
Qed.

(** Induction over the runs of the registry. *)
Lemma reachable_ind (P : Registry -> Prop) :
  P initial ->
  (forall ev reg, reachable reg -> P reg -> enabled ev reg = true -> P (apply_event ev reg)) ->
  forall reg, reachable reg -> P reg.
Proof.
  intros Hinit Hstep reg [evs Hrun]. revert reg Hrun.
  induction evs as [|ev evs IH] using rev_ind; intros reg Hrun.
  - cbn in Hrun. injection Hrun as <-. exact Hinit.
  - rewrite run_app in Hrun. destruct (run evs initial) as [mid|] eqn:Hmid; [|discriminate].
    cbn [run] in Hrun. destruct (enabled ev mid) eqn:Hen; [|discriminate].
    injection Hrun as <-. apply Hstep; [exists evs; exact Hmid|apply IH; reflexivity|exact Hen].
Qed.

Lemma getJob_Some (reg : Registry) (jobId : string) (job : Job) :
  getJob reg jobId = Some job ->
  exists r, jobs reg !! jobId = Some r /\ heap reg !! r = Some job.
Proof.
  unfold getJob. destruct (jobs reg !! jobId) as [r|] eqn:Hr; cbn; [|discriminate].
  intros H. exists r. split; [reflexivity|exact H].
Qed.

(** What one event does to the job object at a reference: nothing, or it
    creates it, or it is one of the three updates of the source. *)
Lemma apply_event_heap (ev : Event) (reg : Registry) (r : nat) (job' : Job) :
  heap (apply_event ev reg) !! r = Some job' ->
  heap reg !! r = Some job' \/
  (heap reg !! r = None /\ status job' = running /\ finishedAt job' = None
     /\ exited (child job') = false) \/
  (exists job, heap reg !! r = Some job /\
     ((status job = running /\ status job' = canceled) \/
      (exists code now, ev = EvExit r code now /\ exited (child job') = true /\
         (status job' = completed \/ status job' = failed)) \/
      (status job' = status job /\ finishedAt job' = finishedAt job
         /\ child job' = child job))).
Proof.
  destruct ev as [a w|jobId signal now platform|r0 code now|r0 which d|r0 msg]; cbn [apply_event].
  - destruct (startJob_cases a w reg) as [[e ->]|(_ & _ & ->)]; cbn [fst heap]; [auto|].
    intros H. apply lookup_app_Some in H as [H|[Hge H]]; [auto|].
    right; left. apply list_lookup_singleton_Some in H as [_ <-]. cbn.
    split; [apply lookup_ge_None; lia|auto].
  - unfold stopJob. destruct (jobs reg !! jobId) as [r0|] eqn:Hr0; [|cbn; auto].
    destruct (heap reg !! r0) as [job|] eqn:Hh; [|cbn; auto].
    destruct (decide (status job <> running)) as [Hnr|Hrun]; [cbn; auto|].
    destruct (process_kill _ _ _); cbn [fst heap]; [|auto].
    intros H. destruct (decide (r0 = r)) as [->|Hne].
    + rewrite list_lookup_insert_eq in H by (eapply lookup_lt_Some; eauto).
      injection H as <-. right; right. exists job. split; [exact Hh|]. left. cbn.
      split; [|reflexivity]. destruct (decide (status job = running)); [auto|contradiction].
    + rewrite list_lookup_insert_ne in H by exact Hne. auto.
  - unfold on_exit. destruct (heap reg !! r0) as [job|] eqn:Hh; [|auto]. cbn [heap].
    intros H. destruct (decide (r0 = r)) as [->|Hne].
    + rewrite list_lookup_insert_eq in H by (eapply lookup_lt_Some; eauto).
      injection H as <-. right; right. exists job. split; [exact Hh|]. right; left.
      exists code, now. cbn. split; [reflexivity|]. split; [reflexivity|].
      destruct code as [[| |]|]; auto.
    + rewrite list_lookup_insert_ne in H by exact Hne. auto.
  - unfold on_data. destruct (heap reg !! r0) as [job|] eqn:Hh; [|auto]. cbn [heap].
    intros H. destruct (decide (r0 = r)) as [->|Hne].
    + rewrite list_lookup_insert_eq in H by (eapply lookup_lt_Some; eauto).
      injection H as <-. right; right. exists job. split; [exact Hh|]. right; right.
      destruct which; cbn; auto.
    + rewrite list_lookup_insert_ne in H by exact Hne. auto.
  - unfold on_error, on_data. destruct (heap reg !! r0) as [job|] eqn:Hh; [|auto]. cbn [heap].
    intros H. destruct (decide (r0 = r)) as [->|Hne].
    + rewrite list_lookup_insert_eq in H by (eapply lookup_lt_Some; eauto).
      injection H as <-. right; right. exists job. split; [exact Hh|]. right; right.
      cbn; auto.
    + rewrite list_lookup_insert_ne in H by exact Hne. auto.
Qed.

Lemma reachable_jobs_wf (reg : Registry) :
  reachable reg -> forall r job, heap reg !! r = Some job -> job_wf job.
Proof.
  intros Hreach. induction Hreach as [|ev reg _ IH Hen] using reachable_ind; intros r job' H.
  - cbn in H. rewrite lookup_nil in H. discriminate.
  - apply apply_event_heap in H
      as [H|[(_ & Hs & Hf & Hx)|(job & Hj & [[Hs Hs']|[(c & t & _ & Hx & Hs')|(Hs & Hf & Hc)]])]].
    + eapply IH; eauto.
    + split; [auto|]. rewrite Hs. intros [?|?]; discriminate.
    + split; rewrite Hs'; [discriminate|]. intros [?|?]; discriminate.
    + split; [|auto]. destruct Hs' as [Hs'|Hs']; rewrite Hs'; discriminate.
    + destruct (IH _ _ Hj) as [W1 W2]. split; rewrite Hs, ?Hf, ?Hc; auto.
Qed.

(** The slot, when set, names a job that is running. *)
Lemma reachable_slot_running (reg : Registry) :
  reachable reg ->
  forall jobId, runningJobId reg = Some jobId ->
  exists job, getJob reg jobId = Some job /\ status job = running.
Proof.
  intros Hreach. induction Hreach as [|ev reg _ IH Hen] using reachable_ind; intros jobId Hslot.
  - discriminate.
  - destruct ev as [a w|jobId0 signal now platform|r0 code now|r0 which d|r0 msg];
      cbn [apply_event] in *.
    + destruct (startJob_cases a w reg) as [[e Hst]|(_ & _ & Hst)]; rewrite Hst in *;
        cbn [fst runningJobId] in *.
      * auto.
      * injection Hslot as <-. unfold getJob. cbn [jobs heap].
        rewrite lookup_insert_eq. cbn. rewrite lookup_app_r by lia.
        rewrite Nat.sub_diag. cbn. eauto.
    + unfold stopJob in *. destruct (jobs reg !! jobId0) as [r0|]; [|cbn in *; auto].
      destruct (heap reg !! r0) as [job|]; [|cbn in *; auto].
      destruct (decide (status job <> running)); [cbn in *; auto|].
      destruct (process_kill _ _ _); cbn [fst runningJobId] in *; [discriminate|auto].
    + unfold on_exit in *. destruct (heap reg !! r0); cbn [runningJobId] in *; [discriminate|auto].
    + unfold on_data in *. destruct (heap reg !! r0) as [job|] eqn:Hh; [|auto].
      cbn [runningJobId] in Hslot. destruct (IH _ Hslot) as (j & Hj & Hs).
      apply getJob_Some in Hj as (r1 & Hr1 & Hh1). unfold getJob. cbn [jobs heap].
      rewrite Hr1. cbn. destruct (decide (r0 = r1)) as [->|Hne].
      * rewrite list_lookup_insert_eq by (eapply lookup_lt_Some; eauto).
        rewrite Hh in Hh1. injection Hh1 as ->. destruct which; cbn; eauto.
      * rewrite list_lookup_insert_ne by exact Hne. eauto.
    + unfold on_error, on_data in *. destruct (heap reg !! r0) as [job|] eqn:Hh; [|auto].
      cbn [runningJobId] in Hslot. destruct (IH _ Hslot) as (j & Hj & Hs).
      apply getJob_Some in Hj as (r1 & Hr1 & Hh1). unfold getJob. cbn [jobs heap].
      rewrite Hr1. cbn. destruct (decide (r0 = r1)) as [->|Hne].
      * rewrite list_lookup_insert_eq by (eapply lookup_lt_Some; eauto).
        rewrite Hh in Hh1. injection Hh1 as ->. cbn; eauto.
      * rewrite list_lookup_insert_ne by exact Hne. eauto.
Qed.


(** A job that completed or failed keeps its status in every later step. *)
Lemma finished_status_final (ev : Event) (reg : Registry) (r : nat) (job job' : Job) :
  reachable reg ->
  heap reg !! r = Some job ->
  status job = completed \/ status job = failed ->
  enabled ev reg = true ->
  heap (apply_event ev reg) !! r = Some job' ->
  status job' = status job.
Proof.
  intros Hreach Hj Hfin Hen H.
  destruct (reachable_jobs_wf reg Hreach r job Hj) as [_ Hx]. specialize (Hx Hfin).
  apply apply_event_heap in H
    as [H|[(Hn & _)|(j & Hj' & [[Hs _]|[(c & t & -> & _)|(Hs & _)]])]].
  - congruence.
  - congruence.
  - rewrite Hj in Hj'. injection Hj' as <-. destruct Hfin; congruence.
  - cbn in Hen. rewrite Hj in Hen. rewrite Hx in Hen. discriminate.
  - congruence.
Qed.

(** A job in a terminal status changes status at its own ['exit'] event only. *)
Lemma terminal_status_changes_at_exit_only (ev : Event) (reg : Registry) (r : nat)
  (job job' : Job) :
  heap reg !! r = Some job ->
  terminal (status job) ->
  heap (apply_event ev reg) !! r = Some job' ->
  status job' = status job \/ exists code now, ev = EvExit r code now.
Proof.
  intros Hj Hterm H.
  apply apply_event_heap in H
    as [H|[(Hn & _)|(j & Hj' & [[Hs _]|[(c & t & -> & _)|(Hs & _)]])]].
  - left. congruence.
  - congruence.
  - rewrite Hj in Hj'. injection Hj' as <-. destruct Hterm as [?|[?|?]]; congruence.
  - right. eauto.
  - left. congruence.
Qed.


(** With the slot taken, [startJob] throws [BUSY] and changes nothing. *)
Lemma startJob_busy (a : StartArgs) (w : StartWorld) (reg : Registry) :
  truthy (runningJobId reg) = true ->
  exists msg, startJob a w reg = (reg, inl (BUSY msg)).
Proof. intros H. unfold startJob. rewrite H. eauto. Qed.

(** *** A run: stop, start again, and the stopped child exits late *)

(** C1 (the code departs from it). Job A is stopped, job B is started, then
    the child of A exits: its handler clears the slot that B holds, so a third
    [startJob] is accepted while B is running, and two jobs are ['running']. *)
Theorem late_exit_two_running :
  exists mid reg,
    run late_exit_prefix initial = Some mid /\
    status <$> getJob mid idB = Some running /\
    runningJobId mid = None /\
    (exists st, (startJob run_hello (mkStartWorld idC "2025-01-01T00:00:04.000Z" (Some 103) None) mid).2
                = inr st) /\
    run (late_exit_prefix ++ [third_start]) initial = Some reg /\
    status <$> getJob reg idB = Some running /\
    status <$> getJob reg idC = Some running /\
    idB <> idC /\
    length (running_jobs reg) = 2%nat.
Proof.
  eexists. eexists.
  split; [vm_compute; reflexivity|].
  split; [vm_compute; reflexivity|].
  split; [reflexivity|].
  split; [eexists; vm_compute; reflexivity|].
  split; [vm_compute; reflexivity|].
  split; [vm_compute; reflexivity|].
  split; [vm_compute; reflexivity|].
  split; [discriminate|].
  vm_compute; reflexivity.
Qed.

(** C2 (the code departs from it). A job that [stopJob] has set to
    ['canceled'] is set to ['failed'] (or, with exit code 0, to ['completed'])
    when its child exits afterwards. *)
Theorem exit_after_cancel_changes_status :
  exists reg,
    run cancel_run initial = Some reg /\
    status <$> getJob reg idA = Some canceled /\
    enabled (EvExit 0 None "2025-01-01T00:00:03.000Z") reg = true /\
    status <$> getJob (apply_event (EvExit 0 None "2025-01-01T00:00:03.000Z") reg) idA
      = Some failed /\
    status <$> getJob (apply_event (EvExit 0 (Some 0) "2025-01-01T00:00:03.000Z") reg) idA
      = Some completed.
Proof.
  eexists.
  split; [vm_compute; reflexivity|].
  repeat split; vm_compute; reflexivity.
Qed.

(** *** [stopJob] *)




(** When delivering the signal raises, [stopJob] on a running job answers
    [kill_failed] and changes nothing: the job is still ['running'] with no
    finish time, and the slot is as before. *)
Lemma stopJob_kill_failed_atomic (reg : Registry) (jobId signal now : string)
  (platform : KillOutcome) (job : Job) (e : string) :
  reachable reg ->
  getJob reg jobId = Some job ->
  status job = running ->
  process_kill (child_pid (child job)) signal platform = Raises e ->
  let out := stopJob jobId signal now platform reg in
  out.2 = StopFailed "kill_failed" (Some e) /\
  out.1 = reg /\
  getJob out.1 jobId = Some job /\
  finishedAt job = None /\
  runningJobId out.1 = runningJobId reg.
Proof.
  intros Hreach Hjob Hs Hkill out.
  assert (Hout : out = (reg, StopFailed "kill_failed" (Some e))).
  { unfold out, stopJob.
    destruct (getJob_Some _ _ _ Hjob) as (r & Hr & Hh). rewrite Hr, Hh.
    destruct (decide (status job <> running)) as [Hn|_]; [contradiction|].
    rewrite Hkill. reflexivity. }
  rewrite Hout. cbn [fst snd].
  split; [reflexivity|]. split; [reflexivity|]. split; [exact Hjob|]. split; [|reflexivity].
  destruct (getJob_Some _ _ _ Hjob) as (r & _ & Hh).
  destruct (reachable_jobs_wf reg Hreach r job Hh) as [Hfin _]. exact (Hfin Hs).
Qed.

Lemma one_running_reachable : reachable one_running.
Proof.
  exists [EvStart run_hello (mkStartWorld idA "2025-01-01T00:00:00.000Z" (Some 101) None)].
  reflexivity.
Qed.

Lemma stopJob_kill_failed_atomic_witness :
  (stopJob idA "SIGTERM" "2025-01-01T00:00:01.000Z" (Raises "Error: kill ESRCH") one_running).2
    = StopFailed "kill_failed" (Some "Error: kill ESRCH") /\
  (stopJob idA "SIGTERM" "2025-01-01T00:00:01.000Z" (Raises "Error: kill ESRCH") one_running).1
    = one_running.
Proof.
  destruct (stopJob_kill_failed_atomic one_running idA "SIGTERM" "2025-01-01T00:00:01.000Z"
              (Raises "Error: kill ESRCH")
              (mkJob idA (Some 101) running "run" ["--text"; "hello"] "/srv/app"
                 "2025-01-01T00:00:00.000Z" None None
                 (RingBuffer.makeRingBuffer 8000000) (RingBuffer.makeRingBuffer 8000000)
                 (mkChild (Some 101) false))
              "Error: kill ESRCH" one_running_reachable eq_refl eq_refl eq_refl)
    as (H1 & H2 & _).
  split; [exact H1|exact H2].
Defined.

(** C10 (the code departs from it). Job A is stopped, job B is started, and
    the child of A exits: its ['exit'] handler empties the slot that B holds.
    B is ['running'], and a [stopJob] on B whose signal raises answers
    [kill_failed] and leaves B ['running'] with no finish time; but the slot
    is empty, it does not hold B. *)
Theorem kill_failed_slot_not_held :
  exists reg job,
    run late_exit_prefix initial = Some reg /\
    getJob reg idB = Some job /\ status job = running /\
    let out := stopJob idB "SIGTERM" "2025-01-01T00:00:04.000Z" (Raises "Error: kill ESRCH") reg in
    out.2 = StopFailed "kill_failed" (Some "Error: kill ESRCH") /\
    out.1 = reg /\
    status <$> getJob out.1 idB = Some running /\
    getJob out.1 idB ≫= finishedAt = None /\
    runningJobId out.1 = None /\
    runningJobId out.1 <> Some idB.
Proof.
  eexists. eexists.
  split; [vm_compute; reflexivity|].
  split; [vm_compute; reflexivity|].
  split; [reflexivity|].
  cbv zeta.
  split; [vm_compute; reflexivity|].
  split; [vm_compute; reflexivity|].
  split; [vm_compute; reflexivity|].
  split; [vm_compute; reflexivity|].
  split; [vm_compute; reflexivity|].
  vm_compute. discriminate.
Qed.

(** *** Polling [streamLogs] *)

Lemma subarray_range (b : Buffer) (s e : Z) :
  0 <= s <= e -> e <= blen b ->
  subarray b s e = take (Z.to_nat (e - s)) (drop (Z.to_nat s) b).
Proof.
  intros Hse He. unfold subarray, adjustOffset.
  assert (Hs0 : (s <? 0) = false) by lia. assert (He0 : (e <? 0) = false) by lia.
  rewrite Hs0, He0.
  assert (Hs : (if s <? blen b then s else blen b) = s) by (destruct (s <? blen b) eqn:?; lia).
  assert (Hee : (if e <? blen b then e else blen b) = e) by (destruct (e <? blen b) eqn:?; lia).
  rewrite Hs, Hee. destruct (s <? e) eqn:Hlt; [reflexivity|].
  replace (e - s) with 0 by lia. reflexivity.
Qed.

(** What [read] returns from an offset inside the buffer. *)
Lemma read_inside (rb : RingBuffer.t) (o max : Z) :
  0 <= o <= blen (RingBuffer.buffer rb) -> 0 < max ->
  let len := blen (RingBuffer.buffer rb) in
  let c := RingBuffer.read rb o max in
  RingBuffer.data c = Utf8.toString (RingBuffer.read_slice rb o max) /\
  ((o + max < len /\ RingBuffer.isEnd c = false /\ RingBuffer.nextOffset c = o + max /\
    RingBuffer.read_slice rb o max = take (Z.to_nat max) (drop (Z.to_nat o) (RingBuffer.buffer rb)))
   \/
   (len <= o + max /\ RingBuffer.isEnd c = true /\ RingBuffer.nextOffset c = len /\
    RingBuffer.read_slice rb o max = drop (Z.to_nat o) (RingBuffer.buffer rb))).
Proof.
  intros Ho Hmax len c. split; [reflexivity|].
  unfold c, RingBuffer.read, RingBuffer.read_slice. cbn [RingBuffer.isEnd RingBuffer.nextOffset].
  fold len. rewrite (Z.min_l o len) by lia.
  destruct (Z_lt_le_dec (o + max) len) as [Hlt|Hge].
  - left. rewrite (Z.min_l (o + max) len) by lia.
    split; [exact Hlt|]. split; [lia|]. split; [reflexivity|].
    rewrite subarray_range by (unfold len in *; lia). f_equal. lia.
  - right. rewrite (Z.min_r (o + max) len) by lia.
    split; [exact Hge|]. split; [lia|]. split; [reflexivity|].
    rewrite subarray_range by (unfold len in *; lia).
    apply take_ge. rewrite length_drop. unfold len, blen. lia.
Qed.

Lemma pollLogs_more_fuel (fuel : nat) (reg : Registry) (jobId : string) (which : Stream)
  (o max : Z) (chunks : list RingBuffer.LogChunk) :
  pollLogs fuel reg jobId which o max = Some chunks ->
  pollLogs (S fuel) reg jobId which o max = Some chunks.
Proof.
  revert o chunks. induction fuel as [|fuel IH]; intros o chunks H; [discriminate|].
  cbn [pollLogs] in H. change (pollLogs (S (S fuel)) reg jobId which o max) with
    (match streamLogs reg jobId which o max with
     | None => None
     | Some c =>
       if RingBuffer.isEnd c then Some [c]
       else option_map (cons c)
              (pollLogs (S fuel) reg jobId which (RingBuffer.nextOffset c) max)
     end).
  destruct (streamLogs reg jobId which o max) as [c|]; [|discriminate].
  destruct (RingBuffer.isEnd c); [exact H|].
  destruct (pollLogs fuel reg jobId which (RingBuffer.nextOffset c) max) as [cs|] eqn:Hcs;
    [|discriminate].
  rewrite (IH _ _ Hcs). exact H.
Qed.

Lemma pollLogs_fuel_le (fuel fuel' : nat) (reg : Registry) (jobId : string) (which : Stream)
  (o max : Z) (chunks : list RingBuffer.LogChunk) :
  (fuel <= fuel')%nat ->
  pollLogs fuel reg jobId which o max = Some chunks ->
  pollLogs fuel' reg jobId which o max = Some chunks.
Proof.
  induction 1 as [|fuel' _ IH]; [auto|]. intros H. apply pollLogs_more_fuel. auto.
Qed.

(** Polling from an offset inside the buffer ends, and the slices read are
    the rest of the buffer. *)
Lemma pollLogs_from (reg : Registry) (jobId : string) (which : Stream) (job : Job) (max : Z) :
  getJob reg jobId = Some job -> 0 < max ->
  let buf := RingBuffer.buffer (stream_of job which) in
  forall (fuel : nat) (o : Z),
    0 <= o <= blen buf -> blen buf - o < Z.of_nat fuel ->
    exists chunks slices,
      pollLogs fuel reg jobId which o max = Some chunks /\
      concat slices = drop (Z.to_nat o) buf /\
      Forall2 (fun c s => RingBuffer.data c = Utf8.toString s) chunks slices /\
      RingBuffer.isEnd <$> last chunks = Some true /\
      Forall (fun c => RingBuffer.isEnd c = false) (removelast chunks).
Proof.
  intros Hjob Hmax buf fuel. induction fuel as [|fuel IH]; intros o Ho Hfuel; [lia|].
  cbn [pollLogs]. unfold streamLogs. rewrite Hjob. fold (stream_of job which).
  pose proof (read_inside (stream_of job which) o max Ho Hmax) as Hread. cbv zeta in Hread.
  destruct Hread as (Hdata & [(Hlt & Hend & Hnext & Hslice)|(Hge & Hend & Hnext & Hslice)]).
  - rewrite Hend, Hnext. fold buf in Hlt, Hslice.
    destruct (IH (o + max)) as (chunks & slices & Hpoll & Hcat & Hall & Hlast & Hinit); [lia|lia|].
    rewrite Hpoll. cbn [option_map].
    exists (RingBuffer.read (stream_of job which) o max :: chunks),
           (RingBuffer.read_slice (stream_of job which) o max :: slices).
    split; [reflexivity|]. split.
    { cbn [concat]. rewrite Hcat, Hslice.
      replace (Z.to_nat (o + max)) with (Z.to_nat o + Z.to_nat max)%nat by lia.
      rewrite <- drop_drop. apply take_drop. }
    split; [constructor; [exact Hdata|exact Hall]|].
    destruct chunks as [|c chunks]; [discriminate|]. split; [exact Hlast|].
    cbn [removelast]. constructor; [exact Hend|exact Hinit].
  - rewrite Hend.
    exists [RingBuffer.read (stream_of job which) o max],
           [RingBuffer.read_slice (stream_of job which) o max].
    split; [reflexivity|]. split; [cbn [concat]; rewrite app_nil_r; exact Hslice|].
    split; [constructor; [exact Hdata|constructor]|]. split; [cbn [last fmap option_fmap option_map]; rewrite Hend; reflexivity|].
    constructor.
Qed.

Lemma decoded_ascii_slices (chunks : list RingBuffer.LogChunk) (slices : list Buffer) :
  Forall2 (fun c s => RingBuffer.data c = Utf8.toString s) chunks slices ->
  Forall Utf8.ascii_only slices ->
  concat (RingBuffer.data <$> chunks) = concat slices.
Proof.
  induction 1 as [|c s chunks slices Hc _ IH]; intros Hascii; [reflexivity|].
  inversion Hascii as [|? ? Hs Hrest]; subst. cbn [fmap list_fmap concat].
  rewrite Hc. unfold Utf8.toString. rewrite UtfFacts.decode_ascii by exact Hs.
  f_equal. apply IH. exact Hrest.
Qed.

(** C4 does not hold as it is stated. The child wrote "é" (bytes [C3 A9]);
    polled with [maxBytes = 1], each call decodes half of the character to
    U+FFFD, and the chunks do not add up to the content of the buffer. *)
Lemma streamLogs_splits_character :
  exists reg chunks,
    run accent_run initial = Some reg /\
    o_stdout <$> getOutput reg idA = Some [xc3; xa9] /\
    pollLogs 3 reg idA Stdout 0 1 = Some chunks /\
    RingBuffer.isEnd <$> last chunks = Some true /\
    concat (RingBuffer.data <$> chunks) = Utf8.replacement ++ Utf8.replacement /\
    concat (RingBuffer.data <$> chunks) <> [xc3; xa9].
Proof.
  eexists. eexists.
  split; [vm_compute; reflexivity|].
  split; [vm_compute; reflexivity|].
  split; [vm_compute; reflexivity|].
  split; [vm_compute; reflexivity|].
  split; [vm_compute; reflexivity|].
  vm_compute. discriminate.
Qed.

(** C4, amended. While a job's buffer does not change, polling [streamLogs]
    from offset 0 with a positive [maxBytes], following [nextOffset], ends
    with a chunk whose [isEnd] is true and with no earlier one; the byte
    slices behind the chunks add up to the buffer with no gap and no overlap,
    and each [data] is the decoding of its slice.  For a buffer of ASCII
    bytes the [data] of the chunks add up to the whole text. *)
Theorem streamLogs_poll_tiles_buffer (reg : Registry) (jobId : string) (which : Stream)
  (job : Job) (max : Z) :
  getJob reg jobId = Some job ->
  0 < max ->
  let rb := stream_of job which in
  exists chunks slices,
    (forall fuel, (length (RingBuffer.buffer rb) < fuel)%nat ->
       pollLogs fuel reg jobId which 0 max = Some chunks) /\
    concat slices = RingBuffer.buffer rb /\
    Forall2 (fun c s => RingBuffer.data c = Utf8.toString s) chunks slices /\
    RingBuffer.isEnd <$> last chunks = Some true /\
    Forall (fun c => RingBuffer.isEnd c = false) (removelast chunks) /\
    (Utf8.ascii_only (RingBuffer.buffer rb) ->
     concat (RingBuffer.data <$> chunks) = RingBuffer.full rb).
Proof.
  intros Hjob Hmax rb.
  destruct (pollLogs_from reg jobId which job max Hjob Hmax
              (S (length (RingBuffer.buffer rb))) 0)
    as (chunks & slices & Hpoll & Hcat & Hall & Hlast & Hinit).
  { fold rb. unfold blen. lia. }
  { fold rb. unfold blen. lia. }
  fold rb in Hcat.
  change (drop (Z.to_nat 0) (RingBuffer.buffer rb)) with (RingBuffer.buffer rb) in Hcat.
  exists chunks, slices.
  split. { intros fuel Hfuel. eapply pollLogs_fuel_le; [|exact Hpoll]. lia. }
  split; [exact Hcat|]. split; [exact Hall|]. split; [exact Hlast|]. split; [exact Hinit|].
  intros Hascii. unfold RingBuffer.full, Utf8.toString.
  rewrite UtfFacts.decode_ascii by exact Hascii.
  rewrite <- Hcat. apply decoded_ascii_slices; [exact Hall|].
  apply UtfFacts.ascii_only_concat. rewrite Hcat. exact Hascii.
Qed.

Lemma streamLogs_poll_tiles_buffer_witness :
  exists reg chunks,
    run hello_run initial = Some reg /\
    0 < 2 /\
    pollLogs 6 reg idA Stdout 0 2 = Some chunks /\
    concat (RingBuffer.data <$> chunks) = [x68; x65; x6c; x6c; x6f].
Proof.
  eexists.
  pose proof (streamLogs_poll_tiles_buffer
                (mkRegistry
                   [mkJob idA (Some 101) running "run" ["--text"; "hello"] "/srv/app"
                      "2025-01-01T00:00:00.000Z" None None
                      (RingBuffer.mk 8000000 [x68; x65; x6c; x6c; x6f])
                      (RingBuffer.makeRingBuffer 8000000)
                      (mkChild (Some 101) false)]
                   (<[idA := 0%nat]> ∅) (Some idA))
                idA Stdout _ 2 eq_refl ltac:(lia)) as H.
  cbv zeta in H. destruct H as (chunks & slices & Hpoll & _ & _ & _ & _ & Hascii).
  exists chunks.
  split; [vm_compute; reflexivity|].
  split; [lia|].
  split; [apply Hpoll; cbn; lia|].
  apply Hascii. repeat constructor.
Defined.

End JobsFacts.

(** ** The argument sanitizer *)

Module SanitizerFacts.
Import Sanitizer.

Lemma unsafe_iff (a : string) : unsafe a = true <-> contains_metachar a.
Proof.
  unfold unsafe, contains_metachar, is_metachar. rewrite existsb_exists. split.
  - intros (c & Hin & Hm). apply existsb_exists in Hm as (m & Hmin & Heq).
    apply Ascii.eqb_eq in Heq. subst m. exists c. split; apply list_elem_of_In; assumption.
  - intros (c & Hm & Hin). exists c. split; [apply list_elem_of_In; exact Hin|].
    apply existsb_exists. exists c. split; [apply list_elem_of_In; exact Hm|apply Ascii.eqb_refl].
Qed.

Lemma safe_iff (a : string) : unsafe a = false <-> ~ contains_metachar a.
Proof. rewrite <- unsafe_iff. destruct (unsafe a); split; congruence. Qed.

Section Loop.

Variables allowed disallowed : gset string.

Local Abbreviation verdict := (Sanitizer.verdict allowed disallowed).

Lemma loop_cons_str (a : string) (rest : list jsval) (out : list string) :
  sanitize_loop allowed disallowed (VStr a :: rest) out =
  match verdict a with
  | Some e => inl e
  | None => sanitize_loop allowed disallowed rest (out ++ [a])
  end.
Proof.
  cbn [sanitize_loop]. unfold verdict.
  destruct (unsafe a); [reflexivity|].
  destruct (startsWith_dash a && negb (bool_decide (a ∈ allowed))); [reflexivity|].
  destruct (bool_decide (a ∈ disallowed)); reflexivity.
Qed.

Lemma loop_app (xs ys : list jsval) (out out' : list string) :
  sanitize_loop allowed disallowed xs out = inr out' ->
  sanitize_loop allowed disallowed (xs ++ ys) out = sanitize_loop allowed disallowed ys out'.
Proof.
  revert out. induction xs as [|[a|] xs IH]; intros out H.
  - cbn in H. injection H as <-. reflexivity.
  - rewrite <- app_comm_cons, loop_cons_str. rewrite loop_cons_str in H.
    destruct (verdict a); [discriminate|]. apply IH. exact H.
  - cbn [sanitize_loop app] in *. apply IH. exact H.
Qed.

(** A token with a verdict makes the whole call fail. *)
Lemma loop_fails (args : list jsval) (a : string) (out : list string) :
  VStr a ∈ args -> is_Some (verdict a) ->
  exists e, sanitize_loop allowed disallowed args out = inl e.
Proof.
  intros Hin Hv. revert out. induction args as [|[b|] args IH]; intros out.
  - apply elem_of_nil in Hin. contradiction.
  - rewrite loop_cons_str. destruct (verdict b) as [e|] eqn:Hb; [eauto|].
    apply elem_of_cons in Hin as [Heq|Hin]; [|apply IH; exact Hin].
    injection Heq as ->. rewrite Hb in Hv. destruct Hv as [? ?]. discriminate.
  - cbn [sanitize_loop]. apply elem_of_cons in Hin as [Heq|Hin]; [discriminate|].
    apply IH. exact Hin.
Qed.

(** Tokens without verdict come back as they were given. *)
Lemma loop_passes (toks : list string) (out : list string) :
  Forall (fun a => verdict a = None) toks ->
  sanitize_loop allowed disallowed (VStr <$> toks) out = inr (out ++ toks).
Proof.
  intros H. revert out. induction H as [|a toks Ha _ IH]; intros out.
  - cbn. rewrite app_nil_r. reflexivity.
  - rewrite fmap_cons, loop_cons_str, Ha, IH, <- app_assoc. reflexivity.
Qed.

End Loop.

Lemma disallowed_cases (a : string) :
  a ∈ DISALLOWED_FLAGS <-> a = "--interactive" \/ a = "-s".
Proof.
  unfold DISALLOWED_FLAGS. rewrite elem_of_list_to_set, !elem_of_cons, elem_of_nil. tauto.
Qed.

(** Each flag of the deny list starts with a dash and is absent from the
    allow list. *)
Lemma disallowed_not_allowed (a : string) :
  a ∈ DISALLOWED_FLAGS ->
  unsafe a = false /\ startsWith_dash a = true /\ bool_decide (a ∈ ALLOWED_FLAGS) = false.
Proof.
  intros [->| ->]%disallowed_cases; repeat split; vm_compute; reflexivity.
Qed.

Lemma verdict_disallowed (a : string) :
  a ∈ DISALLOWED_FLAGS -> verdict ALLOWED_FLAGS DISALLOWED_FLAGS a = Some (FlagNotAllowed a).
Proof.
  intros H. destruct (disallowed_not_allowed a H) as (Hu & Hd & Ha).
  unfold verdict. rewrite Hu, Hd, Ha. reflexivity.
Qed.

(** C6. [sanitizeArgs] fails when a token has a shell metacharacter and when
    a token is a flag of the deny list; when no token has a metacharacter and
    every token that starts with a dash is on the allow list, it returns the
    tokens as they are, in order. *)
Theorem sanitizeArgs_rejects_and_accepts :
  (forall args a,
     VStr a ∈ args -> contains_metachar a -> exists e, sanitizeArgs args = inl e) /\
  (forall args a,
     VStr a ∈ args -> a ∈ DISALLOWED_FLAGS -> exists e, sanitizeArgs args = inl e) /\
  (forall toks : list string,
     Forall (fun a => ~ contains_metachar a) toks ->
     Forall (fun a => startsWith_dash a = true -> a ∈ ALLOWED_FLAGS) toks ->
     sanitizeArgs (VStr <$> toks) = inr toks).
Proof.
  split; [|split].
  - intros args a Hin Hm. apply (loop_fails _ _ args a [] Hin).
    apply unsafe_iff in Hm. unfold verdict. rewrite Hm. eauto.
  - intros args a Hin Hd. apply (loop_fails _ _ args a [] Hin).
    rewrite (verdict_disallowed a Hd). eauto.
  - intros toks Hsafe Hflags. unfold sanitizeArgs.
    rewrite loop_passes; [reflexivity|].
    apply Forall_forall. intros a Hin.
    rewrite Forall_forall in Hsafe, Hflags.
    specialize (Hsafe a Hin). specialize (Hflags a Hin).
    apply safe_iff in Hsafe. unfold verdict. rewrite Hsafe.
    destruct (startsWith_dash a) eqn:Hdash.
    + rewrite (bool_decide_eq_true_2 _ (Hflags eq_refl)). cbn [negb andb].
      destruct (bool_decide (a ∈ DISALLOWED_FLAGS)) eqn:Hdis; [|reflexivity].
      apply bool_decide_eq_true_1 in Hdis.
      destruct (disallowed_not_allowed a Hdis) as (_ & _ & Hna).
      rewrite (bool_decide_eq_true_2 _ (Hflags eq_refl)) in Hna. discriminate.
    + cbn [andb]. destruct (bool_decide (a ∈ DISALLOWED_FLAGS)) eqn:Hdis; [|reflexivity].
      apply bool_decide_eq_true_1 in Hdis.
      destruct (disallowed_not_allowed a Hdis) as (_ & Hd & _). congruence.
Qed.

Lemma sanitizeArgs_rejects_and_accepts_witness :
  (exists e, sanitizeArgs [VStr "run"; VStr "; rm -rf /"] = inl e) /\
  (exists e, sanitizeArgs [VStr "--text"; VStr "hi"; VStr "--interactive"] = inl e) /\
  sanitizeArgs (VStr <$> ["--recipe"; "site.yaml"; "--params"; "title=Home page"])
    = inr ["--recipe"; "site.yaml"; "--params"; "title=Home page"].
Proof.
  destruct sanitizeArgs_rejects_and_accepts as (H1 & H2 & H3).
  split; [|split].
  - apply (H1 _ "; rm -rf /").
    + apply list_elem_of_further, list_elem_of_here.
    + exists ";"%char. split; [do 2 apply list_elem_of_further|]; apply list_elem_of_here.
  - apply (H2 _ "--interactive").
    + do 2 apply list_elem_of_further. apply list_elem_of_here.
    + apply disallowed_cases. left. reflexivity.
  - apply H3.
    + repeat (apply Forall_cons; split); try (apply Forall_nil; exact I);
        apply safe_iff; vm_compute; reflexivity.
    + repeat (apply Forall_cons; split); try (apply Forall_nil; exact I); intros Hdash;
        first [ discriminate Hdash
              | eapply bool_decide_eq_true_1; vm_compute; reflexivity ].
Defined.

(** C7 does not hold as it is stated. Both flags of the deny list start with
    a dash and are not on the allow list, so the allow-list check, which
    comes first, throws: the error is "flag not allowed". *)
Lemma denylisted_flag_is_not_allowed_error :
  "-s" ∈ DISALLOWED_FLAGS /\
  sanitizeArgs [VStr "-s"] = inl (FlagNotAllowed "-s") /\
  sanitizeArgs [VStr "-s"] <> inl (FlagDisallowed "-s") /\
  "--interactive" ∈ DISALLOWED_FLAGS /\
  sanitizeArgs [VStr "--interactive"] = inl (FlagNotAllowed "--interactive") /\
  sanitizeArgs [VStr "--interactive"] <> inl (FlagDisallowed "--interactive").
Proof.
  assert (Hs : sanitizeArgs [VStr "-s"] = inl (FlagNotAllowed "-s")) by (vm_compute; reflexivity).
  assert (Hi : sanitizeArgs [VStr "--interactive"] = inl (FlagNotAllowed "--interactive"))
    by (vm_compute; reflexivity).
  split; [apply disallowed_cases; auto|].
  split; [exact Hs|]. split; [rewrite Hs; discriminate|].
  split; [apply disallowed_cases; auto|].
  split; [exact Hi|]. rewrite Hi; discriminate.
Qed.

(** C7, amended. A flag of the deny list makes [sanitizeArgs] fail; when the
    tokens before it pass, the error is [FlagNotAllowed] for that flag.  With
    any allow and deny lists, [FlagDisallowed] is the error for a token of
    the deny list that passes the two earlier checks. *)
Theorem denylisted_flag_rejected :
  (forall (pre : list string) (a : string) (post : list jsval),
     a ∈ DISALLOWED_FLAGS ->
     sanitizeArgs (VStr <$> pre) = inr pre ->
     sanitizeArgs ((VStr <$> pre) ++ VStr a :: post) = inl (FlagNotAllowed a)) /\
  (forall (allowed disallowed : gset string) (a : string) (post : list jsval)
          (out : list string),
     a ∈ disallowed ->
     ~ contains_metachar a ->
     (startsWith_dash a = true -> a ∈ allowed) ->
     sanitize_loop allowed disallowed (VStr a :: post) out = inl (FlagDisallowed a)).
Proof.
  split.
  - intros pre a post Hd Hpre. unfold sanitizeArgs in *.
    rewrite (loop_app _ _ _ _ _ _ Hpre), loop_cons_str, (verdict_disallowed a Hd). reflexivity.
  - intros allowed disallowed a post out Hd Hsafe Hallow.
    rewrite loop_cons_str. unfold verdict. apply safe_iff in Hsafe. rewrite Hsafe.
    rewrite (bool_decide_eq_true_2 _ Hd).
    destruct (startsWith_dash a); [|reflexivity].
    rewrite (bool_decide_eq_true_2 _ (Hallow eq_refl)). reflexivity.
Qed.

Lemma denylisted_flag_rejected_witness :
  sanitizeArgs ((VStr <$> ["--text"; "hi"]) ++ [VStr "-s"; VStr "x"]) = inl (FlagNotAllowed "-s") /\
  sanitize_loop (ALLOWED_FLAGS ∪ {["-s"]}) DISALLOWED_FLAGS [VStr "-s"] [] = inl (FlagDisallowed "-s").
Proof.
  destruct denylisted_flag_rejected as (H1 & H2).
  split.
  - apply H1; [apply disallowed_cases; auto|vm_compute; reflexivity].
  - apply H2.
    + apply disallowed_cases; auto.
    + apply safe_iff. vm_compute. reflexivity.
    + intros _. apply elem_of_union. right. apply elem_of_singleton. reflexivity.
Defined.

End SanitizerFacts.

(** ** Paths *)

Module PathFacts.
Import Path.

Lemma proper_slashfree (s : string) : proper s -> slashfree s.
Proof. intros (_ & _ & _ & H). exact H. Qed.

Lemma proper_nonempty (s : string) : proper s -> nonempty s = true.
Proof. intros (H & _). destruct s; [contradiction|reflexivity]. Qed.

Lemma app_String (c : ascii) (s t : string) : String c s +:+ t = String c (s +:+ t).
Proof. reflexivity. Qed.

Lemma app_empty_l (s : string) : EmptyString +:+ s = s.
Proof. reflexivity. Qed.

Lemma app_empty_r (s : string) : s +:+ EmptyString = s.
Proof. induction s as [|c s IH]; [reflexivity|]. rewrite app_String, IH. reflexivity. Qed.

Lemma app_assoc_s (a b c : string) : (a +:+ b) +:+ c = a +:+ (b +:+ c).
Proof. induction a as [|x a IH]; [reflexivity|]. rewrite !app_String, IH. reflexivity. Qed.

Lemma split_cons (s : string) : exists seg segs, split s = seg :: segs.
Proof.
  induction s as [|c s (seg & segs & IH)]; cbn [split]; [eauto|].
  destruct (is_sep c); [eauto|]. rewrite IH. eauto.
Qed.

Lemma split_slashfree (s : string) : slashfree s -> split s = [s].
Proof.
  unfold slashfree. induction s as [|c s IH]; cbn [split list_ascii_of_string forallb];
    [reflexivity|].
  intros H. apply andb_true_iff in H as [Hc Hs]. apply negb_true_iff in Hc.
  rewrite Hc, (IH Hs). reflexivity.
Qed.

(** Splitting what was joined with a separator. *)
Lemma split_app (a b : string) : split (a +:+ "/" +:+ b) = split a ++ split b.
Proof.
  induction a as [|c a IH].
  - reflexivity.
  - rewrite app_String. cbn [split]. rewrite IH. destruct (is_sep c); [reflexivity|].
    destruct (split_cons a) as (seg & segs & ->). reflexivity.
Qed.

Lemma join_sep_cons (x y : string) (rest : list string) :
  join_sep (x :: y :: rest) = x +:+ "/" +:+ join_sep (y :: rest).
Proof. reflexivity. Qed.

Lemma split_join_sep (xs : list string) :
  xs <> [] -> Forall slashfree xs -> split (join_sep xs) = xs.
Proof.
  induction xs as [|x [|y rest] IH]; intros Hne Hall; [contradiction| |].
  - apply split_slashfree. inversion Hall; assumption.
  - rewrite join_sep_cons, split_app. inversion Hall as [|? ? Hx Hrest]; subst.
    rewrite (split_slashfree x Hx), IH; [reflexivity|discriminate|exact Hrest].
Qed.

Lemma join_sep_app (xs ys : list string) :
  xs <> [] -> ys <> [] -> join_sep (xs ++ ys) = join_sep xs +:+ "/" +:+ join_sep ys.
Proof.
  intros Hx Hy. induction xs as [|x [|x' xs] IH]; [contradiction| |].
  - destruct ys as [|y ys]; [contradiction|]. reflexivity.
  - change ((x :: x' :: xs) ++ ys) with (x :: x' :: (xs ++ ys)).
    rewrite !join_sep_cons, app_assoc_s. f_equal. rewrite app_assoc_s. f_equal.
    apply IH. discriminate.
Qed.

Lemma filter_all {A} (P : A -> Prop) `{!forall x, Decision (P x)} (l : list A) :
  Forall P l -> filter P l = l.
Proof.
  induction 1 as [|x l Hx _ IH]; [reflexivity|].
  rewrite filter_cons_True by exact Hx. rewrite IH. reflexivity.
Qed.

(** The segments of an absolute path built from proper names. *)
Lemma split_of_segments (segs : list string) :
  Forall proper segs ->
  filter (fun s => nonempty s = true) (split (of_segments segs)) = segs.
Proof.
  intros Hall. unfold of_segments.
  change ("/" +:+ join_sep segs) with (EmptyString +:+ "/" +:+ join_sep segs).
  rewrite split_app. cbn [split app]. rewrite filter_cons_False by (cbn; discriminate).
  destruct segs as [|x xs]; [reflexivity|].
  rewrite split_join_sep;
    [|discriminate|eapply Forall_impl; [exact Hall|apply proper_slashfree]].
  apply filter_all. eapply Forall_impl; [exact Hall|]. apply proper_nonempty.
Qed.

(** *** Normalization *)

Lemma proper_plain (s : string) : proper s -> plain s.
Proof. intros (? & ? & ? & _). repeat split; assumption. Qed.

Lemma norm_step_plain (allow : bool) (res : list string) (seg : string) :
  plain seg -> norm_step allow res seg = seg :: res.
Proof.
  intros (H1 & H2 & H3). unfold norm_step.
  destruct (decide (seg = EmptyString)); [contradiction|].
  destruct (decide (seg = ".")); [contradiction|].
  destruct (decide (seg = "..")); [contradiction|reflexivity].
Qed.

Lemma fold_norm_plain (allow : bool) (segs res : list string) :
  Forall plain segs -> fold_left (norm_step allow) segs res = rev segs ++ res.
Proof.
  intros H. revert res. induction H as [|seg segs Hs _ IH]; intros res; [reflexivity|].
  cbn [fold_left rev]. rewrite norm_step_plain by exact Hs. rewrite IH, <- app_assoc. reflexivity.
Qed.

Lemma norm_step_empty (allow : bool) (res : list string) :
  norm_step allow res EmptyString = res.
Proof. reflexivity. Qed.

(** Without [allowAboveRoot], what is kept is proper whenever what comes in
    has no separator. *)
Lemma norm_step_proper (res : list string) (seg : string) :
  Forall proper res -> slashfree seg -> Forall proper (norm_step false res seg).
Proof.
  intros Hres Hseg. unfold norm_step.
  destruct (decide (seg = EmptyString)); [exact Hres|].
  destruct (decide (seg = ".")); [exact Hres|].
  destruct (decide (seg = "..")).
  - destruct res as [|top below]; [constructor|].
    destruct (decide (top = "..")); [exact Hres|]. inversion Hres; assumption.
  - constructor; [|exact Hres]. repeat split; assumption.
Qed.

Lemma fold_norm_proper (segs res : list string) :
  Forall proper res -> Forall slashfree segs ->
  Forall proper (fold_left (norm_step false) segs res).
Proof.
  intros Hres Hsegs. revert res Hres.
  induction Hsegs as [|seg segs Hs _ IH]; intros res Hres; [exact Hres|].
  cbn [fold_left]. apply IH. apply norm_step_proper; assumption.
Qed.

Lemma join_sep_nonempty (segs : list string) :
  segs <> [] -> Forall proper segs -> nonempty (join_sep segs) = true.
Proof.
  intros Hne Hall. destruct segs as [|x [|y rest]]; [contradiction| |].
  - inversion Hall; subst. apply proper_nonempty. assumption.
  - rewrite join_sep_cons. inversion Hall as [|? ? Hx _]; subst.
    apply proper_nonempty in Hx. destruct x; [discriminate|reflexivity].
Qed.

Lemma endsWith_sep_app (a : string) (c : ascii) (b : string) :
  endsWith_sep (a +:+ String c b) = endsWith_sep (String c b).
Proof.
  induction a as [|x a IH]; [reflexivity|].
  rewrite app_String.
  change (endsWith_sep (String x (a +:+ String c b)))
    with (match a +:+ String c b with
          | EmptyString => is_sep x
          | String _ _ => endsWith_sep (a +:+ String c b)
          end).
  destruct (a +:+ String c b) as [|y t] eqn:Heq; [destruct a; discriminate|exact IH].
Qed.

Lemma endsWith_sep_slashfree (s : string) : slashfree s -> endsWith_sep s = false.
Proof.
  unfold slashfree. induction s as [|c s IH]; [reflexivity|].
  cbn [list_ascii_of_string forallb]. intros H. apply andb_true_iff in H as [Hc Hs].
  apply negb_true_iff in Hc. cbn [endsWith_sep]. destruct s; [exact Hc|]. apply IH. exact Hs.
Qed.

Lemma endsWith_sep_join (xs : list string) (y : string) :
  slashfree y -> nonempty y = true -> endsWith_sep (join_sep (xs ++ [y])) = false.
Proof.
  intros Hy Hne. destruct (decide (xs = [])) as [->|Hxs].
  - apply endsWith_sep_slashfree. exact Hy.
  - rewrite join_sep_app by (assumption || discriminate). cbn [join_sep String.concat].
    destruct y as [|c y]; [discriminate|].
    change ("/" +:+ String c y) with (String "/" (String c y)).
    rewrite endsWith_sep_app. cbn [endsWith_sep].
    change (endsWith_sep (String c y) = false). apply endsWith_sep_slashfree. exact Hy.
Qed.


Example normalize_dots : normalize "/a/./b/../c/" = "/a/c/".
Proof. reflexivity. Qed.

Example normalize_above : normalize "a/../.." = "..".
Proof. reflexivity. Qed.

Example join_home : join ["/home/goose"; ".cache"; "mcp-goose"; "www"]
  = "/home/goose/.cache/mcp-goose/www".
Proof. reflexivity. Qed.

Example join_dotdot : join ["/srv/www"; ".preview"; ".."] = "/srv/www".
Proof. reflexivity. Qed.

Example join_empty : join ["/srv/www"; ".preview"; EmptyString] = "/srv/www/.preview".
Proof. reflexivity. Qed.

Example resolve_relative : resolve "/srv" "x/../y" = "/srv/y".
Proof. reflexivity. Qed.

Example dirname_www : dirname "/srv/www" = "/srv".
Proof. reflexivity. Qed.

Lemma of_segments_nonempty (segs : list string) : nonempty (of_segments segs) = true.
Proof. reflexivity. Qed.

Lemma of_segments_absolute (segs : list string) : isAbsolute (of_segments segs) = true.
Proof. reflexivity. Qed.

Lemma fold_norm_of_segments (R : list string) :
  Forall proper R ->
  fold_left (norm_step false) (split (of_segments R)) [] = rev R.
Proof.
  intros HR. unfold of_segments.
  change ("/" +:+ join_sep R) with (EmptyString +:+ "/" +:+ join_sep R).
  rewrite split_app. cbn [split app fold_left]. rewrite norm_step_empty.
  destruct R as [|x xs]; [reflexivity|].
  rewrite split_join_sep;
    [|discriminate|eapply Forall_impl; [exact HR|apply proper_slashfree]].
  rewrite fold_norm_plain; [apply app_nil_r|].
  eapply Forall_impl; [exact HR|apply proper_plain].
Qed.

(** [path.join] of an absolute path of proper names with further names. *)
Lemma join_onto (R xs : list string) :
  Forall proper R ->
  xs <> [] ->
  Forall slashfree xs ->
  Forall (fun x => nonempty x = true) xs ->
  let ns := rev (fold_left (norm_step false) xs (rev R)) in
  ns <> [] ->
  join (of_segments R :: xs) = of_segments ns /\ Forall proper ns.
Proof.
  intros HR Hxs Hfree Hne ns Hns.
  assert (Hproper : Forall proper ns).
  { unfold ns. apply Forall_rev. apply fold_norm_proper; [apply Forall_rev; exact HR|exact Hfree]. }
  split; [|exact Hproper].
  unfold join. rewrite filter_cons_True by reflexivity. rewrite (filter_all _ xs Hne).
  destruct xs as [|x xs']; [contradiction|]. set (xs := x :: xs') in *.
  assert (Hjoined : join_sep (of_segments R :: xs) = of_segments R +:+ "/" +:+ join_sep xs)
    by reflexivity.
  rewrite Hjoined. unfold normalize.
  change (of_segments R +:+ "/" +:+ join_sep xs)
    with (String "/" (join_sep R +:+ "/" +:+ join_sep xs)) at 1.
  cbv zeta.
  change (isAbsolute (of_segments R +:+ "/" +:+ join_sep xs)) with true.
  assert (Htrail : endsWith_sep (of_segments R +:+ "/" +:+ join_sep xs) = false).
  { rewrite <- Hjoined. destruct (exists_last Hxs) as (init & y & Hinit).
    rewrite Hinit, app_comm_cons. rewrite Hinit in Hfree, Hne.
    apply Forall_app in Hfree as [_ Hy]. apply Forall_app in Hne as [_ Hyn].
    inversion Hy; subst. inversion Hyn; subst.
    apply endsWith_sep_join; assumption. }
  rewrite Htrail. cbn [negb].
  assert (Hnorm : normalizeString (of_segments R +:+ "/" +:+ join_sep xs) false = join_sep ns).
  { unfold normalizeString, norm_segments. rewrite split_app, fold_left_app.
    rewrite (fold_norm_of_segments R HR).
    rewrite (split_join_sep xs Hxs Hfree). reflexivity. }
  rewrite Hnorm.
  pose proof (join_sep_nonempty ns Hns Hproper) as Hnonempty.
  change (of_segments ns) with ("/" +:+ join_sep ns).
  destruct (join_sep ns) as [|c rest]; [discriminate|]. reflexivity.
Qed.

Lemma resolve_of_segments (cwd : string) (ns : list string) :
  Forall proper ns -> resolve cwd (of_segments ns) = of_segments ns.
Proof.
  intros Hns. unfold resolve. rewrite of_segments_nonempty, of_segments_absolute.
  cbn [negb]. unfold of_segments at 2. f_equal.
  unfold normalizeString, norm_segments.
  rewrite <- (app_empty_r (of_segments ns +:+ "/")), app_assoc_s.
  rewrite split_app, fold_left_app, (fold_norm_of_segments ns Hns).
  cbn [split fold_left]. rewrite norm_step_empty, rev_involutive. reflexivity.
Qed.

Lemma dirname_of_segments (ns : list string) :
  Forall proper ns -> dirname (of_segments ns) = of_segments (removelast ns).
Proof.
  intros Hns. unfold dirname. rewrite (split_of_segments ns Hns), of_segments_absolute.
  destruct (removelast ns); reflexivity.
Qed.

Lemma removelast_proper (ns : list string) : Forall proper ns -> Forall proper (removelast ns).
Proof.
  induction 1 as [|x [|y rest] Hx Hrest IH]; cbn [removelast]; [constructor|constructor|].
  constructor; [exact Hx|exact IH].
Qed.

Lemma prefix_app_s (p s : string) : String.prefix p (p +:+ s) = true.
Proof.
  induction p as [|c p IH]; [destruct s; reflexivity|].
  rewrite app_String. cbn [String.prefix].
  destruct (ascii_dec c c) as [_|Hne]; [exact IH|contradiction].
Qed.

Lemma slashfree_app (a b : string) : slashfree a -> slashfree b -> slashfree (a +:+ b).
Proof.
  unfold slashfree. induction a as [|c a IH]; [auto|].
  rewrite app_String. cbn [list_ascii_of_string forallb]. intros Ha Hb.
  apply andb_true_iff in Ha as [Hc Ha]. rewrite Hc. cbn [andb]. apply IH; assumption.
Qed.

End PathFacts.

(** ** The file system *)

Module FSFacts.
Import FS.

Lemma lookup_entry_set_eq {A} (name : string) (x : A) (es : list (string * A)) :
  lookup_entry name (set_entry name x es) = Some x.
Proof.
  induction es as [|[n y] es IH]; cbn [set_entry lookup_entry].
  - destruct (decide (name = name)); [reflexivity|contradiction].
  - destruct (decide (n = name)) as [->|Hne]; cbn [lookup_entry].
    + destruct (decide (name = name)); [reflexivity|contradiction].
    + destruct (decide (n = name)); [contradiction|exact IH].
Qed.

Lemma lookup_entry_set_ne {A} (name other : string) (x : A) (es : list (string * A)) :
  name <> other -> lookup_entry other (set_entry name x es) = lookup_entry other es.
Proof.
  intros Hne. induction es as [|[n y] es IH]; cbn [set_entry lookup_entry].
  - destruct (decide (name = other)); [contradiction|reflexivity].
  - destruct (decide (n = name)) as [->|Hn]; cbn [lookup_entry].
    + destruct (decide (name = other)); [contradiction|reflexivity].
    + destruct (decide (n = other)); [reflexivity|exact IH].
Qed.

Lemma lookup_entry_kept {A} (skipNames : list string) (name : string) (es : list (string * A)) :
  name ∈ skipNames ->
  lookup_entry name (filter (fun ent => ent.1 ∈ skipNames) es) = lookup_entry name es.
Proof.
  intros Hin. induction es as [|[n y] es IH]; [reflexivity|].
  cbn [lookup_entry]. destruct (decide (n = name)) as [->|Hne].
  - rewrite filter_cons_True by exact Hin. cbn [lookup_entry].
    destruct (decide (name = name)); [reflexivity|contradiction].
  - destruct (decide (n ∈ skipNames)) as [Hn|Hn].
    + rewrite filter_cons_True by exact Hn. cbn [lookup_entry].
      destruct (decide (n = name)); [contradiction|exact IH].
    + rewrite filter_cons_False by exact Hn. exact IH.
Qed.

Lemma lookup_entry_None_names {A} (name : string) (es : list (string * A)) :
  lookup_entry name es = None -> Forall (fun e => e.1 <> name) es.
Proof.
  induction es as [|[n y] es IH]; cbn [lookup_entry]; [constructor|].
  destruct (decide (n = name)); [discriminate|]. intros H. constructor; [assumption|auto].
Qed.

Lemma lookup_below_file (q : path) (content : list byte) :
  q <> [] -> lookup q (File content) = None.
Proof. destruct q; [contradiction|reflexivity]. Qed.

Lemma lookup_below_empty (q : path) : q <> [] -> lookup q (Dir []) = None.
Proof. destruct q; [contradiction|reflexivity]. Qed.

Lemma below_cons (name : string) (p q : path) : below (name :: p) (name :: q) <-> below p q.
Proof.
  unfold below. split; [apply prefix_cons_inv_2|apply prefix_cons].
Qed.

(** [mkdir -p] changes nothing but on the way to the directory it makes. *)
Lemma mkdir_p_frame (p : path) (nd nd' : node) (q : path) :
  mkdir_p p nd = inr nd' -> ~ below q p -> lookup q nd' = lookup q nd.
Proof.
  revert nd nd' q. induction p as [|name p IH]; intros nd nd' q Hmk Hq.
  - destruct nd; cbn in Hmk; [discriminate|]. injection Hmk as <-. reflexivity.
  - destruct nd as [c|es]; cbn [mkdir_p] in Hmk; [discriminate|].
    destruct (mkdir_p p (default (Dir []) (lookup_entry name es))) as [e|c] eqn:Hsub;
      [discriminate|].
    injection Hmk as <-. destruct q as [|m q]; [exfalso; apply Hq; apply prefix_nil|].
    cbn [lookup]. destruct (decide (name = m)) as [<-|Hne].
    + rewrite lookup_entry_set_eq.
      assert (Hq' : ~ below q p) by (intros H; apply Hq; apply below_cons; exact H).
      rewrite (IH _ _ q Hsub Hq').
      destruct (lookup_entry name es) as [ch|]; [reflexivity|].
      cbn [default]. apply lookup_below_empty. intros ->. apply Hq'. apply prefix_nil.
    + rewrite lookup_entry_set_ne by exact Hne. reflexivity.
Qed.

(** Writing a file changes nothing but on the way to it. *)
Lemma write_file_frame (p : path) (content : list byte) (nd nd' : node) (q : path) :
  write_file p content nd = inr nd' -> ~ below q p -> lookup q nd' = lookup q nd.
Proof.
  revert nd nd' q. induction p as [|name p IH]; intros nd nd' q Hw Hq.
  - destruct q as [|m q]; [exfalso; apply Hq; apply prefix_nil|].
    destruct nd; cbn in Hw; [|discriminate]. injection Hw as <-. reflexivity.
  - destruct nd as [c|es]; cbn [write_file] in Hw; [discriminate|].
    destruct q as [|m q]; [exfalso; apply Hq; apply prefix_nil|].
    assert (Hq' : name = m -> ~ below q p)
      by (intros <- H; apply Hq; apply below_cons; exact H).
    destruct (lookup_entry name es) as [ch|] eqn:Hch.
    + destruct (write_file p content ch) as [e|c'] eqn:Hsub; [discriminate|].
      injection Hw as <-. cbn [lookup]. destruct (decide (name = m)) as [<-|Hne].
      * rewrite lookup_entry_set_eq, Hch. apply (IH _ _ q Hsub). auto.
      * rewrite lookup_entry_set_ne by exact Hne. reflexivity.
    + destruct p as [|n' p']; [|discriminate]. injection Hw as <-. cbn [lookup].
      destruct (decide (name = m)) as [<-|Hne].
      * rewrite lookup_entry_set_eq, Hch. apply lookup_below_file.
        intros ->. apply (Hq' eq_refl). apply prefix_nil.
      * rewrite lookup_entry_set_ne by exact Hne. reflexivity.
Qed.

(** Changing the entries of a directory changes nothing outside of it, nor
    below an entry that the change keeps. *)
Lemma update_dir_frame (p : path) (f : list (string * node) -> list (string * node))
  (nd nd' : node) (q : path) :
  update_dir p f nd = inr nd' ->
  ~ below q p ->
  (forall es name rest, q = p ++ name :: rest -> lookup_entry name (f es) = lookup_entry name es) ->
  lookup q nd' = lookup q nd.
Proof.
  revert nd nd' q. induction p as [|n p IH]; intros nd nd' q Hu Hq Hkeep.
  - destruct q as [|m q]; [exfalso; apply Hq; apply prefix_nil|].
    destruct nd as [c|es]; cbn in Hu; [discriminate|]. injection Hu as <-.
    cbn [lookup]. rewrite (Hkeep es m q eq_refl). reflexivity.
  - destruct nd as [c|es]; cbn [update_dir] in Hu; [discriminate|].
    destruct (lookup_entry n es) as [ch|] eqn:Hch; [|discriminate].
    destruct (update_dir p f ch) as [e|c'] eqn:Hsub; [discriminate|].
    injection Hu as <-. destruct q as [|m q]; [exfalso; apply Hq; apply prefix_nil|].
    cbn [lookup]. destruct (decide (n = m)) as [<-|Hne].
    + rewrite lookup_entry_set_eq, Hch. apply (IH _ _ q Hsub).
      * intros H. apply Hq. apply below_cons. exact H.
      * intros es' name rest ->. apply (Hkeep es' name rest). reflexivity.
    + rewrite lookup_entry_set_ne by exact Hne. reflexivity.
Qed.

Lemma not_below_longer (p : path) (name : string) (rest : path) :
  ~ below (p ++ name :: rest) p.
Proof.
  intros H. apply prefix_length in H. rewrite length_app in H. cbn in H. lia.
Qed.

Lemma below_trans (p q r : path) : below p q -> below q r -> below p r.
Proof. unfold below. intros H1 H2. etrans; eassumption. Qed.

Lemma removelast_below (p : path) : below (removelast p) p.
Proof.
  destruct (decide (p = [])) as [->|Hne]; [apply prefix_nil|].
  destruct (exists_last Hne) as (init & x & ->). rewrite removelast_last.
  apply prefix_app_r. reflexivity.
Qed.

Lemma apart_not_below (p q : path) : apart p q -> ~ below q p.
Proof. intros [_ H]. exact H. Qed.

Lemma apart_child (p q : path) (name : string) : apart p q -> apart (p ++ [name]) q.
Proof.
  intros [H1 H2]. split.
  - intros H. apply H1. eapply below_trans; [|exact H]. apply prefix_app_r. reflexivity.
  - intros [k Hk]. destruct k as [|x k] using rev_ind.
    + rewrite app_nil_r in Hk. apply H1. exists [name]. symmetry. exact Hk.
    + clear IHk. rewrite app_assoc in Hk. apply app_inj_tail in Hk as [Hk _].
      apply H2. exists k. exact Hk.
Qed.

Lemma apart_sibling (p : path) (name other : string) (rest : path) :
  name <> other -> apart (p ++ [name]) (p ++ other :: rest).
Proof.
  intros Hne. split; intros [k Hk].
  - rewrite <- app_assoc in Hk. apply app_inv_head in Hk. cbn in Hk. congruence.
  - rewrite <- app_assoc in Hk. apply app_inv_head in Hk. cbn in Hk. congruence.
Qed.

End FSFacts.

(** ** The branch publisher *)

Module PublishFacts.
Import FS FSFacts Publish Path PathFacts Samples.

(** Induction on a working tree, with the hypothesis for every entry of a
    directory. *)
Lemma snode_ind' (P : snode -> Prop) :
  (forall content, P (SFile content)) ->
  (forall target, P (SSymlink target)) ->
  (forall entries, Forall (fun e => P e.2) entries -> P (SDir entries)) ->
  forall ent, P ent.
Proof.
  intros HFile HLink HDir. fix IH 1. intros [content|target|entries].
  - apply HFile.
  - apply HLink.
  - apply HDir. induction entries as [|[name c] entries IHes]; constructor; [apply IH|exact IHes].
Qed.

(** *** Where the preview root and the targets are *)

Example slug_slash : branchSlug "feature/x" = "feature_x".
Proof. reflexivity. Qed.

Example slug_traversal : branchSlug "../../etc/passwd" = ".._.._etc_passwd".
Proof. reflexivity. Qed.

(** "é" is one UTF-16 code unit, so it gives one underscore. *)
Example slug_accent : branchSlug (String "195" (String "169" "x")) = "_x".
Proof. reflexivity. Qed.

Lemma root_segments_nonempty (home : list string) : root_segments home <> [].
Proof. unfold root_segments. destruct home; discriminate. Qed.

Lemma preview_root (home : list string) :
  Forall proper home ->
  resolvePreviewRoot (of_segments home) = of_segments (root_segments home) /\
  Forall proper (root_segments home).
Proof.
  intros Hhome. unfold resolvePreviewRoot, DEFAULT_PREVIEW_ROOT.
  assert (Hxs : Forall plain [".cache"; "mcp-goose"; "www"])
    by (repeat constructor; discriminate).
  pose proof (join_onto home [".cache"; "mcp-goose"; "www"] Hhome) as H.
  cbv zeta in H. rewrite (fold_norm_plain false _ _ Hxs) in H.
  rewrite rev_app_distr, !rev_involutive in H.
  apply H; [discriminate|repeat constructor|repeat constructor|apply root_segments_nonempty].
Qed.

Lemma slug_unit_slashfree (c : ascii) : slashfree (slug_unit c).
Proof.
  unfold slug_unit. destruct (N_of_ascii c <? 128)%N.
  - destruct (slug_keeps c) eqn:Hk; [|reflexivity].
    unfold slashfree. cbn [list_ascii_of_string forallb]. rewrite andb_true_r.
    apply negb_true_iff. unfold is_sep. destruct (Ascii.eqb c "/") eqn:Heq; [|reflexivity].
    apply Ascii.eqb_eq in Heq. subst c. vm_compute in Hk. discriminate.
  - destruct (N_of_ascii c <? 192)%N; [reflexivity|].
    destruct (N_of_ascii c <? 240)%N; reflexivity.
Qed.

(** A slug has no separator: it is one name. *)
Lemma branchSlug_slashfree (name : string) : slashfree (branchSlug name).
Proof.
  induction name as [|c name IH]; [reflexivity|].
  cbn [branchSlug]. apply slashfree_app; [apply slug_unit_slashfree|exact IH].
Qed.

Lemma target_dir (R : list string) (branch : string) :
  Forall proper R -> R <> [] ->
  resolveTargetDir (of_segments R) branch = of_segments (R ++ target_ext branch) /\
  Forall proper (R ++ target_ext branch).
Proof.
  intros HR Hne. unfold resolveTargetDir, target_ext.
  destruct (decide (branch = MAIN_BRANCH)) as [_|_]; [rewrite app_nil_r; auto|].
  cbv zeta. pose proof (branchSlug_slashfree branch) as Hfree.
  destruct (decide (branchSlug branch = EmptyString)) as [->|Hempty];
    [|destruct (decide (branchSlug branch = ".")) as [->|Hdot];
      [|destruct (decide (branchSlug branch = "..")) as [->|Hdotdot]]].
  - change (join [of_segments R; PREVIEW_PREFIX; EmptyString])
      with (join [of_segments R; PREVIEW_PREFIX]).
    pose proof (join_onto R [PREVIEW_PREFIX] HR) as H. cbv zeta in H.
    change (fold_left (norm_step false) [PREVIEW_PREFIX] (rev R))
      with (PREVIEW_PREFIX :: rev R) in H.
    cbn [rev] in H. rewrite (rev_involutive R) in H.
    apply H; [discriminate|repeat constructor|repeat constructor|destruct R; discriminate].
  - pose proof (join_onto R [PREVIEW_PREFIX; "."] HR) as H. cbv zeta in H.
    change (fold_left (norm_step false) [PREVIEW_PREFIX; "."] (rev R))
      with (PREVIEW_PREFIX :: rev R) in H.
    cbn [rev] in H. rewrite (rev_involutive R) in H.
    apply H; [discriminate|repeat constructor|repeat constructor|destruct R; discriminate].
  - pose proof (join_onto R [PREVIEW_PREFIX; ".."] HR) as H. cbv zeta in H.
    change (fold_left (norm_step false) [PREVIEW_PREFIX; ".."] (rev R)) with (rev R) in H.
    rewrite (rev_involutive R) in H. rewrite app_nil_r.
    apply H; [discriminate|repeat constructor|repeat constructor|exact Hne].
  - assert (Hplain : Forall plain [PREVIEW_PREFIX; branchSlug branch]).
    { constructor; [repeat split; discriminate|]. constructor; [|constructor].
      repeat split; assumption. }
    pose proof (join_onto R [PREVIEW_PREFIX; branchSlug branch] HR) as H. cbv zeta in H.
    rewrite (fold_norm_plain false _ _ Hplain), rev_app_distr, !rev_involutive in H.
    apply H; [discriminate| | |destruct R; discriminate].
    + constructor; [reflexivity|]. constructor; [exact Hfree|constructor].
    + constructor; [reflexivity|]. constructor; [|constructor].
      destruct (branchSlug branch); [contradiction|reflexivity].
Qed.

Lemma locate_of_segments (cwd : string) (ns : list string) :
  Forall proper ns -> locate cwd (of_segments ns) = ns.
Proof.
  intros Hns. unfold locate. rewrite (resolve_of_segments cwd ns Hns).
  apply split_of_segments. exact Hns.
Qed.

Lemma isSubPath_below (cwd : string) (R ext : list string) :
  Forall proper R -> R <> [] -> Forall proper (R ++ ext) ->
  isSubPath cwd (of_segments R) (of_segments (R ++ ext)) = true.
Proof.
  intros HR Hne Hall. unfold isSubPath.
  rewrite (resolve_of_segments cwd R HR), (resolve_of_segments cwd _ Hall).
  destruct ext as [|x ext].
  - rewrite app_nil_r. rewrite bool_decide_eq_true_2 by reflexivity. reflexivity.
  - apply orb_true_iff. right. unfold startsWith, of_segments.
    rewrite join_sep_app by (assumption || discriminate).
    rewrite <- !app_assoc_s. apply prefix_app_s.
Qed.

(** *** Actions that never throw [PathEscape] *)

Lemma no_escape_ret {A} (x : A) : no_escape (mret x).
Proof. intros fs. discriminate. Qed.

Lemma no_escape_bind {A B} (m : Action A) (k : A -> Action B) :
  no_escape m -> (forall x, no_escape (k x)) -> no_escape (m ≫= k).
Proof.
  intros Hm Hk fs. unfold mbind, Action_bind, bind.
  specialize (Hm fs). destruct (m fs) as [fs' [e|x]]; [|apply Hk].
  cbn [snd] in *. intros [= ->]. apply Hm. reflexivity.
Qed.

Lemma no_escape_atomically (step : node -> FsError + node) : no_escape (atomically step).
Proof. intros fs. unfold atomically. destruct (step fs); discriminate. Qed.

Lemma no_escape_rmDirContents (cwd dir : string) (skipNames : list string) :
  no_escape (rmDirContents cwd dir skipNames).
Proof.
  intros fs. unfold rmDirContents.
  destruct (update_dir _ _ fs) as [[| | |]|fs']; discriminate.
Qed.

Lemma no_escape_copyEntries (copy : snode -> string -> Action unit) (dest : string)
  (entries : list (string * snode)) :
  Forall (fun e => forall d, no_escape (copy e.2 d)) entries ->
  no_escape (copyEntries copy dest entries).
Proof.
  induction 1 as [|[name ent] entries He _ IH]; cbn [copyEntries]; [apply no_escape_ret|].
  destruct (decide (name = ".git")); [exact IH|].
  apply no_escape_bind; [apply He|intros _; exact IH].
Qed.

Lemma no_escape_copyEntry (cwd : string) (ent : snode) :
  forall d, no_escape (copyEntry cwd ent d).
Proof.
  induction ent as [content|target|entries IH] using snode_ind'; intros d; cbn [copyEntry].
  - apply no_escape_bind; [apply no_escape_atomically|intros _; apply no_escape_atomically].
  - apply no_escape_ret.
  - apply no_escape_bind; [apply no_escape_atomically|intros _].
    apply no_escape_copyEntries. exact IH.
Qed.

(** C9. Whatever the branch is called, the target directory that
    [publishCurrentBranch] computes is the preview root or lies below it (a
    slug has no separator, so joining it adds one name at most), and the
    publish never ends with the path-escape error. *)
Theorem target_within_preview_root (home : list string) (cwd : string) (PORT : option string)
  (branch : string) :
  Forall proper home ->
  let homedir := of_segments home in
  let previewRoot := resolvePreviewRoot homedir in
  let targetDir := resolveTargetDir previewRoot branch in
  isSubPath cwd previewRoot targetDir = true /\
  locate cwd previewRoot `prefix_of` locate cwd targetDir /\
  forall scope fs, (publishCurrentBranch homedir cwd PORT branch scope fs).2 <> inl PathEscape.
Proof.
  intros Hhome homedir previewRoot targetDir.
  destruct (preview_root home Hhome) as [Hroot HR].
  destruct (target_dir (root_segments home) branch HR (root_segments_nonempty home))
    as [Htarget HT].
  assert (Hsub : isSubPath cwd previewRoot targetDir = true).
  { unfold targetDir, previewRoot, homedir. rewrite Hroot, Htarget.
    apply isSubPath_below; [exact HR|apply root_segments_nonempty|exact HT]. }
  split; [exact Hsub|]. split.
  - unfold targetDir, previewRoot, homedir. rewrite Hroot, Htarget.
    rewrite !locate_of_segments by assumption. apply prefix_app_r. reflexivity.
  - intros scope fs. unfold publishCurrentBranch. fold homedir. fold previewRoot. fold targetDir.
    revert fs. change (no_escape
      (ensureDirSync cwd previewRoot ;;
       ensureDirSync cwd (dirname targetDir) ;;
       ensureDirSync cwd targetDir ;;
       if negb (isSubPath cwd previewRoot targetDir) then throw PathEscape
       else
         rmDirContents cwd targetDir
           (if decide (branch = MAIN_BRANCH) then [PREVIEW_PREFIX] else []) ;;
         copyDir cwd scope targetDir ;;
         mret (mkPublished branch targetDir
                 (if decide (branch = MAIN_BRANCH)
                  then "http://localhost:" +:+ port_text PORT +:+ "/"
                  else "http://localhost:" +:+ port_text PORT +:+ "/" +:+ PREVIEW_PREFIX
                       +:+ "/" +:+ branchSlug branch +:+ "/")))).
    do 3 (apply no_escape_bind; [apply no_escape_atomically|intros _]).
    rewrite Hsub. cbn [negb].
    apply no_escape_bind; [apply no_escape_rmDirContents|intros _].
    apply no_escape_bind; [apply no_escape_copyEntry|intros _].
    apply no_escape_ret.
Qed.

Lemma target_within_preview_root_witness :
  Forall proper ["home"; "goose"] /\
  isSubPath "/srv" "/home/goose/.cache/mcp-goose/www"
    (resolveTargetDir "/home/goose/.cache/mcp-goose/www" "../../etc/passwd") = true /\
  resolveTargetDir "/home/goose/.cache/mcp-goose/www" "../../etc/passwd"
    = "/home/goose/.cache/mcp-goose/www/.preview/.._.._etc_passwd".
Proof.
  assert (Hhome : Forall proper ["home"; "goose"]).
  { repeat constructor; discriminate. }
  split; [exact Hhome|]. split; [|reflexivity].
  destruct (target_within_preview_root ["home"; "goose"] "/srv" None "../../etc/passwd" Hhome)
    as (H & _ & _).
  exact H.
Defined.

(** *** What an action leaves as it was *)

Lemma keeps_ret {A} (K : path -> Prop) (x : A) : keeps K (mret x).
Proof. intros fs q _. reflexivity. Qed.

Lemma keeps_bind {A B} (K : path -> Prop) (m : Action A) (k : A -> Action B) :
  keeps K m -> (forall x, keeps K (k x)) -> keeps K (m ≫= k).
Proof.
  intros Hm Hk fs q Hq. unfold mbind, Action_bind, bind.
  specialize (Hm fs q Hq). destruct (m fs) as [fs' [e|x]]; [exact Hm|].
  cbn [fst] in Hm. rewrite (Hk x fs' q Hq). exact Hm.
Qed.

Lemma keeps_atomically (K : path -> Prop) (step : node -> FsError + node) :
  (forall fs fs' q, step fs = inr fs' -> K q -> lookup q fs' = lookup q fs) ->
  keeps K (atomically step).
Proof.
  intros H fs q Hq. unfold atomically. destruct (step fs) as [e|fs'] eqn:Hs; [reflexivity|].
  apply (H fs fs' q Hs Hq).
Qed.

Lemma keeps_mkdir (K : path -> Prop) (p : path) :
  (forall q, K q -> ~ below q p) -> keeps K (atomically (mkdir_p p)).
Proof.
  intros HK. apply keeps_atomically. intros fs fs' q Hs Hq.
  apply (mkdir_p_frame p fs fs' q Hs). auto.
Qed.

Lemma keeps_write (K : path -> Prop) (p : path) (content : list byte) :
  (forall q, K q -> ~ below q p) -> keeps K (atomically (write_file p content)).
Proof.
  intros HK. apply keeps_atomically. intros fs fs' q Hs Hq.
  apply (write_file_frame p content fs fs' q Hs). auto.
Qed.

Lemma keeps_rmDirContents (K : path -> Prop) (cwd dir : string) (skipNames : list string) :
  (forall q, K q -> ~ below q (locate cwd dir)) ->
  (forall q name rest, K q -> q = locate cwd dir ++ name :: rest -> name ∈ skipNames) ->
  keeps K (rmDirContents cwd dir skipNames).
Proof.
  intros HK Hskip fs q Hq. unfold rmDirContents.
  destruct (update_dir _ _ fs) as [[| | |]|fs'] eqn:Hs; try reflexivity.
  apply (update_dir_frame _ _ fs fs' q Hs); [auto|].
  intros es name rest Heq. apply lookup_entry_kept. eapply Hskip; eauto.
Qed.

Lemma keeps_copyEntries (K : path -> Prop) (copy : snode -> string -> Action unit)
  (dest : string) (entries : list (string * snode)) :
  Forall (fun e => e.1 <> ".git" -> keeps K (copy e.2 (join [dest; e.1]))) entries ->
  keeps K (copyEntries copy dest entries).
Proof.
  induction 1 as [|[name ent] entries He _ IH]; cbn [copyEntries]; [apply keeps_ret|].
  destruct (decide (name = ".git")) as [|Hne]; [exact IH|].
  apply keeps_bind; [apply He; exact Hne|intros _; exact IH].
Qed.

Lemma join_child (ds : list string) (name : string) :
  Forall proper ds -> proper name ->
  join [of_segments ds; name] = of_segments (ds ++ [name]) /\ Forall proper (ds ++ [name]).
Proof.
  intros Hds Hname.
  pose proof (join_onto ds [name] Hds) as H. cbv zeta in H.
  rewrite (fold_norm_plain false [name] (rev ds)) in H
    by (constructor; [apply proper_plain; exact Hname|constructor]).
  cbn [rev app] in H. rewrite (rev_involutive ds) in H.
  apply H; [discriminate| | |destruct ds; discriminate].
  - constructor; [apply proper_slashfree; exact Hname|constructor].
  - constructor; [apply proper_nonempty; exact Hname|constructor].
Qed.

(** Copying an entry to [d] changes nothing apart from [d]. *)
Lemma keeps_copyEntry (cwd : string) (ent : snode) :
  wf_tree ent ->
  forall ds, Forall proper ds -> keeps (apart ds) (copyEntry cwd ent (of_segments ds)).
Proof.
  induction ent as [content|target|entries IH] using snode_ind'; intros Hwf ds Hds;
    cbn [copyEntry].
  - apply keeps_bind; [|intros _].
    + rewrite (dirname_of_segments ds Hds).
      rewrite (locate_of_segments cwd _ (removelast_proper ds Hds)).
      apply keeps_mkdir. intros q [_ Hq] H. apply Hq.
      eapply below_trans; [exact H|apply removelast_below].
    + rewrite (locate_of_segments cwd ds Hds). apply keeps_write. intros q. apply apart_not_below.
  - apply keeps_ret.
  - apply keeps_bind; [|intros _].
    + unfold ensureDirSync. rewrite (locate_of_segments cwd ds Hds).
      apply keeps_mkdir. intros q. apply apart_not_below.
    + apply keeps_copyEntries. inversion Hwf as [| |? Hall]; subst.
      rewrite Forall_forall in IH, Hall. apply Forall_forall. intros [name c] Hin _.
      destruct (Hall _ Hin) as [Hname Hc]. cbn [fst snd] in *.
      destruct (join_child ds name Hds Hname) as [-> Hchild].
      intros fs q Hq. apply (IH _ Hin Hc _ Hchild). apply apart_child. exact Hq.
Qed.

Lemma keeps_copyDir (cwd : string) (scope : list (string * snode)) (ds : list string) :
  wf_tree (SDir scope) -> Forall proper ds ->
  keeps (apart ds) (copyDir cwd scope (of_segments ds)).
Proof. intros Hwf Hds. apply (keeps_copyEntry cwd (SDir scope) Hwf ds Hds). Qed.

(** Copying into [ds] changes nothing below an entry of [ds] that the source
    does not have. *)
Lemma keeps_copyDir_other (cwd : string) (scope : list (string * snode)) (ds : list string)
  (other : string) :
  wf_tree (SDir scope) -> Forall proper ds ->
  lookup_entry other scope = None ->
  keeps (fun q => exists rest, q = ds ++ other :: rest) (copyDir cwd scope (of_segments ds)).
Proof.
  intros Hwf Hds Hother. unfold copyDir. cbn [copyEntry].
  apply keeps_bind; [|intros _].
  - unfold ensureDirSync. rewrite (locate_of_segments cwd ds Hds).
    apply keeps_mkdir. intros q [rest ->]. apply not_below_longer.
  - apply keeps_copyEntries. inversion Hwf as [| |? Hall]; subst.
    apply lookup_entry_None_names in Hother.
    rewrite Forall_forall in Hall, Hother. apply Forall_forall. intros [name c] Hin _.
    destruct (Hall _ Hin) as [Hname Hc]. specialize (Hother _ Hin). cbn [fst snd] in *.
    destruct (join_child ds name Hds Hname) as [-> Hchild].
    intros fs q [rest ->]. apply (keeps_copyEntry cwd c Hc _ Hchild).
    apply apart_sibling. exact Hother.
Qed.

(** *** Publishing *)

Lemma publishCurrentBranch_steps (homedir cwd : string) (PORT : option string)
  (branch : string) (scope : list (string * snode)) :
  let previewRoot := resolvePreviewRoot homedir in
  let targetDir := resolveTargetDir previewRoot branch in
  publishCurrentBranch homedir cwd PORT branch scope =
  (ensureDirSync cwd previewRoot ;;
   ensureDirSync cwd (dirname targetDir) ;;
   ensureDirSync cwd targetDir ;;
   if negb (isSubPath cwd previewRoot targetDir) then throw PathEscape
   else
     rmDirContents cwd targetDir
       (if decide (branch = MAIN_BRANCH) then [PREVIEW_PREFIX] else []) ;;
     copyDir cwd scope targetDir ;;
     mret (mkPublished branch targetDir
             (if decide (branch = MAIN_BRANCH)
              then "http://localhost:" +:+ port_text PORT +:+ "/"
              else "http://localhost:" +:+ port_text PORT +:+ "/" +:+ PREVIEW_PREFIX
                   +:+ "/" +:+ branchSlug branch +:+ "/"))).
Proof. reflexivity. Qed.

Lemma keeps_throw {A} (K : path -> Prop) (e : PublishError) : keeps K (@throw A e).
Proof. intros fs q _. reflexivity. Qed.

(** A publish changes nothing at the paths of [K] when they are not on the
    way to the target, the clearing keeps them, and the copy keeps them. *)
Lemma keeps_publish (K : path -> Prop) (home : list string) (cwd : string)
  (PORT : option string) (branch : string) (scope : list (string * snode)) :
  Forall proper home ->
  let T := root_segments home ++ target_ext branch in
  (forall q, K q -> ~ below q T) ->
  (forall q name rest, K q -> q = T ++ name :: rest ->
     name ∈ (if decide (branch = MAIN_BRANCH) then [PREVIEW_PREFIX] else [])) ->
  keeps K (copyDir cwd scope (of_segments T)) ->
  keeps K (publishCurrentBranch (of_segments home) cwd PORT branch scope).
Proof.
  intros Hhome T HK Hskip Hcopy.
  destruct (preview_root home Hhome) as [Hroot HR].
  destruct (target_dir (root_segments home) branch HR (root_segments_nonempty home))
    as [Htarget HT]. fold T in Htarget, HT.
  pose proof (publishCurrentBranch_steps (of_segments home) cwd PORT branch scope) as Hsteps.
  cbv zeta in Hsteps. rewrite Hsteps, Hroot, Htarget. clear Hsteps.
  assert (HRT : below (root_segments home) T) by (apply prefix_app_r; reflexivity).
  apply keeps_bind; [|intros _].
  { unfold ensureDirSync. rewrite (locate_of_segments cwd _ HR). apply keeps_mkdir.
    intros q Hq H. apply (HK q Hq). eapply below_trans; eassumption. }
  apply keeps_bind; [|intros _].
  { unfold ensureDirSync. rewrite (dirname_of_segments T HT).
    rewrite (locate_of_segments cwd _ (removelast_proper T HT)). apply keeps_mkdir.
    intros q Hq H. apply (HK q Hq). eapply below_trans; [exact H|apply removelast_below]. }
  apply keeps_bind; [|intros _].
  { unfold ensureDirSync. rewrite (locate_of_segments cwd _ HT). apply keeps_mkdir. exact HK. }
  destruct (negb _); [apply keeps_throw|].
  apply keeps_bind; [|intros _].
  { apply keeps_rmDirContents; rewrite (locate_of_segments cwd _ HT); assumption. }
  apply keeps_bind; [exact Hcopy|intros _]. apply keeps_ret.
Qed.

(** C8 (the code departs from it). Publishing [main] from a working tree
    that has an entry [.preview] writes into the preview of another branch:
    [rmDirContents] is told to keep [.preview], but [copyDir] leaves out
    [.git] only. And publishing the branch [..], whose slug is [..], has the
    preview root itself as target, which the sub-path test lets through: the
    root's files are replaced and [.preview] is removed. *)
Theorem publish_reaches_outside :
  (let out := publishCurrentBranch "/home/goose" "/srv" None "main" tree_with_preview preview_fs in
   (exists r, out.2 = inr r) /\
   lookup (www ++ [PREVIEW_PREFIX; "feature_x"; "index.html"]) preview_fs = Some (File [x62]) /\
   lookup (www ++ [PREVIEW_PREFIX; "feature_x"; "index.html"]) out.1 = Some (File [x7a])) /\
  (let out := publishCurrentBranch "/home/goose" "/srv" None ".." readme_tree preview_fs in
   ".." <> MAIN_BRANCH /\
   (exists r, out.2 = inr r) /\
   lookup (www ++ ["index.html"]) preview_fs = Some (File [x61]) /\
   lookup (www ++ ["index.html"]) out.1 = Some (File [x64]) /\
   lookup (www ++ [PREVIEW_PREFIX; "feature_x"; "index.html"]) preview_fs = Some (File [x62]) /\
   lookup (www ++ [PREVIEW_PREFIX]) out.1 = None).
Proof.
  split.
  - cbv zeta. split; [eexists; vm_compute; reflexivity|]. split; vm_compute; reflexivity.
  - cbv zeta. split; [discriminate|]. split; [eexists; vm_compute; reflexivity|].
    repeat split; vm_compute; reflexivity.
Qed.

(** Where the two ways out of the preview are closed, the steps after
    [detectBranch] keep to the target below the preview root [R]. Publishing
    [main] from a working tree that has no entry called [.preview] leaves the
    [.preview] tree of the root as it is. Publishing another branch whose
    slug is a proper name (not empty, not [.] and not [..]) targets
    [R/.preview/<slug>] and changes nothing below [R] apart from that
    directory; in particular every other entry of the preview root is as
    before. This holds too when the publish throws on the way. *)
Lemma publish_frame (home : list string) (cwd : string) (PORT : option string)
  (branch : string) (scope : list (string * snode)) (fs : node) :
  Forall proper home ->
  wf_tree (SDir scope) ->
  let homedir := of_segments home in
  let previewRoot := resolvePreviewRoot homedir in
  let R := locate cwd previewRoot in
  let out := publishCurrentBranch homedir cwd PORT branch scope fs in
  (branch = MAIN_BRANCH ->
   lookup_entry PREVIEW_PREFIX scope = None ->
   forall q, lookup (R ++ PREVIEW_PREFIX :: q) out.1 = lookup (R ++ PREVIEW_PREFIX :: q) fs) /\
  (branch <> MAIN_BRANCH ->
   proper (branchSlug branch) ->
   let T := R ++ [PREVIEW_PREFIX; branchSlug branch] in
   locate cwd (resolveTargetDir previewRoot branch) = T /\
   (forall q, apart T (R ++ q) -> lookup (R ++ q) out.1 = lookup (R ++ q) fs) /\
   (forall name rest, name <> PREVIEW_PREFIX ->
      lookup (R ++ name :: rest) out.1 = lookup (R ++ name :: rest) fs)).
Proof.
  intros Hhome Hwf homedir previewRoot R out.
  destruct (preview_root home Hhome) as [Hroot HR].
  assert (HRloc : R = root_segments home).
  { unfold R, previewRoot, homedir. rewrite Hroot. apply locate_of_segments. exact HR. }
  split.
  - intros Hmain.
    assert (Hext : target_ext branch = []).
    { unfold target_ext. destruct (decide (branch = MAIN_BRANCH)); [reflexivity|contradiction]. }
    intros Hnone q. rewrite HRloc.
    apply (keeps_publish (fun q => exists rest, q = root_segments home ++ PREVIEW_PREFIX :: rest)
             home cwd PORT branch scope Hhome).
    + rewrite Hext, app_nil_r. intros q' [rest ->]. apply not_below_longer.
    + rewrite Hext, app_nil_r. intros q' name rest [rest' ->] Heq.
      apply app_inv_head in Heq. injection Heq as <- _.
      destruct (decide (branch = MAIN_BRANCH)); [apply list_elem_of_here|contradiction].
    + rewrite Hext, app_nil_r. apply keeps_copyDir_other; assumption.
    + eauto.
  - intros Hother Hslug T.
    assert (Hext : target_ext branch = [PREVIEW_PREFIX; branchSlug branch]).
    { unfold target_ext. destruct Hslug as (H1 & H2 & H3 & _).
      destruct (decide (branch = MAIN_BRANCH)); [contradiction|]. cbv zeta.
      destruct (decide (branchSlug branch = EmptyString)); [contradiction|].
      destruct (decide (branchSlug branch = ".")); [contradiction|].
      destruct (decide (branchSlug branch = "..")); [contradiction|reflexivity]. }
    destruct (target_dir (root_segments home) branch HR (root_segments_nonempty home))
      as [Htarget HT].
    rewrite Hext in Htarget, HT.
    assert (HTloc : locate cwd (resolveTargetDir previewRoot branch) = T).
    { unfold previewRoot, homedir, T. rewrite Hroot, Htarget, HRloc.
      apply locate_of_segments. exact HT. }
    assert (Hframe : forall q, apart T q -> lookup q out.1 = lookup q fs).
    { intros q Hq. unfold T in Hq. rewrite HRloc in Hq.
      apply (keeps_publish (apart (root_segments home ++ [PREVIEW_PREFIX; branchSlug branch]))
               home cwd PORT branch scope Hhome).
      - rewrite Hext. intros q'. apply apart_not_below.
      - rewrite Hext. intros q' name rest [Hq' _] ->. exfalso. apply Hq'.
        apply prefix_app_r. reflexivity.
      - rewrite Hext. apply keeps_copyDir; assumption.
      - exact Hq. }
    split; [exact HTloc|]. split; [intros q Hq; apply Hframe; exact Hq|].
    intros name rest Hname. apply Hframe. unfold T.
    change (R ++ [PREVIEW_PREFIX; branchSlug branch])
      with (R ++ [PREVIEW_PREFIX] ++ [branchSlug branch]).
    rewrite app_assoc. apply apart_child. apply apart_sibling. congruence.
Qed.

Lemma publish_frame_witness :
  let out := publishCurrentBranch "/home/goose" "/srv" None "feature/x" plain_tree preview_fs in
  Forall proper ["home"; "goose"] /\
  wf_tree (SDir plain_tree) /\
  proper (branchSlug "feature/x") /\
  locate "/srv" (resolveTargetDir (resolvePreviewRoot "/home/goose") "feature/x")
    = www ++ [PREVIEW_PREFIX; "feature_x"] /\
  lookup (www ++ ["index.html"]) out.1 = Some (File [x61]) /\
  lookup (www ++ [PREVIEW_PREFIX; "feature_x"; "index.html"]) out.1 = Some (File [x64]).
Proof.
  assert (Hhome : Forall proper ["home"; "goose"]).
  { repeat constructor; discriminate. }
  assert (Hwf : wf_tree (SDir plain_tree)).
  { repeat (constructor; cbn [fst snd]); discriminate. }
  assert (Hslug : proper (branchSlug "feature/x")).
  { repeat split; discriminate. }
  cbv zeta. split; [exact Hhome|]. split; [exact Hwf|]. split; [exact Hslug|].
  destruct (publish_frame ["home"; "goose"] "/srv" None "feature/x" plain_tree preview_fs
              Hhome Hwf) as [_ H].
  destruct (H ltac:(discriminate) Hslug) as (HT & _ & Htop).
  split; [exact HT|]. split.
  - etrans; [exact (Htop "index.html" [] ltac:(discriminate))|reflexivity].
  - vm_compute. reflexivity.
Defined.

End PublishFacts.

(** ** More on the log buffer *)

Module RingBufferReads.
Import NodeBuffer RingBuffer RingBufferFacts.

Lemma take_min_length {A} (n : nat) (l : list A) : take (Nat.min n (length l)) l = take n l.
Proof.
  destruct (decide (n <= length l)%nat) as [Hle|Hgt].
  - rewrite Nat.min_l by exact Hle. reflexivity.
  - rewrite Nat.min_r by lia. rewrite !take_ge by lia. reflexivity.
Qed.

Lemma read_slice_range (rb : t) (offset max : Z) :
  0 <= offset -> 0 <= max ->
  read_slice rb offset max = take (Z.to_nat max) (drop (Z.to_nat offset) (buffer rb)).
Proof.
  intros Ho Hmax. set (len := blen (buffer rb)).
  assert (Hlen0 : 0 <= len) by (unfold len, blen; lia).
  unfold read_slice. fold len.
  rewrite JobsFacts.subarray_range by (fold len; lia).
  destruct (Z_lt_le_dec offset len) as [Hlt|Hge].
  - rewrite (Z.min_l offset len) by lia.
    rewrite <- (take_min_length (Z.to_nat max)). f_equal.
    rewrite length_drop. unfold len, blen in *. lia.
  - rewrite (Z.min_r offset len) by lia.
    rewrite !drop_ge by (unfold len, blen in *; lia). rewrite !take_nil. reflexivity.
Qed.

(** X1. For an offset and a maximum that are not negative, [read] returns the
    decoding of at most [max] bytes of the buffer from [offset] on; its
    [nextOffset] is where they end and is never past the buffer, [isEnd]
    says that it is the end of the buffer, and an offset at or past the end
    gives no data with [isEnd] set. *)
Theorem read_within_bounds (rb : t) (offset max : Z) :
  0 <= offset -> 0 <= max ->
  let len := blen (buffer rb) in
  let c := read rb offset max in
  let s := take (Z.to_nat max) (drop (Z.to_nat offset) (buffer rb)) in
  data c = Utf8.toString s /\
  nextOffset c = Z.min offset len + blen s /\
  blen s <= max /\
  nextOffset c <= len /\
  (isEnd c = true <-> nextOffset c = len) /\
  (len <= offset -> data c = [] /\ nextOffset c = len /\ isEnd c = true).
Proof.
  intros Ho Hmax len c s.
  assert (Hlen0 : 0 <= len) by (unfold len, blen; lia).
  assert (Hslice : read_slice rb offset max = s) by (apply read_slice_range; assumption).
  assert (Hs : blen s = Z.min max (len - Z.min offset len)).
  { unfold s, blen. rewrite length_take, length_drop. unfold len, blen. lia. }
  assert (Hnext : nextOffset c = Z.min (Z.min offset len + max) len) by reflexivity.
  split; [unfold c, read; cbn [data]; rewrite Hslice; reflexivity|].
  split; [lia|]. split; [lia|]. split; [lia|]. split.
  - unfold c, read. cbn [isEnd nextOffset]. fold len. rewrite Z.leb_le. lia.
  - intros Hge. assert (Hnil : s = []).
    { unfold s. rewrite drop_ge by (unfold len, blen in *; lia). apply take_nil. }
    split; [unfold c, read; cbn [data]; rewrite Hslice, Hnil; reflexivity|].
    split; [lia|]. unfold c, read. cbn [isEnd]. fold len. apply Z.leb_le. lia.
Qed.

Lemma read_within_bounds_witness :
  0 <= 3 /\ 0 <= 4 /\
  data (read (mk 10 [x68; x65; x6c; x6c; x6f]) 3 4) = [x6c; x6f] /\
  nextOffset (read (mk 10 [x68; x65; x6c; x6c; x6f]) 3 4) = 5.
Proof.
  split; [lia|]. split; [lia|].
  destruct (read_within_bounds (mk 10 [x68; x65; x6c; x6c; x6f]) 3 4) as (Hd & Hn & _);
    [lia|lia|].
  split; [exact Hd|exact Hn].
Defined.

(** X3. Offsets count from the start of what the buffer still holds. After
    chunks were appended to a buffer of capacity [C], reading at [offset]
    gives the bytes of the whole stream from [offset] plus the number of
    bytes that were dropped. *)
Theorem read_after_appends (C : Z) (chunks : list Buffer) (offset max : Z) :
  0 <= C -> 0 <= offset -> 0 <= max ->
  let rb := append_all (makeRingBuffer C) chunks in
  let stream := concat chunks in
  let dropped := (length stream - Z.to_nat C)%nat in
  data (read rb offset max)
  = Utf8.toString (take (Z.to_nat max) (drop (dropped + Z.to_nat offset) stream)).
Proof.
  intros HC Ho Hmax rb stream dropped.
  unfold read. cbn [data]. rewrite (read_slice_range rb offset max Ho Hmax).
  unfold rb. rewrite append_all_lastn; cbn [makeRingBuffer maxBytes buffer].
  - unfold lastn. rewrite drop_drop. reflexivity.
  - exact HC.
  - unfold blen. cbn. lia.
Qed.

Lemma read_after_appends_witness :
  0 <= 3 /\ 0 <= 0 /\ 0 <= 2 /\
  data (read (append_all (makeRingBuffer 3) [[x61; x62]; [x63; x64; x65]]) 0 2) = [x63; x64].
Proof.
  split; [lia|]. split; [lia|]. split; [lia|].
  apply (read_after_appends 3 [[x61; x62]; [x63; x64; x65]] 0 2); lia.
Defined.

End RingBufferReads.

(** ** More on the job registry *)

Module JobRuns.
Import NodeBuffer Jobs JobStreams Samples Scenarios JobsFacts.

(** One event leaves every job object in the heap, changed in one of the
    ways of [job_change]. *)
Lemma apply_event_job (ev : Event) (reg : Registry) (r : nat) (job : Job) :
  heap reg !! r = Some job ->
  exists job', heap (apply_event ev reg) !! r = Some job' /\ job_change r ev job job'.
Proof.
  intros Hj.
  destruct ev as [a w|jobId signal now platform|r0 code now|r0 which d|r0 msg]; cbn [apply_event].
  - destruct (startJob_cases a w reg) as [[e ->]|(_ & _ & ->)]; cbn [fst heap].
    + exists job. split; [exact Hj|constructor].
    + exists job. split; [|constructor]. rewrite lookup_app_l; [exact Hj|].
      eapply lookup_lt_Some; eauto.
  - unfold stopJob. destruct (jobs reg !! jobId) as [r0|];
      [|exists job; split; [exact Hj|constructor]].
    destruct (heap reg !! r0) as [job0|] eqn:Hj0;
      [|exists job; split; [exact Hj|constructor]].
    destruct (decide (status job0 <> running)) as [Hn|Hrun];
      [exists job; split; [exact Hj|constructor]|].
    destruct (process_kill _ _ _); cbn [fst heap];
      [|exists job; split; [exact Hj|constructor]].
    destruct (decide (r0 = r)) as [->|Hne].
    + rewrite Hj in Hj0. injection Hj0 as <-.
      exists (cancel_job now job). split.
      * apply list_lookup_insert_eq. eapply lookup_lt_Some; eauto.
      * eapply change_cancel; [reflexivity|].
        destruct (decide (status job = running)); [assumption|contradiction].
    + exists job. split; [|constructor]. rewrite list_lookup_insert_ne by exact Hne. exact Hj.
  - unfold on_exit. destruct (heap reg !! r0) as [job0|] eqn:Hj0;
      [|exists job; split; [exact Hj|constructor]].
    cbn [heap]. destruct (decide (r0 = r)) as [->|Hne].
    + rewrite Hj in Hj0. injection Hj0 as <-. exists (exit_job code now job). split.
      * apply list_lookup_insert_eq. eapply lookup_lt_Some; eauto.
      * apply change_exit. reflexivity.
    + exists job. split; [|constructor]. rewrite list_lookup_insert_ne by exact Hne. exact Hj.
  - unfold on_data. destruct (heap reg !! r0) as [job0|] eqn:Hj0;
      [|exists job; split; [exact Hj|constructor]].
    cbn [heap]. destruct (decide (r0 = r)) as [->|Hne].
    + rewrite Hj in Hj0. injection Hj0 as <-. exists (log_job which d job). split.
      * rewrite list_lookup_insert_eq by (eapply lookup_lt_Some; eauto).
        destruct which; reflexivity.
      * apply change_data. reflexivity.
    + exists job. split; [|constructor]. rewrite list_lookup_insert_ne by exact Hne. exact Hj.
  - unfold on_error, on_data. destruct (heap reg !! r0) as [job0|] eqn:Hj0;
      [|exists job; split; [exact Hj|constructor]].
    cbn [heap]. destruct (decide (r0 = r)) as [->|Hne].
    + rewrite Hj in Hj0. injection Hj0 as <-.
      exists (log_job Stderr (spawn_error_chunk msg) job). split.
      * rewrite list_lookup_insert_eq by (eapply lookup_lt_Some; eauto). reflexivity.
      * apply change_error. reflexivity.
    + exists job. split; [|constructor]. rewrite list_lookup_insert_ne by exact Hne. exact Hj.
Qed.

Lemma run_cons (ev : Event) (evs : list Event) (reg reg' : Registry) :
  run (ev :: evs) reg = Some reg' ->
  enabled ev reg = true /\ run evs (apply_event ev reg) = Some reg'.
Proof. cbn [run]. destruct (enabled ev reg); [auto|discriminate]. Qed.

Lemma reachable_run (evs : list Event) (reg reg' : Registry) :
  reachable reg -> run evs reg = Some reg' -> reachable reg'.
Proof.
  revert reg. induction evs as [|ev evs IH]; intros reg Hreach Hrun.
  - cbn in Hrun. injection Hrun as <-. exact Hreach.
  - apply run_cons in Hrun as [Hen Hrun]. apply (IH _ (reachable_step _ _ Hreach Hen) Hrun).
Qed.

(** *** Jobs stay, and stay the same jobs *)

Lemma job_change_identity (r : nat) (ev : Event) (job job' : Job) :
  job_change r ev job job' -> same_identity job job'.
Proof.
  intros [| | |which d _|]; unfold same_identity; try destruct which; cbn; repeat split.
Qed.

Lemma same_identity_trans (j1 j2 j3 : Job) :
  same_identity j1 j2 -> same_identity j2 j3 -> same_identity j1 j3.
Proof.
  unfold same_identity. intros (?&?&?&?&?&?&?) (?&?&?&?&?&?&?). repeat split; congruence.
Qed.

Lemma run_identity (evs : list Event) (reg reg' : Registry) (r : nat) (job : Job) :
  heap reg !! r = Some job ->
  run evs reg = Some reg' ->
  exists job', heap reg' !! r = Some job' /\ same_identity job job'.
Proof.
  revert reg job. induction evs as [|ev evs IH]; intros reg job Hj Hrun.
  - cbn in Hrun. injection Hrun as <-. exists job. split; [exact Hj|]. repeat split.
  - apply run_cons in Hrun as [_ Hrun].
    destruct (apply_event_job ev reg r job Hj) as (job1 & Hj1 & Hc).
    destruct (IH _ job1 Hj1 Hrun) as (job' & Hj' & Hid).
    exists job'. split; [exact Hj'|].
    eapply same_identity_trans; [apply (job_change_identity _ _ _ _ Hc)|exact Hid].
Qed.

Lemma apply_event_jobs_kept (ev : Event) (reg : Registry) (jobId : string) :
  is_Some (jobs reg !! jobId) -> is_Some (jobs (apply_event ev reg) !! jobId).
Proof.
  intros Hin.
  destruct ev as [a w|jobId0 signal now platform|r0 code now|r0 which d|r0 msg]; cbn [apply_event].
  - destruct (startJob_cases a w reg) as [[e ->]|(_ & _ & ->)]; cbn [fst jobs]; [exact Hin|].
    destruct (decide (w_newId w = jobId)) as [->|Hne].
    + rewrite lookup_insert_eq. eauto.
    + rewrite lookup_insert_ne by exact Hne. exact Hin.
  - unfold stopJob. destruct (jobs reg !! jobId0); [|exact Hin].
    destruct (heap reg !! n); [|exact Hin].
    destruct (decide _); [exact Hin|]. destruct (process_kill _ _ _); exact Hin.
  - unfold on_exit. destruct (heap reg !! r0); exact Hin.
  - unfold on_data. destruct (heap reg !! r0); exact Hin.
  - unfold on_error, on_data. destruct (heap reg !! r0); exact Hin.
Qed.

(** X7. Jobs are never removed and never become other jobs: along any run,
    an id that is registered stays registered, and a job object keeps its
    id, pid, command, arguments, working directory and start time. *)
Theorem jobs_stay_registered (evs : list Event) (reg reg' : Registry) :
  run evs reg = Some reg' ->
  (forall jobId, is_Some (jobs reg !! jobId) -> is_Some (jobs reg' !! jobId)) /\
  (forall r job, heap reg !! r = Some job ->
     exists job', heap reg' !! r = Some job' /\ same_identity job job').
Proof.
  intros Hrun. split.
  - revert reg Hrun. induction evs as [|ev evs IH]; intros reg Hrun jobId Hin.
    + cbn in Hrun. injection Hrun as <-. exact Hin.
    + apply run_cons in Hrun as [_ Hrun]. apply (IH _ Hrun). apply apply_event_jobs_kept. exact Hin.
  - intros r job Hj. apply (run_identity evs reg reg' r job Hj Hrun).
Qed.

Lemma jobs_stay_registered_witness :
  exists reg' job',
    run [EvStop idA "SIGTERM" "2025-01-01T00:00:01.000Z" Delivered;
         EvExit 0 None "2025-01-01T00:00:03.000Z"] one_running = Some reg' /\
    is_Some (jobs reg' !! idA) /\
    heap reg' !! 0%nat = Some job' /\ id job' = idA.
Proof.
  eexists. 
  pose proof (jobs_stay_registered
    [EvStop idA "SIGTERM" "2025-01-01T00:00:01.000Z" Delivered;
     EvExit 0 None "2025-01-01T00:00:03.000Z"] one_running _ eq_refl) as [Hreg Hheap].
  destruct (Hheap 0%nat _ eq_refl) as (job' & Hj' & Hid & _).
  exists job'. split; [reflexivity|]. split; [apply Hreg; vm_compute; eauto|].
  split; [exact Hj'|exact Hid].
Defined.

(** *** The log of a job *)

Lemma stream_of_log_job (which which' : Stream) (d : Buffer) (job : Job) :
  stream_of (log_job which' d job) which
  = if decide (which' = which) then RingBuffer.append (stream_of job which) d
    else stream_of job which.
Proof. destruct which, which'; reflexivity. Qed.

Lemma append_nil (rb : RingBuffer.t) : RingBuffer.append rb [] = rb.
Proof. reflexivity. Qed.

(** One event appends to a buffer what [delivered] says, and nothing else. *)
Lemma apply_event_stream (ev : Event) (reg : Registry) (r : nat) (job : Job) (which : Stream) :
  heap reg !! r = Some job ->
  exists job',
    heap (apply_event ev reg) !! r = Some job' /\
    stream_of job' which = RingBuffer.append (stream_of job which) (delivered r which [ev]).
Proof.
  intros Hj.
  destruct ev as [a w|jobId signal now platform|r0 code now|r0 which' d|r0 msg];
    cbn [apply_event delivered]; rewrite ?app_nil_r.
  - destruct (startJob_cases a w reg) as [[e ->]|(_ & _ & ->)]; cbn [fst heap].
    + exists job. split; [exact Hj|reflexivity].
    + exists job. split; [|reflexivity]. rewrite lookup_app_l; [exact Hj|].
      eapply lookup_lt_Some; eauto.
  - unfold stopJob. destruct (jobs reg !! jobId) as [r0|];
      [|exists job; split; [exact Hj|reflexivity]].
    destruct (heap reg !! r0) as [job0|] eqn:Hj0;
      [|exists job; split; [exact Hj|reflexivity]].
    destruct (decide (status job0 <> running)) as [Hn|Hrun];
      [exists job; split; [exact Hj|reflexivity]|].
    destruct (process_kill _ _ _); cbn [fst heap];
      [|exists job; split; [exact Hj|reflexivity]].
    destruct (decide (r0 = r)) as [->|Hne].
    + rewrite Hj in Hj0. injection Hj0 as <-. eexists. split.
      * apply list_lookup_insert_eq. eapply lookup_lt_Some; eauto.
      * destruct which; reflexivity.
    + exists job. split; [|reflexivity]. rewrite list_lookup_insert_ne by exact Hne. exact Hj.
  - unfold on_exit. destruct (heap reg !! r0) as [job0|] eqn:Hj0;
      [|exists job; split; [exact Hj|reflexivity]].
    cbn [heap]. destruct (decide (r0 = r)) as [->|Hne].
    + rewrite Hj in Hj0. injection Hj0 as <-. eexists. split.
      * apply list_lookup_insert_eq. eapply lookup_lt_Some; eauto.
      * destruct which; reflexivity.
    + exists job. split; [|reflexivity]. rewrite list_lookup_insert_ne by exact Hne. exact Hj.
  - unfold on_data. destruct (heap reg !! r0) as [job0|] eqn:Hj0.
    + cbn [heap]. destruct (decide (r0 = r)) as [->|Hne].
      * rewrite Hj in Hj0. injection Hj0 as <-. eexists. split.
        { apply list_lookup_insert_eq. eapply lookup_lt_Some; eauto. }
        destruct which, which'; cbn [stream_of stdout stderr];
          repeat match goal with |- context [decide ?P] => destruct (decide P) as [[? ?]|?] end;
          try discriminate; try reflexivity; exfalso; auto.
      * exists job. split; [rewrite list_lookup_insert_ne by exact Hne; exact Hj|].
        destruct (decide (r0 = r /\ which' = which)) as [[? _]|_]; [contradiction|reflexivity].
    + exists job. split; [exact Hj|].
      destruct (decide (r0 = r /\ which' = which)) as [[-> _]|_]; [congruence|reflexivity].
  - unfold on_error, on_data. destruct (heap reg !! r0) as [job0|] eqn:Hj0.
    + cbn [heap]. destruct (decide (r0 = r)) as [->|Hne].
      * rewrite Hj in Hj0. injection Hj0 as <-. eexists. split.
        { apply list_lookup_insert_eq. eapply lookup_lt_Some; eauto. }
        destruct which; cbn [stream_of stdout stderr];
          repeat match goal with |- context [decide ?P] => destruct (decide P) as [[? ?]|?] end;
          try discriminate; try reflexivity; exfalso; auto.
      * exists job. split; [rewrite list_lookup_insert_ne by exact Hne; exact Hj|].
        destruct (decide (r0 = r /\ which = Stderr)) as [[? _]|_]; [contradiction|reflexivity].
    + exists job. split; [exact Hj|].
      destruct (decide (r0 = r /\ which = Stderr)) as [[-> _]|_]; [congruence|reflexivity].
Qed.

Lemma delivered_cons (r : nat) (which : Stream) (ev : Event) (evs : list Event) :
  delivered r which (ev :: evs) = delivered r which [ev] ++ delivered r which evs.
Proof.
  destruct ev; cbn [delivered]; rewrite ?app_nil_r; reflexivity.
Qed.

(** Over a run, a buffer holds the last bytes of what it held and what was
    delivered to it. *)
Lemma run_stream (evs : list Event) (reg reg' : Registry) (r : nat) (job : Job)
  (which : Stream) :
  heap reg !! r = Some job ->
  0 <= RingBuffer.maxBytes (stream_of job which) ->
  blen (RingBuffer.buffer (stream_of job which)) <= RingBuffer.maxBytes (stream_of job which) ->
  run evs reg = Some reg' ->
  exists job',
    heap reg' !! r = Some job' /\
    RingBuffer.maxBytes (stream_of job' which) = RingBuffer.maxBytes (stream_of job which) /\
    RingBuffer.buffer (stream_of job' which)
    = lastn (Z.to_nat (RingBuffer.maxBytes (stream_of job which)))
        (RingBuffer.buffer (stream_of job which) ++ delivered r which evs).
Proof.
  revert reg job. induction evs as [|ev evs IH]; intros reg job Hj HC Hinv Hrun.
  - cbn in Hrun. injection Hrun as <-. exists job. split; [exact Hj|]. split; [reflexivity|].
    cbn [delivered]. rewrite app_nil_r, RingBufferFacts.lastn_all; [reflexivity|].
    unfold blen in Hinv. lia.
  - apply run_cons in Hrun as [_ Hrun].
    destruct (apply_event_stream ev reg r job which Hj) as (job1 & Hj1 & Hs1).
    destruct (RingBufferFacts.append_lastn (stream_of job which) (delivered r which [ev]) HC Hinv)
      as [Hm Hb].
    rewrite <- Hs1 in Hm, Hb.
    destruct (IH _ job1 Hj1) as (job' & Hj' & Hm' & Hb'); [lia| |exact Hrun|].
    { rewrite Hm, Hb. unfold blen. rewrite RingBufferFacts.lastn_length. lia. }
    exists job'. split; [exact Hj'|]. split; [congruence|].
    rewrite Hb', Hm, Hb, RingBufferFacts.lastn_app, <- app_assoc, <- delivered_cons. reflexivity.
Qed.

(** X4. Whatever happens in the registry after a job was started with a
    capacity that is not negative, each of its two log buffers holds the last
    [logMaxBytes] bytes of what its own child wrote to that stream, in the
    order of arrival; output of other jobs never gets into it. *)
Theorem job_log_keeps_own_output (a : StartArgs) (w : StartWorld) (reg reg' : Registry)
  (started : Started) (evs : list Event) (which : Stream) :
  (startJob a w reg).2 = inr started ->
  0 <= a_logMaxBytes a ->
  run evs (startJob a w reg).1 = Some reg' ->
  exists job',
    heap reg' !! length (heap reg) = Some job' /\
    id job' = w_newId w /\
    RingBuffer.buffer (stream_of job' which)
    = lastn (Z.to_nat (a_logMaxBytes a)) (delivered (length (heap reg)) which evs).
Proof.
  intros Hok HC Hrun. apply startJob_accepted in Hok as (_ & _ & Hst). rewrite Hst in Hrun.
  set (job := mkJob (w_newId w) (w_pid w) running (a_command a) (a_args a) (a_cwd a) (w_now w)
                    None None (RingBuffer.makeRingBuffer (a_logMaxBytes a))
                    (RingBuffer.makeRingBuffer (a_logMaxBytes a)) (mkChild (w_pid w) false)) in *.
  assert (Hj : heap (mkRegistry (heap reg ++ [job]) (<[w_newId w := length (heap reg)]> (jobs reg))
                                (Some (w_newId w))) !! length (heap reg) = Some job).
  { cbn [heap]. rewrite lookup_app_r by lia. rewrite Nat.sub_diag. reflexivity. }
  assert (Hcap : RingBuffer.maxBytes (stream_of job which) = a_logMaxBytes a)
    by (destruct which; reflexivity).
  assert (Hbuf : RingBuffer.buffer (stream_of job which) = []) by (destruct which; reflexivity).
  destruct (run_stream evs _ reg' _ job which Hj) as (job' & Hj' & _ & Hb); [lia| |exact Hrun|].
  { rewrite Hbuf, Hcap. unfold blen. cbn. lia. }
  exists job'. split; [exact Hj'|]. split.
  - destruct (run_identity evs _ reg' _ job Hj Hrun) as (job2 & Hj2 & Hid & _).
    rewrite Hj' in Hj2. injection Hj2 as <-. exact Hid.
  - rewrite Hb, Hcap, Hbuf. reflexivity.
Qed.

Lemma job_log_keeps_own_output_witness :
  exists reg' job',
    run [EvData 0 Stdout [x68; x69]; EvError 0 "boom"; EvData 0 Stdout [x21]]
        (startJob run_hello (mkStartWorld idA "2025-01-01T00:00:00.000Z" (Some 101) None) initial).1
      = Some reg' /\
    heap reg' !! 0%nat = Some job' /\
    RingBuffer.buffer (stdout job') = [x68; x69; x21].
Proof.
  eexists.
  destruct (job_log_keeps_own_output run_hello
              (mkStartWorld idA "2025-01-01T00:00:00.000Z" (Some 101) None) initial _
              (mkStarted idA (Some 101) "2025-01-01T00:00:00.000Z")
              [EvData 0 Stdout [x68; x69]; EvError 0 "boom"; EvData 0 Stdout [x21]] Stdout
              eq_refl ltac:(cbn; lia) eq_refl) as (job' & Hj' & _ & Hb).
  exists job'. split; [reflexivity|]. split; [exact Hj'|exact Hb].
Defined.

(** *** The slot *)

Lemma is_newId_nonempty (s : string) : is_newId s = true -> truthy (Some s) = true.
Proof. destruct s; [discriminate|reflexivity]. Qed.

Lemma reachable_slot_is_newId (reg : Registry) :
  reachable reg -> forall jobId, runningJobId reg = Some jobId -> is_newId jobId = true.
Proof.
  intros Hreach. induction Hreach as [|ev reg _ IH Hen] using reachable_ind; intros jobId Hslot.
  - discriminate.
  - destruct ev as [a w|jobId0 signal now platform|r0 code now|r0 which d|r0 msg];
      cbn [apply_event enabled] in *.
    + destruct (startJob_cases a w reg) as [[e Hst]|(_ & _ & Hst)]; rewrite Hst in Hslot;
        cbn [fst runningJobId] in Hslot.
      * auto.
      * injection Hslot as <-. exact Hen.
    + unfold stopJob in Hslot. destruct (jobs reg !! jobId0); [|cbn in Hslot; auto].
      destruct (heap reg !! n); [|cbn in Hslot; auto].
      destruct (decide _); [cbn in Hslot; auto|].
      destruct (process_kill _ _ _); cbn [fst runningJobId] in Hslot; [discriminate|auto].
    + unfold on_exit in Hslot. destruct (heap reg !! r0); cbn [runningJobId] in Hslot;
        [discriminate|auto].
    + unfold on_data in Hslot. destruct (heap reg !! r0); cbn [runningJobId] in Hslot; auto.
    + unfold on_error, on_data in Hslot. destruct (heap reg !! r0); cbn [runningJobId] in Hslot; auto.
Qed.

(** X5. In every state that a run can reach, a slot that is set names a
    registered job that is ['running'], and as long as it is set every
    [startJob] throws [BUSY] and changes nothing. *)
Theorem slot_set_means_busy (reg : Registry) (jobId : string) :
  reachable reg ->
  runningJobId reg = Some jobId ->
  (exists job, getJob reg jobId = Some job /\ status job = running) /\
  forall a w, exists msg, startJob a w reg = (reg, inl (BUSY msg)).
Proof.
  intros Hreach Hslot. split; [apply (reachable_slot_running reg Hreach jobId Hslot)|].
  intros a w. apply startJob_busy. rewrite Hslot. apply is_newId_nonempty.
  apply (reachable_slot_is_newId reg Hreach jobId Hslot).
Qed.

Lemma slot_set_means_busy_witness :
  exists msg,
    startJob run_hello (mkStartWorld idB "2025-01-01T00:00:02.000Z" (Some 102) None) one_running
    = (one_running, inl (BUSY msg)).
Proof.
  destruct (slot_set_means_busy one_running idA one_running_reachable eq_refl) as [_ H].
  apply H.
Defined.

(** *** Finished jobs *)

(** X6. A job that is ['completed'] or ['failed'] keeps its status, exit
    code and finish time through everything that happens later; output that
    arrives after the exit is still appended to its logs. *)
Theorem finished_job_is_frozen (evs : list Event) (reg reg' : Registry) (r : nat) (job : Job) :
  reachable reg ->
  heap reg !! r = Some job ->
  status job = completed \/ status job = failed ->
  run evs reg = Some reg' ->
  exists job',
    heap reg' !! r = Some job' /\
    status job' = status job /\ exitCode job' = exitCode job /\
    finishedAt job' = finishedAt job /\
    forall which,
      RingBuffer.maxBytes (stream_of job which) >= 0 ->
      blen (RingBuffer.buffer (stream_of job which)) <= RingBuffer.maxBytes (stream_of job which) ->
      RingBuffer.buffer (stream_of job' which)
      = lastn (Z.to_nat (RingBuffer.maxBytes (stream_of job which)))
          (RingBuffer.buffer (stream_of job which) ++ delivered r which evs).
Proof.
  intros Hreach Hj Hfin Hrun.
  assert (Hfields : exists job', heap reg' !! r = Some job' /\ status job' = status job /\
                      exitCode job' = exitCode job /\ finishedAt job' = finishedAt job).
  { clear - Hreach Hj Hfin Hrun. revert reg job Hreach Hj Hfin Hrun.
    induction evs as [|ev evs IH]; intros reg job Hreach Hj Hfin Hrun.
    - cbn in Hrun. injection Hrun as <-. exists job. auto.
    - apply run_cons in Hrun as [Hen Hrun].
      destruct (apply_event_job ev reg r job Hj) as (job1 & Hj1 & Hc).
      assert (H1 : status job1 = status job /\ exitCode job1 = exitCode job /\
                   finishedAt job1 = finishedAt job).
      { destruct Hc as [|jobId signal now platform _ Hs|code now ->|which d _|msg _].
        - auto.
        - destruct Hfin; congruence.
        - exfalso. cbn in Hen. rewrite Hj in Hen.
          destruct (reachable_jobs_wf reg Hreach r job Hj) as [_ Hx].
          rewrite (Hx Hfin) in Hen. discriminate.
        - destruct which; auto.
        - auto. }
      destruct H1 as (Hs1 & He1 & Hf1).
      destruct (IH _ job1 (reachable_step _ _ Hreach Hen) Hj1) as (job' & Hj' & Hs & He & Hf);
        [rewrite Hs1; exact Hfin|exact Hrun|].
      exists job'. split; [exact Hj'|]. repeat split; congruence. }
  destruct Hfields as (job' & Hj' & Hs & He & Hf).
  exists job'. split; [exact Hj'|]. split; [exact Hs|]. split; [exact He|]. split; [exact Hf|].
  intros which HC Hinv.
  destruct (run_stream evs reg reg' r job which Hj) as (job2 & Hj2 & _ & Hb);
    [lia|exact Hinv|exact Hrun|].
  rewrite Hj' in Hj2. injection Hj2 as <-. exact Hb.
Qed.

Lemma exited_ok_reachable : reachable exited_ok.
Proof.
  exists [EvStart run_hello (mkStartWorld idA "2025-01-01T00:00:00.000Z" (Some 101) None);
          EvExit 0 (Some 0) "2025-01-01T00:00:09.000Z"].
  reflexivity.
Qed.

Lemma finished_job_is_frozen_witness :
  exists reg' job',
    run [EvStop idA "SIGTERM" "2025-01-01T00:00:10.000Z" Delivered; EvData 0 Stdout [x21]]
        exited_ok = Some reg' /\
    heap reg' !! 0%nat = Some job' /\
    status job' = completed /\ exitCode job' = Some 0 /\
    RingBuffer.buffer (stdout job') = [x21].
Proof.
  eexists.
  destruct (finished_job_is_frozen
              [EvStop idA "SIGTERM" "2025-01-01T00:00:10.000Z" Delivered; EvData 0 Stdout [x21]]
              exited_ok _ 0 _ exited_ok_reachable eq_refl (or_introl eq_refl) eq_refl)
    as (job' & Hj' & Hs & He & _ & Hlog).
  exists job'. split; [reflexivity|]. split; [exact Hj'|]. split; [exact Hs|]. split; [exact He|].
  apply (Hlog Stdout); cbn; unfold blen; cbn; lia.
Defined.

(** *** Starting and stopping *)




(** X9. A running job whose child has no pid (the binary could not be
    started) cannot be stopped: whatever the signal, [stopJob] answers
    [kill_failed] and changes nothing, so the job stays ['running']. *)
Theorem stopJob_without_pid (reg : Registry) (jobId signal now : string)
  (platform : KillOutcome) (job : Job) :
  getJob reg jobId = Some job ->
  status job = running ->
  child_pid (child job) = None ->
  exists e, stopJob jobId signal now platform reg = (reg, StopFailed "kill_failed" (Some e)).
Proof.
  intros Hjob Hs Hpid. unfold stopJob.
  destruct (getJob_Some _ _ _ Hjob) as (r & -> & ->).
  destruct (decide (status job <> running)) as [Hn|_]; [contradiction|].
  rewrite Hpid. cbn [process_kill]. eauto.
Qed.

Lemma stopJob_without_pid_witness :
  exists e,
    stopJob idA "SIGINT" "2025-01-01T00:00:05.000Z" Delivered no_pid_running
    = (no_pid_running, StopFailed "kill_failed" (Some e)).
Proof.
  apply (stopJob_without_pid no_pid_running idA "SIGINT" "2025-01-01T00:00:05.000Z" Delivered
           _ eq_refl eq_refl eq_refl).
Defined.

(** *** Polling *)

(** X2. With a [maxBytes] that is zero or negative, polling [streamLogs]
    from offset 0 never reaches the end of a buffer that is not empty: no
    call returns [isEnd = true], however many calls are made. *)
Theorem poll_needs_positive_max (reg : Registry) (jobId : string) (which : Stream)
  (job : Job) (max : Z) :
  getJob reg jobId = Some job ->
  RingBuffer.buffer (stream_of job which) <> [] ->
  max <= 0 ->
  forall fuel, pollLogs fuel reg jobId which 0 max = None.
Proof.
  intros Hjob Hne Hmax fuel.
  assert (Hlen : 0 < blen (RingBuffer.buffer (stream_of job which))).
  { unfold blen. destruct (RingBuffer.buffer (stream_of job which)); [contradiction|cbn; lia]. }
  assert (H : forall o, o <= 0 -> pollLogs fuel reg jobId which o max = None); [|apply H; lia].
  induction fuel as [|fuel IH]; intros o Ho; [reflexivity|].
  cbn [pollLogs]. unfold streamLogs. rewrite Hjob. fold (stream_of job which).
  unfold RingBuffer.read. cbn [RingBuffer.isEnd RingBuffer.nextOffset].
  rewrite (Z.min_l o) by lia. rewrite (Z.min_l (o + max)) by lia.
  destruct (blen (RingBuffer.buffer (stream_of job which)) <=? o + max) eqn:Hend; [lia|].
  rewrite IH by lia. reflexivity.
Qed.

Lemma poll_needs_positive_max_witness :
  exists reg,
    run hello_run initial = Some reg /\
    pollLogs 1000 reg idA Stdout 0 0 = None.
Proof.
  eexists. split; [reflexivity|].
  eapply (poll_needs_positive_max _ idA Stdout _ 0); [reflexivity|discriminate|lia].
Defined.

End JobRuns.

(** ** More on the argument sanitizer, and the tools that use it *)

Module ServerFacts.
Import Sanitizer Jobs Server Samples Scenarios SanitizerFacts.

Lemma strings_of_str (a : string) (args : list jsval) :
  strings_of (VStr a :: args) = a :: strings_of args.
Proof. reflexivity. Qed.

Lemma strings_of_other (args : list jsval) : strings_of (VOther :: args) = strings_of args.
Proof. reflexivity. Qed.

Lemma strings_of_fmap (toks : list string) : strings_of (VStr <$> toks) = toks.
Proof.
  induction toks as [|a toks IH]; [reflexivity|].
  rewrite fmap_cons, strings_of_str, IH. reflexivity.
Qed.

Section Loop.

Variables allowed disallowed : gset string.

Local Abbreviation verdict := (Sanitizer.verdict allowed disallowed).
Local Abbreviation loop := (sanitize_loop allowed disallowed).

(** Values that are not strings do not matter. *)
Lemma loop_strings (args : list jsval) (out : list string) :
  loop args out = loop (VStr <$> strings_of args) out.
Proof.
  revert out. induction args as [|[a|] args IH]; intros out.
  - reflexivity.
  - rewrite strings_of_str, fmap_cons, !loop_cons_str.
    destruct (verdict a); [reflexivity|apply IH].
  - rewrite strings_of_other. cbn [sanitize_loop]. apply IH.
Qed.

Lemma loop_result (toks : list string) (out0 : list string) :
  match loop (VStr <$> toks) out0 with
  | inr out => out = out0 ++ toks /\ Forall (fun a => verdict a = None) toks
  | inl e =>
    exists pre a post, toks = pre ++ a :: post /\
      Forall (fun a => verdict a = None) pre /\ verdict a = Some e
  end.
Proof.
  revert out0. induction toks as [|a toks IH]; intros out0.
  - cbn. rewrite app_nil_r. split; [reflexivity|constructor].
  - rewrite fmap_cons, loop_cons_str. destruct (verdict a) as [e|] eqn:Hv.
    + exists [], a, toks. split; [reflexivity|]. split; [constructor|exact Hv].
    + specialize (IH (out0 ++ [a])).
      destruct (loop (VStr <$> toks) (out0 ++ [a])) as [e|out].
      * destruct IH as (pre & b & post & -> & Hpre & Hb).
        exists (a :: pre), b, post. split; [reflexivity|]. split; [|exact Hb].
        constructor; assumption.
      * destruct IH as [-> HF]. split; [rewrite <- app_assoc; reflexivity|].
        constructor; assumption.
Qed.

Lemma loop_first_offender (pre : list string) (a : string) (post : list string)
  (e : SanitizeError) (out0 : list string) :
  Forall (fun a => verdict a = None) pre -> verdict a = Some e ->
  loop (VStr <$> (pre ++ a :: post)) out0 = inl e.
Proof.
  intros Hpre Ha. rewrite fmap_app, fmap_cons.
  rewrite (loop_app _ _ _ _ _ _ (loop_passes _ _ pre out0 Hpre)).
  rewrite loop_cons_str, Ha. reflexivity.
Qed.

End Loop.

Lemma verdict_None (a : string) :
  verdict ALLOWED_FLAGS DISALLOWED_FLAGS a = None <-> acceptable a.
Proof.
  unfold verdict, acceptable. destruct (unsafe a) eqn:Hu.
  - apply unsafe_iff in Hu. split; [discriminate|tauto].
  - apply safe_iff in Hu.
    destruct (bool_decide (a ∈ DISALLOWED_FLAGS)) eqn:Hdis.
    + apply bool_decide_eq_true_1 in Hdis.
      destruct (disallowed_not_allowed a Hdis) as (_ & Hd & Hna).
      rewrite Hd, Hna. cbn. split; [discriminate|].
      intros [_ H]. specialize (H eq_refl).
      apply bool_decide_eq_false_1 in Hna. contradiction.
    + destruct (startsWith_dash a); cbn [andb].
      * destruct (bool_decide (a ∈ ALLOWED_FLAGS)) eqn:Hal; cbn [negb].
        -- apply bool_decide_eq_true_1 in Hal. tauto.
        -- apply bool_decide_eq_false_1 in Hal. split; [discriminate|].
           intros [_ H]. specialize (H eq_refl). contradiction.
      * split; [|reflexivity]. intros _. split; [exact Hu|discriminate].
Qed.

Lemma verdict_Some (a : string) (e : SanitizeError) :
  verdict ALLOWED_FLAGS DISALLOWED_FLAGS a = Some e <->
  (contains_metachar a /\ e = UnsafeToken a) \/
  (~ contains_metachar a /\ startsWith_dash a = true /\ (a ∉ ALLOWED_FLAGS) /\
   e = FlagNotAllowed a).
Proof.
  unfold verdict. destruct (unsafe a) eqn:Hu.
  - apply unsafe_iff in Hu. split.
    + intros [= <-]. left. auto.
    + intros [[_ ->]|[H _]]; [reflexivity|contradiction].
  - apply safe_iff in Hu.
    destruct (startsWith_dash a) eqn:Hd; cbn [andb].
    + destruct (bool_decide (a ∈ ALLOWED_FLAGS)) eqn:Hal; cbn [negb].
      * apply bool_decide_eq_true_1 in Hal.
        destruct (bool_decide (a ∈ DISALLOWED_FLAGS)) eqn:Hdis.
        { apply bool_decide_eq_true_1 in Hdis.
          destruct (disallowed_not_allowed a Hdis) as (_ & _ & Hna).
          apply bool_decide_eq_false_1 in Hna. contradiction. }
        split; [discriminate|]. intros [[H _]|(_ & _ & H & _)]; contradiction.
      * apply bool_decide_eq_false_1 in Hal. split.
        -- intros [= <-]. right. auto.
        -- intros [[H _]|(_ & _ & _ & ->)]; [contradiction|reflexivity].
    + destruct (bool_decide (a ∈ DISALLOWED_FLAGS)) eqn:Hdis.
      { apply bool_decide_eq_true_1 in Hdis.
        destruct (disallowed_not_allowed a Hdis) as (_ & Hd' & _). congruence. }
      split; [discriminate|]. intros [[H _]|(_ & H & _)]; [contradiction|discriminate].
Qed.

Lemma Forall_verdict_None (toks : list string) :
  Forall (fun a => verdict ALLOWED_FLAGS DISALLOWED_FLAGS a = None) toks <->
  Forall acceptable toks.
Proof. apply Forall_iff. intros a. apply verdict_None. Qed.

Lemma sanitizeArgs_inr (args : list jsval) (out : list string) :
  sanitizeArgs args = inr out <-> out = strings_of args /\ Forall acceptable (strings_of args).
Proof.
  unfold sanitizeArgs. rewrite loop_strings.
  pose proof (loop_result ALLOWED_FLAGS DISALLOWED_FLAGS (strings_of args) []) as H.
  split.
  - intros Heq. rewrite Heq in H. destruct H as [-> HF].
    split; [reflexivity|]. apply Forall_verdict_None. exact HF.
  - intros [-> HF]. apply Forall_verdict_None in HF.
    rewrite loop_passes by exact HF. reflexivity.
Qed.

Lemma sanitizeArgs_inl (args : list jsval) (e : SanitizeError) :
  sanitizeArgs args = inl e <->
  exists pre a post,
    strings_of args = pre ++ a :: post /\ Forall acceptable pre /\
    verdict ALLOWED_FLAGS DISALLOWED_FLAGS a = Some e.
Proof.
  unfold sanitizeArgs. rewrite loop_strings.
  pose proof (loop_result ALLOWED_FLAGS DISALLOWED_FLAGS (strings_of args) []) as H.
  split.
  - intros Heq. rewrite Heq in H. destruct H as (pre & a & post & Hs & Hpre & Ha).
    exists pre, a, post. split; [exact Hs|]. split; [|exact Ha].
    apply Forall_verdict_None. exact Hpre.
  - intros (pre & a & post & -> & Hpre & Ha).
    apply loop_first_offender; [apply Forall_verdict_None; exact Hpre|exact Ha].
Qed.

(** X10. [sanitizeArgs] returns an array exactly when every string of the
    input has no metacharacter and, if it starts with a dash, is on the allow
    list; the array then holds the strings of the input in order, and the
    values that are not strings are left out. *)
Theorem sanitizeArgs_accepts_iff (args : list jsval) (out : list string) :
  sanitizeArgs args = inr out <->
  out = strings_of args /\ Forall acceptable (strings_of args).
Proof.
  unfold sanitizeArgs. rewrite loop_strings.
  pose proof (loop_result ALLOWED_FLAGS DISALLOWED_FLAGS (strings_of args) []) as H.
  split.
  - intros Heq. rewrite Heq in H. destruct H as [-> HF].
    split; [reflexivity|]. apply Forall_verdict_None. exact HF.
  - intros [-> HF]. apply Forall_verdict_None in HF.
    rewrite loop_passes by exact HF. reflexivity.
Qed.

Lemma sanitizeArgs_accepts_iff_witness :
  sanitizeArgs [VStr "--text"; VOther; VStr "hello"] = inr ["--text"; "hello"] /\
  Forall acceptable ["--recipe"; "site.yaml"].
Proof.
  split.
  - apply (sanitizeArgs_accepts_iff [VStr "--text"; VOther; VStr "hello"]).
    split; [reflexivity|].
    apply (sanitizeArgs_accepts_iff [VStr "--text"; VStr "hello"] ["--text"; "hello"]).
    vm_compute. reflexivity.
  - apply (sanitizeArgs_accepts_iff [VStr "--recipe"; VStr "site.yaml"] ["--recipe"; "site.yaml"]).
    vm_compute. reflexivity.
Defined.

(** X11. When [sanitizeArgs] throws, the error is about the first string of
    the input that is not acceptable: [UnsafeToken] when it has a
    metacharacter, [FlagNotAllowed] otherwise; and every such input throws
    that error. *)
Theorem sanitizeArgs_error_iff (args : list jsval) (e : SanitizeError) :
  sanitizeArgs args = inl e <->
  exists pre a post,
    strings_of args = pre ++ a :: post /\ Forall acceptable pre /\
    ((contains_metachar a /\ e = UnsafeToken a) \/
     (~ contains_metachar a /\ startsWith_dash a = true /\ (a ∉ ALLOWED_FLAGS) /\
      e = FlagNotAllowed a)).
Proof.
  rewrite sanitizeArgs_inl. split.
  - intros (pre & a & post & Hs & Hpre & Ha). exists pre, a, post.
    split; [exact Hs|]. split; [exact Hpre|]. apply verdict_Some. exact Ha.
  - intros (pre & a & post & Hs & Hpre & Ha). exists pre, a, post.
    split; [exact Hs|]. split; [exact Hpre|]. apply verdict_Some. exact Ha.
Qed.

Lemma sanitizeArgs_error_iff_witness :
  sanitizeArgs [VStr "list"; VOther; VStr "--regex"; VStr "a|b"] = inl (FlagNotAllowed "--regex").
Proof.
  apply (sanitizeArgs_error_iff [VStr "list"; VOther; VStr "--regex"; VStr "a|b"]).
  exists ["list"], "--regex", ["a|b"]. split; [reflexivity|]. split.
  - apply (sanitizeArgs_inr [VStr "list"] ["list"]). vm_compute. reflexivity.
  - right. split; [apply safe_iff; vm_compute; reflexivity|].
    split; [reflexivity|]. split; [|reflexivity].
    intros H. apply (bool_decide_eq_true_2 _) in H. vm_compute in H. discriminate.
Defined.

(** X12. With the allow list and the deny list of the server, the check
    against the deny list never fires: no input makes [sanitizeArgs] throw
    "flag disallowed". *)
Theorem sanitizeArgs_never_flag_disallowed (args : list jsval) (a : string) :
  sanitizeArgs args <> inl (FlagDisallowed a).
Proof.
  intros H. apply sanitizeArgs_inl in H as (pre & b & post & _ & _ & Hb).
  apply verdict_Some in Hb as [[_ Hb]|(_ & _ & _ & Hb)]; discriminate.
Qed.

(** X13. What [sanitizeArgs] returns passes [sanitizeArgs] again and comes
    back as it is. *)
Theorem sanitizeArgs_idempotent (args : list jsval) (out : list string) :
  sanitizeArgs args = inr out -> sanitizeArgs (VStr <$> out) = inr out.
Proof.
  intros H. apply sanitizeArgs_inr in H as [-> HF].
  apply sanitizeArgs_inr. rewrite strings_of_fmap. split; [reflexivity|exact HF].
Qed.

Lemma sanitizeArgs_idempotent_witness :
  sanitizeArgs (VStr <$> ["--text"; "hello"]) = inr ["--text"; "hello"].
Proof.
  apply (sanitizeArgs_idempotent [VStr "--text"; VOther; VStr "hello"]).
  vm_compute. reflexivity.
Defined.

(** *** [buildRunArgs] *)

Lemma params_loop_ok (params : list (string * string)) (out : list string) :
  Forall (fun kv => key_ok kv.1 = true) params ->
  params_loop params out
  = inr (out ++ flat_map (fun kv => ["--params"; kv.1 +:+ "=" +:+ kv.2]) params).
Proof.
  intros H. revert out. induction H as [|[k v] params Hk _ IH]; intros out.
  - cbn. rewrite app_nil_r. reflexivity.
  - cbn [params_loop flat_map fst snd] in *. rewrite Hk, IH, <- app_assoc. reflexivity.
Qed.

Lemma params_loop_bad (pre : list (string * string)) (k v : string)
  (post : list (string * string)) (out : list string) :
  Forall (fun kv => key_ok kv.1 = true) pre -> key_ok k = false ->
  params_loop (pre ++ (k, v) :: post) out = inl (InvalidParamKey k).
Proof.
  intros H Hk. revert out. induction H as [|[k' v'] pre Hk' _ IH]; intros out.
  - cbn. rewrite Hk. reflexivity.
  - cbn [params_loop app fst] in *. rewrite Hk'. apply IH.
Qed.

Lemma list_ascii_of_string_app (a b : string) :
  list_ascii_of_string (a +:+ b) = list_ascii_of_string a ++ list_ascii_of_string b.
Proof. induction a as [|c a IH]; [reflexivity|]. cbn. rewrite <- IH. reflexivity. Qed.

Lemma contains_metachar_app_r (a b : string) :
  contains_metachar b -> contains_metachar (a +:+ b).
Proof.
  intros (c & Hm & Hin). exists c. split; [exact Hm|].
  rewrite list_ascii_of_string_app. apply elem_of_app. right. exact Hin.
Qed.

(** X14. When its [args] pass the sanitizer, [buildRunArgs] appends one
    [--params key=value] pair per entry of [params], in order, if every key
    matches [/^[A-Za-z0-9_.-]+$/], and throws "invalid param key" for the
    first key that does not.  The values are not checked: a value with a
    metacharacter gets into the result, which [sanitizeArgs] would reject. *)
Theorem buildRunArgs_result (args : list jsval) (params : list (string * string))
  (out : list string) :
  sanitizeArgs args = inr out ->
  (Forall (fun kv => key_ok kv.1 = true) params ->
   buildRunArgs args params
   = inr (out ++ flat_map (fun kv => ["--params"; kv.1 +:+ "=" +:+ kv.2]) params)) /\
  (forall pre k v post,
     params = pre ++ (k, v) :: post ->
     Forall (fun kv => key_ok kv.1 = true) pre -> key_ok k = false ->
     buildRunArgs args params = inl (InvalidParamKey k)) /\
  (forall k v,
     params = [(k, v)] -> key_ok k = true -> contains_metachar v ->
     exists res e, buildRunArgs args params = inr res /\ sanitizeArgs (VStr <$> res) = inl e).
Proof.
  intros Hs. unfold buildRunArgs. rewrite Hs. split; [|split].
  - apply params_loop_ok.
  - intros pre k v post -> Hpre Hk. apply params_loop_bad; assumption.
  - intros k v -> Hk Hv. cbn [params_loop]. rewrite Hk.
    eexists. 
    assert (Hbad : exists e, sanitizeArgs (VStr <$> (out ++ ["--params"; k +:+ "=" +:+ v])) = inl e).
    { apply (loop_fails _ _ _ (k +:+ "=" +:+ v)).
      - apply list_elem_of_fmap. exists (k +:+ "=" +:+ v). split; [reflexivity|].
        apply elem_of_app. right. apply list_elem_of_further, list_elem_of_here.
      - assert (Hc : contains_metachar (k +:+ "=" +:+ v)).
        { apply contains_metachar_app_r, contains_metachar_app_r. exact Hv. }
        apply unsafe_iff in Hc. unfold verdict. rewrite Hc. eauto. }
    destruct Hbad as [e He]. exists e. split; [reflexivity|exact He].
Qed.

Lemma buildRunArgs_result_witness :
  buildRunArgs [VStr "--recipe"; VStr "site.yaml"] [("title", "Home"); ("lang", "en")]
  = inr ["--recipe"; "site.yaml"; "--params"; "title=Home"; "--params"; "lang=en"] /\
  buildRunArgs [VStr "--recipe"; VStr "site.yaml"] [("title", "Home"); ("my key", "x")]
  = inl (InvalidParamKey "my key") /\
  exists res e,
    buildRunArgs [VStr "--recipe"; VStr "site.yaml"] [("title", "$(id)")] = inr res /\
    sanitizeArgs (VStr <$> res) = inl e.
Proof.
  assert (Hs : sanitizeArgs [VStr "--recipe"; VStr "site.yaml"] = inr ["--recipe"; "site.yaml"])
    by (vm_compute; reflexivity).
  split; [|split].
  - destruct (buildRunArgs_result _ [("title", "Home"); ("lang", "en")] _ Hs) as (H & _ & _).
    apply H.
    repeat (apply Forall_cons; split); try (apply Forall_nil; exact I); reflexivity.
  - destruct (buildRunArgs_result _ [("title", "Home"); ("my key", "x")] _ Hs) as (_ & H & _).
    apply (H [("title", "Home")] "my key" "x" []); [reflexivity| |reflexivity].
    apply Forall_cons. split; [reflexivity|apply Forall_nil; exact I].
  - destruct (buildRunArgs_result _ [("title", "$(id)")] _ Hs) as (_ & _ & H).
    apply (H "title" "$(id)"); [reflexivity|reflexivity|].
    exists "$"%char. split; [do 6 apply list_elem_of_further|]; apply list_elem_of_here.
Defined.

(** *** The tools that start a job *)

Lemma acceptable_by_verdict (a : string) :
  verdict ALLOWED_FLAGS DISALLOWED_FLAGS a = None -> acceptable a.
Proof. apply verdict_None. Qed.

Lemma acceptable_push_flag (flag : string) (x : option string) :
  acceptable flag -> (forall v, x = Some v -> acceptable v) ->
  Forall acceptable (push_flag flag x).
Proof.
  intros Hflag Hx. destruct x as [[|c v]|]; cbn; try (apply Forall_nil; exact I).
  apply Forall_cons. split; [exact Hflag|].
  apply Forall_cons. split; [apply Hx; reflexivity|apply Forall_nil; exact I].
Qed.


(** X16. [goose_session_remove] with a regex never starts a job: the flag
    [--regex] that the handler adds is not on the allow list, so the call
    throws and the registry is as it was; with a free slot and an id and a
    name that pass, the error is "flag not allowed: --regex". *)
Theorem session_remove_by_regex_fails (id name : option string) (c : ascii) (r : string)
  (config : Config) (w : StartWorld) (reg : Registry) :
  let regex := Some (String c r) in
  (exists e, goose_session_remove id name regex config w reg = (reg, inl e)) /\
  (truthy (runningJobId reg) = false ->
   (forall v, id = Some v -> acceptable v) ->
   (forall v, name = Some v -> acceptable v) ->
   goose_session_remove id name regex config w reg
   = (reg, inl (Rejected (FlagNotAllowed "--regex")))).
Proof.
  cbv zeta. unfold goose_session_remove, busy_guard, getRunningJobId, start_shifted.
  cbn [app tail push_flag].
  set (toks := "remove" :: push_flag "--id" id ++ push_flag "--name" name
                 ++ ["--regex"; String c r]).
  assert (Hv : verdict ALLOWED_FLAGS DISALLOWED_FLAGS "--regex" = Some (FlagNotAllowed "--regex"))
    by (vm_compute; reflexivity).
  split.
  - destruct (truthy (runningJobId reg)); [eauto|].
    destruct (loop_fails ALLOWED_FLAGS DISALLOWED_FLAGS (VStr <$> toks) "--regex" []) as [e He].
    + apply list_elem_of_fmap. exists "--regex". split; [reflexivity|].
      unfold toks. apply list_elem_of_further. rewrite !elem_of_app.
      right. right. apply list_elem_of_here.
    + rewrite Hv. eauto.
    + unfold sanitizeArgs. rewrite He. eauto.
  - intros -> Hid Hname.
    assert (He : sanitizeArgs (VStr <$> toks) = inl (FlagNotAllowed "--regex")).
    { apply sanitizeArgs_inl.
      exists ("remove" :: push_flag "--id" id ++ push_flag "--name" name), "--regex", [String c r].
      rewrite strings_of_fmap. split; [unfold toks; rewrite <- app_comm_cons, <- app_assoc; reflexivity|].
      split; [|exact Hv].
      apply Forall_cons. split; [apply acceptable_by_verdict; vm_compute; reflexivity|].
      apply Forall_app. split; apply acceptable_push_flag; try assumption;
        apply acceptable_by_verdict; vm_compute; reflexivity. }
    rewrite He. reflexivity.
Qed.

Lemma session_remove_by_regex_fails_witness :
  goose_session_remove (Some "20250101_1") None (Some "^2024") (mkConfig "/srv/app" "goose" 8000000)
    (mkStartWorld idA "2025-01-01T00:00:00.000Z" (Some 101) None) initial
  = (initial, inl (Rejected (FlagNotAllowed "--regex"))).
Proof.
  apply (session_remove_by_regex_fails (Some "20250101_1") None "^" "2024"); [reflexivity| |].
  - intros v [= <-]. apply acceptable_by_verdict. vm_compute. reflexivity.
  - intros v [=].
Defined.




End ServerFacts.

(** ** What a publish leaves in the target *)

Module PublishResult.
Import Path FS Publish PublishImage Samples PathFacts FSFacts PublishFacts.

(** *** Entries *)

Lemma set_entry_same {A} (name : string) (c : A) (es : list (string * A)) :
  lookup_entry name es = Some c -> set_entry name c es = es.
Proof.
  induction es as [|[n y] es IH]; cbn; [discriminate|].
  destruct (decide (n = name)) as [->|Hne].
  - intros [= ->]. reflexivity.
  - intros H. rewrite (IH H). reflexivity.
Qed.

Lemma set_entry_new {A} (name : string) (x : A) (es : list (string * A)) :
  lookup_entry name es = None -> set_entry name x es = es ++ [(name, x)].
Proof.
  induction es as [|[n y] es IH]; cbn; [reflexivity|].
  destruct (decide (n = name)) as [->|Hne]; [discriminate|].
  intros H. rewrite (IH H). reflexivity.
Qed.

Lemma set_entry_twice {A} (name : string) (x y : A) (es : list (string * A)) :
  set_entry name y (set_entry name x es) = set_entry name y es.
Proof.
  induction es as [|[n z] es IH]; cbn.
  - destruct (decide (name = name)); [reflexivity|contradiction].
  - destruct (decide (n = name)) as [->|Hne]; cbn.
    + destruct (decide (name = name)); [reflexivity|contradiction].
    + destruct (decide (n = name)); [contradiction|]. rewrite IH. reflexivity.
Qed.

Lemma lookup_entry_app {A} (name : string) (es es' : list (string * A)) :
  lookup_entry name (es ++ es') =
  match lookup_entry name es with
  | Some x => Some x
  | None => lookup_entry name es'
  end.
Proof.
  induction es as [|[n y] es IH]; cbn; [reflexivity|].
  destruct (decide (n = name)); [reflexivity|exact IH].
Qed.

Lemma lookup_entry_absent {A} (name : string) (es : list (string * A)) :
  name ∉ es.*1 -> lookup_entry name es = None.
Proof.
  induction es as [|[n y] es IH]; cbn; [reflexivity|].
  intros H. rewrite not_elem_of_cons in H. destruct H as [Hne Hin].
  destruct (decide (n = name)); [congruence|apply IH; exact Hin].
Qed.

Lemma lookup_entry_filter_out {A} (skipNames : list string) (name : string)
  (es : list (string * A)) :
  name ∉ skipNames -> lookup_entry name (filter (fun ent => ent.1 ∈ skipNames) es) = None.
Proof.
  intros Hn. induction es as [|[n y] es IH]; [reflexivity|].
  rewrite filter_cons. cbn [fst]. destruct (decide (n ∈ skipNames)) as [Hp|_]; [|exact IH].
  cbn. destruct (decide (n = name)) as [->|_]; [contradiction|exact IH].
Qed.

(** *** Looking below a place, and replacing what is there *)

Lemma lookup_app (p q : path) (nd : node) :
  lookup (p ++ q) nd = lookup p nd ≫= lookup q.
Proof.
  revert nd. induction p as [|name p IH]; intros nd; [reflexivity|].
  cbn [app lookup]. destruct nd as [content|es]; [reflexivity|].
  destruct (lookup_entry name es) as [c|]; [apply IH|reflexivity].
Qed.

Lemma lookup_graft (p : path) (new sub nd : node) :
  lookup p nd = Some sub -> lookup p (graft p new nd) = Some new.
Proof.
  revert nd. induction p as [|name p IH]; intros nd; [reflexivity|].
  cbn [lookup graft]. destruct nd as [content|es]; [discriminate|].
  destruct (lookup_entry name es) as [c|] eqn:Hc; [|discriminate].
  intros H. cbn [lookup]. rewrite lookup_entry_set_eq. apply IH. exact H.
Qed.

Lemma graft_graft (p : path) (a b sub nd : node) :
  lookup p nd = Some sub -> graft p b (graft p a nd) = graft p b nd.
Proof.
  revert nd. induction p as [|name p IH]; intros nd; [reflexivity|].
  cbn [lookup graft]. destruct nd as [content|es]; [discriminate|].
  destruct (lookup_entry name es) as [c|] eqn:Hc; [|discriminate].
  intros H. cbn [graft]. rewrite lookup_entry_set_eq, set_entry_twice, (IH _ H). reflexivity.
Qed.

Lemma graft_same (p : path) (sub nd : node) :
  lookup p nd = Some sub -> graft p sub nd = nd.
Proof.
  revert nd. induction p as [|name p IH]; intros nd.
  - intros [= ->]. reflexivity.
  - cbn [lookup graft]. destruct nd as [content|es]; [discriminate|].
    destruct (lookup_entry name es) as [c|] eqn:Hc; [|discriminate].
    intros H. rewrite (IH _ H), (set_entry_same _ _ _ Hc). reflexivity.
Qed.

Lemma graft_app (p q : path) (new sub nd : node) :
  lookup p nd = Some sub -> graft (p ++ q) new nd = graft p (graft q new sub) nd.
Proof.
  revert nd. induction p as [|name p IH]; intros nd.
  - intros [= ->]. reflexivity.
  - cbn [app lookup graft]. destruct nd as [content|es]; [discriminate|].
    destruct (lookup_entry name es) as [c|] eqn:Hc; [|discriminate].
    intros H. rewrite (IH _ H). reflexivity.
Qed.

(** *** The steps of the file system, seen from a place on their way *)

Lemma mkdir_p_at (p q : path) (sub nd : node) :
  lookup p nd = Some sub ->
  mkdir_p (p ++ q) nd =
  match mkdir_p q sub with
  | inl e => inl e
  | inr sub' => inr (graft p sub' nd)
  end.
Proof.
  revert nd. induction p as [|name p IH]; intros nd.
  - intros [= ->]. cbn [app graft]. destruct (mkdir_p q sub); reflexivity.
  - cbn [app lookup]. destruct nd as [content|es]; [discriminate|].
    destruct (lookup_entry name es) as [c|] eqn:Hc; [|discriminate].
    intros H. cbn [mkdir_p graft]. rewrite Hc. cbn [default from_option id]. rewrite (IH _ H).
    destruct (mkdir_p q sub); reflexivity.
Qed.

Lemma write_file_at (p q : path) (content : list byte) (sub nd : node) :
  lookup p nd = Some sub ->
  write_file (p ++ q) content nd =
  match write_file q content sub with
  | inl e => inl e
  | inr sub' => inr (graft p sub' nd)
  end.
Proof.
  revert nd. induction p as [|name p IH]; intros nd.
  - intros [= ->]. cbn [app graft]. destruct (write_file q content sub); reflexivity.
  - cbn [app lookup]. destruct nd as [c0|es]; [discriminate|].
    destruct (lookup_entry name es) as [c|] eqn:Hc; [|discriminate].
    intros H. cbn [write_file graft]. rewrite Hc, (IH _ H).
    destruct (write_file q content sub); reflexivity.
Qed.

Lemma update_dir_at (p : path) (f : list (string * node) -> list (string * node))
  (es : list (string * node)) (nd : node) :
  lookup p nd = Some (Dir es) ->
  update_dir p f nd = inr (graft p (Dir (f es)) nd).
Proof.
  revert nd. induction p as [|name p IH]; intros nd.
  - intros [= ->]. reflexivity.
  - cbn [lookup]. destruct nd as [c0|es0]; [discriminate|].
    destruct (lookup_entry name es0) as [c|] eqn:Hc; [|discriminate].
    intros H. cbn [update_dir graft]. rewrite Hc, (IH _ H). reflexivity.
Qed.

Lemma mkdir_p_existing (p : path) (es : list (string * node)) (nd : node) :
  lookup p nd = Some (Dir es) -> mkdir_p p nd = inr nd.
Proof.
  intros H. rewrite <- (app_nil_r p), (mkdir_p_at p [] _ _ H). cbn [mkdir_p].
  rewrite (graft_same _ _ _ H). reflexivity.
Qed.

Lemma mkdir_p_is_dir (p : path) (nd nd' : node) :
  mkdir_p p nd = inr nd' -> exists es, nd = Dir es.
Proof. destruct nd as [c|es]; [destruct p; discriminate|eauto]. Qed.

Lemma mkdir_p_lookup (p : path) (nd nd' : node) :
  mkdir_p p nd = inr nd' -> exists es, lookup p nd' = Some (Dir es).
Proof.
  revert nd nd'. induction p as [|name p IH]; intros nd nd' H.
  - destruct nd as [c|es]; [discriminate|]. cbn [mkdir_p] in H. injection H as <-. eauto.
  - destruct nd as [c|es]; [discriminate|]. cbn [mkdir_p] in H.
    destruct (mkdir_p p (default (Dir []) (lookup_entry name es))) as [e|c] eqn:Hc;
      [discriminate|].
    injection H as <-. cbn [lookup]. rewrite lookup_entry_set_eq. apply (IH _ _ Hc).
Qed.

(** Making a directory makes the directories on the way, and none of them
    again afterwards. *)
Lemma mkdir_p_mono (p q : path) (nd nd1 : node) :
  mkdir_p (p ++ q) nd = inr nd1 ->
  exists nda, mkdir_p p nd = inr nda /\ mkdir_p (p ++ q) nda = inr nd1.
Proof.
  revert nd nd1. induction p as [|name p IH]; intros nd nd1 H.
  - destruct (mkdir_p_is_dir _ _ _ H) as [es ->]. exists (Dir es). split; [reflexivity|exact H].
  - destruct nd as [c|es]; [discriminate|]. cbn [app mkdir_p] in *.
    destruct (mkdir_p (p ++ q) (default (Dir []) (lookup_entry name es))) as [e|c] eqn:Hc;
      [discriminate|].
    injection H as <-. destruct (IH _ _ Hc) as (ca & Hca & Hca').
    rewrite Hca. eexists. split; [reflexivity|].
    cbn [mkdir_p]. rewrite lookup_entry_set_eq. cbn [default from_option id]. rewrite Hca', set_entry_twice.
    reflexivity.
Qed.

(** *** Actions that end well *)

Lemma bind_ok {A B} (m : Action A) (k : A -> Action B) (fs fs1 : node) (x : A) :
  m fs = (fs1, inr x) -> (m ≫= k) fs = k x fs1.
Proof. intros H. unfold mbind, Action_bind, bind. rewrite H. reflexivity. Qed.

Lemma atomically_ok (step : node -> FsError + node) (fs fs1 : node) :
  step fs = inr fs1 -> atomically step fs = (fs1, inr tt).
Proof. intros H. unfold atomically. rewrite H. reflexivity. Qed.

Lemma removelast_snoc {A} (l : list A) (x : A) : removelast (l ++ [x]) = l.
Proof. apply removelast_last. Qed.

Section Copy.

Variable cwd : string.

(** The result that is to be shown for one entry. *)
Local Abbreviation lands ent :=
  (forall D name es fs,
     Forall proper D -> proper name ->
     lookup D fs = Some (Dir es) -> lookup_entry name es = None ->
     copyEntry cwd ent (of_segments (D ++ [name])) fs
     = (graft D (Dir (es ++ from_option (fun nd => [(name, nd)]) [] (image ent))) fs, inr tt)).

Lemma copyEntries_lands (children : list (string * snode)) :
  Forall (fun e => lands e.2) children ->
  Forall (fun e => proper e.1) children ->
  NoDup children.*1 ->
  forall D es fs,
    Forall proper D ->
    lookup D fs = Some (Dir es) ->
    Forall (fun e => lookup_entry e.1 es = None) children ->
    copyEntries (copyEntry cwd) (of_segments D) children fs
    = (graft D (Dir (es ++ image_entries image children)) fs, inr tt).
Proof.
  induction children as [|[name ent] rest IH]; intros Hland Hnames Hdup D es fs HD Hfs Hfree.
  - cbn. rewrite app_nil_r, (graft_same _ _ _ Hfs). reflexivity.
  - apply Forall_cons in Hland as [Hent Hland]. apply Forall_cons in Hnames as [Hname Hnames].
    apply Forall_cons in Hfree as [Hfree1 Hfree]. cbn [fst snd] in *.
    rewrite fmap_cons in Hdup. apply NoDup_cons in Hdup as [Hfresh Hdup]. cbn [fst] in Hfresh.
    cbn [copyEntries image_entries].
    destruct (decide (name = ".git")) as [_|_].
    + apply (IH Hland Hnames Hdup D es fs HD Hfs Hfree).
    + destruct (join_child D name HD Hname) as [-> _].
      rewrite (bind_ok _ _ _ _ _ (Hent D name es fs HD Hname Hfs Hfree1)).
      set (e1 := from_option (fun nd => [(name, nd)]) [] (image ent)).
      rewrite (IH Hland Hnames Hdup D (es ++ e1) _ HD (lookup_graft _ _ _ _ Hfs)).
      * rewrite (graft_graft _ _ _ _ _ Hfs). f_equal. f_equal. f_equal.
        rewrite <- app_assoc. f_equal. unfold e1. destruct (image ent); reflexivity.
      * apply Forall_forall. intros [n c] Hin. cbn [fst].
        rewrite Forall_forall in Hfree. pose proof (Hfree _ Hin) as Hf. cbn [fst] in Hf.
        rewrite lookup_entry_app, Hf.
        assert (Hne : name <> n).
        { intros ->. apply Hfresh. apply list_elem_of_fmap. exists (n, c). split; [reflexivity|exact Hin]. }
        unfold e1. destruct (image ent); cbn; [|reflexivity].
        destruct (decide (name = n)); [contradiction|reflexivity].
Qed.

Lemma copyEntry_lands (ent : snode) : wf_tree ent -> distinct_names ent -> lands ent.
Proof.
  induction ent as [content|target|children IH] using snode_ind';
    intros Hwf Hdist D name es fs HD Hname Hfs Hfree.
  - cbn [copyEntry image from_option].
    assert (Hall : Forall proper (D ++ [name])).
    { apply Forall_app. split; [exact HD|]. apply Forall_cons. split; [exact Hname|apply Forall_nil; exact I]. }
    rewrite (dirname_of_segments _ Hall), removelast_snoc.
    rewrite (locate_of_segments cwd D HD), (locate_of_segments cwd _ Hall).
    rewrite (bind_ok _ _ fs fs tt) by (apply atomically_ok, (mkdir_p_existing _ _ _ Hfs)).
    apply atomically_ok. rewrite (write_file_at D [name] content _ _ Hfs).
    cbn [write_file]. rewrite Hfree, (set_entry_new _ _ _ Hfree). reflexivity.
  - cbn [copyEntry image from_option]. rewrite app_nil_r, (graft_same _ _ _ Hfs). reflexivity.
  - cbn [copyEntry image from_option].
    assert (Hall : Forall proper (D ++ [name])).
    { apply Forall_app. split; [exact HD|]. apply Forall_cons. split; [exact Hname|apply Forall_nil; exact I]. }
    inversion Hwf as [| |? Hwfs]; subst. inversion Hdist as [| |? Hdup Hdists]; subst.
    unfold ensureDirSync. rewrite (locate_of_segments cwd _ Hall).
    set (fs1 := graft D (Dir (es ++ [(name, Dir [])])) fs).
    assert (Hmk : mkdir_p (D ++ [name]) fs = inr fs1).
    { rewrite (mkdir_p_at D [name] _ _ Hfs). cbn [mkdir_p]. rewrite Hfree. cbn [default from_option id].
      rewrite (set_entry_new _ _ _ Hfree). reflexivity. }
    rewrite (bind_ok _ _ fs fs1 tt) by (apply atomically_ok, Hmk).
    assert (Hfs1 : lookup D fs1 = Some (Dir (es ++ [(name, Dir [])])))
      by (apply (lookup_graft _ _ _ _ Hfs)).
    assert (Hsub : lookup (D ++ [name]) fs1 = Some (Dir [])).
    { rewrite lookup_app, Hfs1. cbn. rewrite lookup_entry_app, Hfree. cbn.
      destruct (decide (name = name)); [reflexivity|contradiction]. }
    rewrite (copyEntries_lands children) with (es := []).
    + f_equal. cbn [app]. rewrite (graft_app D [name] _ _ _ Hfs1). cbn [graft].
      rewrite lookup_entry_app, Hfree. cbn [lookup_entry].
      destruct (decide (name = name)) as [_|]; [|contradiction].
      unfold fs1. rewrite (graft_graft _ _ _ _ _ Hfs).
      rewrite <- (set_entry_new name (Dir []) es Hfree), set_entry_twice,
        (set_entry_new _ _ _ Hfree). reflexivity.
    + rewrite Forall_forall in IH, Hwfs, Hdists. apply Forall_forall. intros e Hin.
      apply (IH _ Hin); [apply (Hwfs _ Hin)|apply (Hdists _ Hin)].
    + rewrite Forall_forall in Hwfs. apply Forall_forall. intros e Hin. apply (Hwfs _ Hin).
    + exact Hdup.
    + exact Hall.
    + exact Hsub.
    + apply Forall_forall. intros e _. reflexivity.
Qed.

Lemma copyDir_lands (scope : list (string * snode)) (T : path) (es : list (string * node))
  (fs : node) :
  wf_tree (SDir scope) -> distinct_names (SDir scope) ->
  Forall proper T ->
  lookup T fs = Some (Dir es) ->
  Forall (fun e => lookup_entry e.1 es = None) scope ->
  copyDir cwd scope (of_segments T) fs = (graft T (Dir (es ++ published scope)) fs, inr tt).
Proof.
  intros Hwf Hdist HT Hfs Hfree. unfold copyDir. cbn [copyEntry].
  inversion Hwf as [| |? Hwfs]; subst. inversion Hdist as [| |? Hdup Hdists]; subst.
  unfold ensureDirSync. rewrite (locate_of_segments cwd T HT).
  rewrite (bind_ok _ _ fs fs tt) by (apply atomically_ok, (mkdir_p_existing _ _ _ Hfs)).
  apply copyEntries_lands; try assumption.
  - rewrite Forall_forall in Hwfs, Hdists. apply Forall_forall. intros e Hin.
    apply copyEntry_lands; [apply (Hwfs _ Hin)|apply (Hdists _ Hin)].
  - rewrite Forall_forall in Hwfs. apply Forall_forall. intros e Hin. apply (Hwfs _ Hin).
Qed.

End Copy.

(** *** The whole publish *)

Lemma filter_twice {A} (P : A -> Prop) `{!forall x, Decision (P x)} (l : list A) :
  filter P (filter P l) = filter P l.
Proof.
  induction l as [|x l IH]; [reflexivity|].
  rewrite filter_cons. destruct (decide (P x)) as [Hp|Hn]; [|exact IH].
  rewrite filter_cons, decide_True by exact Hp. rewrite IH. reflexivity.
Qed.

Lemma image_entries_lookup (children : list (string * snode)) (name : string) (c : node) :
  lookup_entry name (published children) = Some c ->
  name <> ".git" /\ exists ent, (name, ent) ∈ children /\ image ent = Some c.
Proof.
  unfold published. induction children as [|[n ent] rest IH]; cbn [image_entries]; [discriminate|].
  assert (Hrest : lookup_entry name (image_entries image rest) = Some c ->
                  name <> ".git" /\ exists ent0, (name, ent0) ∈ (n, ent) :: rest /\ image ent0 = Some c).
  { intros H. destruct (IH H) as [Hne (ent0 & Hin & Himg)].
    split; [exact Hne|]. exists ent0. split; [apply list_elem_of_further; exact Hin|exact Himg]. }
  destruct (decide (n = ".git")) as [->|Hn]; [exact Hrest|].
  destruct (image ent) as [nd|] eqn:Himg; [|exact Hrest].
  cbn [lookup_entry]. destruct (decide (n = name)) as [->|_]; [|exact Hrest].
  intros [= ->]. split; [exact Hn|]. exists ent. split; [apply list_elem_of_here|exact Himg].
Qed.

Lemma published_names (skipNames : list string) (scope : list (string * snode)) :
  Forall (fun e => e.1 ∉ skipNames) scope ->
  filter (fun e : string * node => e.1 ∈ skipNames) (published scope) = [].
Proof.
  unfold published. induction 1 as [|[n ent] rest Hn _ IH]; [reflexivity|].
  cbn [image_entries fst] in *. destruct (decide (n = ".git")); [exact IH|].
  destruct (image ent); [|exact IH].
  rewrite filter_cons. cbn [fst]. rewrite decide_False by exact Hn. exact IH.
Qed.

(** Nothing called [.git] is in a copy. *)
Lemma image_without_git (ent : snode) :
  forall nd, image ent = Some nd -> forall q, ".git" ∈ q -> lookup q nd = None.
Proof.
  induction ent as [content|target|children IH] using snode_ind'; intros nd Himg q Hq.
  - injection Himg as <-. apply lookup_below_file. intros ->. apply elem_of_nil in Hq. exact Hq.
  - discriminate.
  - injection Himg as <-. destruct q as [|name rest]; [apply elem_of_nil in Hq; contradiction|].
    cbn [lookup]. fold (published children).
    destruct (lookup_entry name (published children)) as [c|] eqn:Hc; [|reflexivity].
    destruct (image_entries_lookup _ _ _ Hc) as [Hne (ent & Hin & Himg)].
    apply elem_of_cons in Hq as [Heq|Hq]; [congruence|].
    rewrite Forall_forall in IH. apply (IH _ Hin _ Himg _ Hq).
Qed.

Lemma filter_in_nil {A} (es : list (string * A)) :
  filter (fun e : string * A => e.1 ∈ @nil string) es = [].
Proof.
  induction es as [|e es IH]; [reflexivity|].
  rewrite filter_cons, decide_False by apply not_elem_of_nil. exact IH.
Qed.

Lemma scope_avoids_kept (branch : string) (scope : list (string * snode)) :
  (branch = MAIN_BRANCH -> lookup_entry PREVIEW_PREFIX scope = None) ->
  Forall (fun e => e.1 ∉ kept_names branch) scope.
Proof.
  intros H. unfold kept_names. destruct (decide (branch = MAIN_BRANCH)) as [Hb|_].
  - eapply Forall_impl; [apply lookup_entry_None_names, H, Hb|].
    intros e He Hin. apply list_elem_of_singleton in Hin. congruence.
  - apply Forall_forall. intros e _ Hin. apply elem_of_nil in Hin. exact Hin.
Qed.

Lemma publish_result (home : list string) (cwd : string) (PORT : option string)
  (branch : string) (scope : list (string * snode)) (fs fs1 : node) :
  Forall proper home ->
  wf_tree (SDir scope) -> distinct_names (SDir scope) ->
  let T := root_segments home ++ target_ext branch in
  mkdir_p T fs = inr fs1 ->
  Forall (fun e => e.1 ∉ kept_names branch) scope ->
  exists es0 url,
    lookup T fs1 = Some (Dir es0) /\
    publishCurrentBranch (of_segments home) cwd PORT branch scope fs
    = (graft T (Dir (filter (fun e => e.1 ∈ kept_names branch) es0 ++ published scope)) fs1,
       inr (mkPublished branch (of_segments T) url)).
Proof.
  intros Hhome Hwf Hdist T Hmk Hscope.
  destruct (preview_root home Hhome) as [HR HRp].
  destruct (target_dir (root_segments home) branch HRp (root_segments_nonempty home))
    as [HT HTp].
  fold T in HT, HTp.
  destruct (mkdir_p_lookup _ _ _ Hmk) as [es0 Hes0].
  exists es0. eexists. split; [exact Hes0|].
  pose proof (publishCurrentBranch_steps (of_segments home) cwd PORT branch scope) as Hsteps.
  cbv zeta in Hsteps. rewrite Hsteps. clear Hsteps. rewrite HR, HT.
  assert (HTne : T <> []).
  { unfold T. intros H. apply app_eq_nil in H as [H _].
    exact (root_segments_nonempty home H). }
  destruct (mkdir_p_mono (root_segments home) (target_ext branch) fs fs1 Hmk)
    as (fsa & Ha & Ha'). fold T in Ha'.
  rewrite (app_removelast_last EmptyString HTne) in Ha'.
  destruct (mkdir_p_mono _ _ _ _ Ha') as (fsb & Hb & Hb').
  rewrite <- (app_removelast_last EmptyString HTne) in Hb'.
  unfold ensureDirSync.
  rewrite (dirname_of_segments T HTp).
  rewrite (locate_of_segments cwd _ HRp), (locate_of_segments cwd _ (removelast_proper T HTp)),
    (locate_of_segments cwd T HTp).
  rewrite (bind_ok _ _ fs fsa tt) by (apply atomically_ok, Ha).
  rewrite (bind_ok _ _ fsa fsb tt) by (apply atomically_ok, Hb).
  rewrite (bind_ok _ _ fsb fs1 tt) by (apply atomically_ok, Hb').
  unfold T at 1. rewrite (isSubPath_below cwd _ _ HRp (root_segments_nonempty home) HTp).
  cbn [negb]. fold (kept_names branch).
  set (kept := filter (fun e : string * node => e.1 ∈ kept_names branch) es0).
  assert (Hrm : rmDirContents cwd (of_segments T) (kept_names branch) fs1
                = (graft T (Dir kept) fs1, inr tt)).
  { unfold rmDirContents. rewrite (locate_of_segments cwd T HTp).
    rewrite (update_dir_at T _ es0 fs1 Hes0). reflexivity. }
  rewrite (bind_ok _ _ _ _ _ Hrm).
  assert (Hcp : copyDir cwd scope (of_segments T) (graft T (Dir kept) fs1)
                = (graft T (Dir (kept ++ published scope)) fs1, inr tt)).
  { rewrite (copyDir_lands cwd scope T kept); try assumption.
    - rewrite (graft_graft _ _ _ _ _ Hes0). reflexivity.
    - apply (lookup_graft _ _ _ _ Hes0).
    - eapply Forall_impl; [exact Hscope|]. intros e He. cbn beta in *. unfold kept.
      apply (lookup_entry_filter_out (kept_names branch)). exact He. }
  rewrite (bind_ok _ _ _ _ _ Hcp). reflexivity.
Qed.

Lemma home_goose_proper : Forall proper ["home"; "goose"].
Proof. repeat constructor; discriminate. Qed.

Lemma plain_tree_wf : wf_tree (SDir plain_tree).
Proof. repeat (constructor; cbn [fst snd]); discriminate. Qed.

Lemma plain_tree_distinct : distinct_names (SDir plain_tree).
Proof.
  repeat first [ apply distinct_dir | apply distinct_file | apply distinct_link
               | apply Forall_cons; split | apply Forall_nil; exact I
               | apply NoDup_nil_2 | apply NoDup_cons_2 ];
    cbn; rewrite ?elem_of_cons, ?elem_of_nil; intuition discriminate.
Qed.

(** X18. A publish that can make its target directory ends well, and the
    target then holds the working tree as [copyDir] hands it on, in the order
    of the listing: everything of the working tree but the entries called
    [.git] and the symbolic links.  For a branch other than [main] that is
    all the target holds; for [main] the [.preview] entries that were there
    come first. *)
Theorem publish_snapshot (home : list string) (cwd : string) (PORT : option string)
  (branch : string) (scope : list (string * snode)) (fs fs1 : node) :
  Forall proper home ->
  wf_tree (SDir scope) -> distinct_names (SDir scope) ->
  let T := root_segments home ++ target_ext branch in
  mkdir_p T fs = inr fs1 ->
  (branch = MAIN_BRANCH -> lookup_entry PREVIEW_PREFIX scope = None) ->
  let out := publishCurrentBranch (of_segments home) cwd PORT branch scope fs in
  (exists url, out.2 = inr (mkPublished branch (of_segments T) url)) /\
  (branch <> MAIN_BRANCH -> lookup T out.1 = Some (Dir (published scope))) /\
  (branch = MAIN_BRANCH ->
   exists es0,
     lookup T fs1 = Some (Dir es0) /\
     lookup T out.1
     = Some (Dir (filter (fun e => e.1 = PREVIEW_PREFIX) es0 ++ published scope))).
Proof.
  intros Hhome Hwf Hdist T Hmk Hmain out.
  destruct (publish_result home cwd PORT branch scope fs fs1 Hhome Hwf Hdist Hmk
              (scope_avoids_kept _ _ Hmain)) as (es0 & url & Hes0 & Hout).
  fold T in Hes0, Hout. unfold out. rewrite Hout. cbn [fst snd].
  split; [eauto|]. rewrite (lookup_graft _ _ _ _ Hes0). unfold kept_names. split.
  - intros Hb. rewrite decide_False by exact Hb. f_equal. f_equal.
    rewrite filter_in_nil. reflexivity.
  - intros Hb. rewrite decide_True by exact Hb. exists es0. split; [exact Hes0|].
    f_equal. f_equal. f_equal. apply list_filter_iff. intros e.
    rewrite list_elem_of_singleton. reflexivity.
Qed.

Lemma publish_snapshot_witness :
  let out := publishCurrentBranch "/home/goose" "/srv" None "feature/x" plain_tree preview_fs in
  lookup (www ++ [PREVIEW_PREFIX; "feature_x"]) out.1
  = Some (Dir [("index.html", File [x64]); ("assets", Dir [("site.css", File [x65])])]).
Proof.
  cbv zeta.
  destruct (publish_snapshot ["home"; "goose"] "/srv" None "feature/x" plain_tree preview_fs
              preview_fs home_goose_proper plain_tree_wf plain_tree_distinct eq_refl
              ltac:(discriminate)) as (_ & H & _).
  etrans; [exact (H ltac:(discriminate))|reflexivity].
Defined.

(** X19. Where the target directory can be made and, for [main], the
    working tree has no entry called [.preview], the steps of a publish after
    [detectBranch] are idempotent: run again on the tree that they left, for
    the same branch and the same listing of the working tree (names in
    [home] and in the listing proper, and distinct in each directory of the
    listing), they return what they returned before and leave the tree as it
    was left. *)
Theorem publish_idempotent (home : list string) (cwd : string) (PORT : option string)
  (branch : string) (scope : list (string * snode)) (fs fs1 : node) :
  Forall proper home ->
  wf_tree (SDir scope) -> distinct_names (SDir scope) ->
  mkdir_p (root_segments home ++ target_ext branch) fs = inr fs1 ->
  (branch = MAIN_BRANCH -> lookup_entry PREVIEW_PREFIX scope = None) ->
  let publish := publishCurrentBranch (of_segments home) cwd PORT branch scope in
  publish (publish fs).1 = publish fs.
Proof.
  intros Hhome Hwf Hdist Hmk Hmain publish.
  pose proof (scope_avoids_kept _ _ Hmain) as Hscope.
  destruct (publish_result home cwd PORT branch scope fs fs1 Hhome Hwf Hdist Hmk Hscope)
    as (es0 & url & Hes0 & Hout).
  cbv zeta in Hes0, Hout. unfold publish. rewrite Hout. cbn [fst].
  set (T := root_segments home ++ target_ext branch) in *.
  set (kept := filter (fun e : string * node => e.1 ∈ kept_names branch) es0) in *.
  set (fs2 := graft T (Dir (kept ++ published scope)) fs1).
  assert (Hfs2 : lookup T fs2 = Some (Dir (kept ++ published scope)))
    by apply (lookup_graft _ _ _ _ Hes0).
  destruct (publish_result home cwd PORT branch scope fs2 fs2 Hhome Hwf Hdist
              (mkdir_p_existing _ _ _ Hfs2) Hscope) as (es1 & url1 & Hes1 & Hout1).
  cbv zeta in Hes1, Hout1. fold T in Hes1, Hout1.
  rewrite Hfs2 in Hes1. injection Hes1 as <-.
  rewrite Hout1.
  assert (Hurl : url1 = url).
  { pose proof (publishCurrentBranch_steps (of_segments home) cwd PORT branch scope) as Hs.
    cbv zeta in Hs. rewrite Hs in Hout, Hout1. clear Hs.
    unfold mbind, Action_bind, bind, mret, Action_ret, ret, throw in Hout, Hout1.
    repeat match type of Hout with
           | context [match ?m ?x with _ => _ end] => destruct (m x) as [? [?|?]]
           | context [if ?b then _ else _] => destruct b
           end; try discriminate.
    all: repeat match type of Hout1 with
           | context [match ?m ?x with _ => _ end] => destruct (m x) as [? [?|?]]
           | context [if ?b then _ else _] => destruct b
           end; try discriminate.
    all: congruence. }
  rewrite Hurl. f_equal.
  rewrite filter_app. fold kept. unfold kept at 1. rewrite filter_twice. fold kept.
  rewrite (published_names (kept_names branch) scope Hscope), app_nil_r.
  unfold fs2. rewrite (graft_graft _ _ _ _ _ Hes0). reflexivity.
Qed.

Lemma publish_idempotent_witness :
  let publish := publishCurrentBranch "/home/goose" "/srv" None "feature/x" plain_tree in
  publish (publish preview_fs).1 = publish preview_fs.
Proof.
  apply (publish_idempotent ["home"; "goose"] "/srv" None "feature/x" plain_tree preview_fs
           preview_fs home_goose_proper plain_tree_wf plain_tree_distinct eq_refl).
  discriminate.
Defined.

(** X20. Where the target directory can be made and, for [main], the
    working tree has no entry called [.preview], the steps of a publish after
    [detectBranch] leave no repository data in the target: no path below the
    target that has a component called [.git] leads anywhere afterwards (for
    [main], apart from the paths into [.preview], which belongs to other
    branches). The names in [home] and in the listing of the working tree
    are proper, and distinct in each directory of the listing. *)
Theorem publish_leaves_out_git (home : list string) (cwd : string) (PORT : option string)
  (branch : string) (scope : list (string * snode)) (fs fs1 : node) (q : path) :
  Forall proper home ->
  wf_tree (SDir scope) -> distinct_names (SDir scope) ->
  let T := root_segments home ++ target_ext branch in
  mkdir_p T fs = inr fs1 ->
  (branch = MAIN_BRANCH -> lookup_entry PREVIEW_PREFIX scope = None) ->
  ".git" ∈ q ->
  (branch = MAIN_BRANCH -> head q <> Some PREVIEW_PREFIX) ->
  lookup (T ++ q) (publishCurrentBranch (of_segments home) cwd PORT branch scope fs).1 = None.
Proof.
  intros Hhome Hwf Hdist T Hmk Hmain Hq Hhead.
  destruct (publish_result home cwd PORT branch scope fs fs1 Hhome Hwf Hdist Hmk
              (scope_avoids_kept _ _ Hmain)) as (es0 & url & Hes0 & Hout).
  fold T in Hes0, Hout. rewrite Hout. cbn [fst].
  rewrite lookup_app, (lookup_graft _ _ _ _ Hes0). cbn [mbind option_bind].
  destruct q as [|name rest]; [apply elem_of_nil in Hq; contradiction|].
  cbn [lookup]. rewrite lookup_entry_app.
  rewrite (lookup_entry_filter_out (kept_names branch)).
  - destruct (lookup_entry name (published scope)) as [c|] eqn:Hc; [|reflexivity].
    destruct (image_entries_lookup _ _ _ Hc) as [Hne (ent & Hin & Himg)].
    apply elem_of_cons in Hq as [Heq|Hq]; [congruence|].
    apply (image_without_git ent c Himg rest Hq).
  - unfold kept_names. destruct (decide (branch = MAIN_BRANCH)) as [Hb|_].
    + intros Hin. apply list_elem_of_singleton in Hin. apply (Hhead Hb). cbn. congruence.
    + apply not_elem_of_nil.
Qed.

Lemma publish_leaves_out_git_witness :
  lookup (www ++ [PREVIEW_PREFIX; "feature_x"] ++ [".git"; "HEAD"])
    (publishCurrentBranch "/home/goose" "/srv" None "feature/x" plain_tree preview_fs).1 = None.
Proof.
  apply (publish_leaves_out_git ["home"; "goose"] "/srv" None "feature/x" plain_tree preview_fs
           preview_fs [".git"; "HEAD"] home_goose_proper plain_tree_wf plain_tree_distinct
           eq_refl).
  - discriminate.
  - apply list_elem_of_here.
  - discriminate.
Defined.

End PublishResult.

(** ** Slugs and the sub-path test *)

Module SlugFacts.
Import Path FS Publish Samples PathFacts FSFacts PublishFacts.

Lemma chars_app (a b : string) :
  list_ascii_of_string (a +:+ b) = list_ascii_of_string a ++ list_ascii_of_string b.
Proof. induction a as [|c a IH]; [reflexivity|]. cbn. rewrite <- IH. reflexivity. Qed.

Lemma slug_unit_kept (c : ascii) :
  forallb slug_keeps (list_ascii_of_string (slug_unit c)) = true.
Proof.
  unfold slug_unit. cbv zeta.
  destruct (N_of_ascii c <? 128)%N.
  - destruct (slug_keeps c) eqn:Hk; [cbn; rewrite Hk|]; reflexivity.
  - destruct (N_of_ascii c <? 192)%N; [reflexivity|].
    destruct (N_of_ascii c <? 240)%N; reflexivity.
Qed.

Lemma slug_unit_of_kept (c : ascii) : slug_keeps c = true -> slug_unit c = String c EmptyString.
Proof.
  destruct c as [[] [] [] [] [] [] [] []]; intros H; try reflexivity; discriminate H.
Qed.

Lemma branchSlug_kept (name : string) :
  forallb slug_keeps (list_ascii_of_string (branchSlug name)) = true.
Proof.
  induction name as [|c name IH]; [reflexivity|].
  cbn [branchSlug]. rewrite chars_app, forallb_app, slug_unit_kept, IH. reflexivity.
Qed.

Lemma branchSlug_of_kept (name : string) :
  forallb slug_keeps (list_ascii_of_string name) = true -> branchSlug name = name.
Proof.
  induction name as [|c name IH]; [reflexivity|].
  cbn [list_ascii_of_string forallb branchSlug]. intros H.
  apply andb_true_iff in H as [Hc Hrest].
  rewrite (slug_unit_of_kept c Hc), (IH Hrest). reflexivity.
Qed.

Lemma branchSlug_app (a b : string) : branchSlug (a +:+ b) = branchSlug a +:+ branchSlug b.
Proof.
  induction a as [|c a IH]; [reflexivity|].
  rewrite app_String. cbn [branchSlug]. rewrite IH, app_assoc_s. reflexivity.
Qed.

(** X21. A slug has only letters, digits, [.], [_] and [-]; making the slug
    of a slug changes nothing; and the names that are their own slug are the
    names that have only those characters. *)
Theorem branchSlug_charset (name : string) :
  forallb slug_keeps (list_ascii_of_string (branchSlug name)) = true /\
  branchSlug (branchSlug name) = branchSlug name /\
  (branchSlug name = name <-> forallb slug_keeps (list_ascii_of_string name) = true).
Proof.
  split; [apply branchSlug_kept|]. split.
  - apply branchSlug_of_kept, branchSlug_kept.
  - split; [|apply branchSlug_of_kept].
    intros H. rewrite <- H. apply branchSlug_kept.
Qed.

Lemma app_inv_head_s (a b c : string) : a +:+ b = a +:+ c -> b = c.
Proof.
  induction a as [|x a IH]; [intros H; exact H|].
  rewrite !app_String. intros [= H]. apply IH. exact H.
Qed.

Lemma char_in_app (a : string) (c : ascii) (b : string) :
  c ∈ list_ascii_of_string (a +:+ String c b).
Proof. rewrite chars_app. apply elem_of_app. right. apply list_elem_of_here. Qed.

(** X22. Branch names that differ only in [/] against [_] get the same
    preview directory: [a/b] and [a_b] are two branches with one target, so
    the publish of either replaces what the other published. *)
Theorem slug_collision (previewRoot a b : string) :
  let b1 := a +:+ "/" +:+ b in
  let b2 := a +:+ "_" +:+ b in
  b1 <> b2 /\ b1 <> MAIN_BRANCH /\ b2 <> MAIN_BRANCH /\
  resolveTargetDir previewRoot b1 = resolveTargetDir previewRoot b2.
Proof.
  cbv zeta.
  assert (H1 : a +:+ "/" +:+ b <> MAIN_BRANCH).
  { intros H. pose proof (char_in_app a "/" b) as Hin.
    change (String "/" b) with ("/" +:+ b) in Hin. rewrite H in Hin.
    cbn in Hin. rewrite !elem_of_cons, elem_of_nil in Hin.
    destruct Hin as [|[|[|[|]]]]; try discriminate; contradiction. }
  assert (H2 : a +:+ "_" +:+ b <> MAIN_BRANCH).
  { intros H. pose proof (char_in_app a "_" b) as Hin.
    change (String "_" b) with ("_" +:+ b) in Hin. rewrite H in Hin.
    cbn in Hin. rewrite !elem_of_cons, elem_of_nil in Hin.
    destruct Hin as [|[|[|[|]]]]; try discriminate; contradiction. }
  split; [|split; [exact H1|split; [exact H2|]]].
  - intros H. apply app_inv_head_s in H. discriminate H.
  - unfold resolveTargetDir. rewrite !decide_False by assumption.
    cbv zeta. rewrite !branchSlug_app. reflexivity.
Qed.

Lemma prefix_inv (p s : string) : String.prefix p s = true -> exists t, s = p +:+ t.
Proof.
  revert s. induction p as [|c p IH]; intros s H; [exists s; reflexivity|].
  destruct s as [|d s]; [discriminate|]. cbn [String.prefix] in H.
  destruct (ascii_dec c d) as [->|_]; [|discriminate].
  destruct (IH _ H) as [t ->]. exists t. reflexivity.
Qed.

Lemma proper_all_slashfree (R : list string) : Forall proper R -> Forall slashfree R.
Proof. intros H. eapply Forall_impl; [exact H|apply proper_slashfree]. Qed.

Lemma join_sep_starts (x : string) (xs : list string) (t : string) :
  proper x -> join_sep (x :: xs) <> "/" +:+ t.
Proof.
  intros (Hne & _ & _ & Hfree). destruct x as [|c x]; [contradiction|].
  cbn [list_ascii_of_string forallb] in Hfree. apply andb_true_iff in Hfree as [Hc _].
  destruct xs as [|y ys].
  - cbn. intros [= -> _]. discriminate Hc.
  - rewrite join_sep_cons, app_String. intros [= -> _]. discriminate Hc.
Qed.

Lemma join_sep_no_slash_end (R : list string) (t : string) :
  Forall proper R -> EmptyString <> join_sep R +:+ "/" +:+ t.
Proof.
  intros _. destruct (join_sep R); cbn; discriminate.
Qed.

(** The segments of a path that begins, as a string, with another path and a
    separator. *)
Lemma segments_of_prefix (R S : list string) (t : string) :
  Forall proper R -> Forall proper S -> R <> [] ->
  join_sep S = join_sep R +:+ "/" +:+ t ->
  S = R ++ split t.
Proof.
  intros HR HS HRne Heq.
  assert (HSne : S <> []).
  { intros ->. apply (join_sep_no_slash_end R t HR). exact Heq. }
  rewrite <- (split_join_sep S HSne (proper_all_slashfree S HS)), Heq, split_app.
  rewrite (split_join_sep R HRne (proper_all_slashfree R HR)). reflexivity.
Qed.

Lemma of_segments_inj (R S : list string) :
  Forall proper R -> Forall proper S -> of_segments R = of_segments S -> R = S.
Proof.
  intros HR HS H. rewrite <- (split_of_segments R HR), <- (split_of_segments S HS), H.
  reflexivity.
Qed.

(** X23. On resolved paths [isSubPath(parent, child)] says whether the
    segments of [parent] begin those of [child], for every parent but the
    root directory: below the parent [/] it finds nothing but [/] itself. *)
Theorem isSubPath_iff (cwd : string) (R S : list string) :
  Forall proper R -> Forall proper S ->
  (R <> [] -> (isSubPath cwd (of_segments R) (of_segments S) = true <-> R `prefix_of` S)) /\
  (R = [] -> (isSubPath cwd (of_segments R) (of_segments S) = true <-> S = [])).
Proof.
  intros HR HS.
  assert (Hunf : isSubPath cwd (of_segments R) (of_segments S)
                 = bool_decide (of_segments S = of_segments R)
                   || startsWith (of_segments S) (of_segments R +:+ "/")).
  { unfold isSubPath.
    rewrite (resolve_of_segments cwd R HR), (resolve_of_segments cwd S HS). reflexivity. }
  split.
  - intros HRne. split.
    + rewrite Hunf. intros H. apply orb_true_iff in H as [H|H].
      * apply bool_decide_eq_true_1 in H. apply of_segments_inj in H; [|assumption..].
        subst S. reflexivity.
      * unfold startsWith in H. apply prefix_inv in H as [t Ht].
        unfold of_segments in Ht. rewrite !app_assoc_s in Ht. apply app_inv_head_s in Ht.
        exists (split t). apply (segments_of_prefix R S t HR HS HRne Ht).
    + intros [ext ->]. apply (isSubPath_below cwd R ext HR HRne HS).
  - intros ->. rewrite Hunf. split.
    + intros H. apply orb_true_iff in H as [H|H].
      * apply bool_decide_eq_true_1 in H. apply of_segments_inj in H; [|assumption..].
        exact H.
      * unfold startsWith in H. apply prefix_inv in H as [t Ht].
        destruct S as [|x xs]; [reflexivity|exfalso].
        unfold of_segments in Ht. rewrite !app_assoc_s in Ht. apply app_inv_head_s in Ht.
        apply Forall_cons in HS as [Hx _]. apply (join_sep_starts x xs t Hx). exact Ht.
    + intros ->. rewrite bool_decide_eq_true_2 by reflexivity. reflexivity.
Qed.

Lemma isSubPath_iff_witness :
  isSubPath "/x" "/srv/www" "/srv/www/a" = true /\
  (isSubPath "/x" "/" "/srv" = true <-> ["srv"] = @nil string).
Proof.
  assert (H1 : Forall proper ["srv"; "www"]) by (repeat constructor; discriminate).
  assert (H2 : Forall proper ["srv"; "www"; "a"]) by (repeat constructor; discriminate).
  assert (H3 : Forall proper ["srv"]) by (repeat constructor; discriminate).
  split.
  - destruct (isSubPath_iff "/x" _ _ H1 H2) as [H _].
    apply (H ltac:(discriminate)). exists ["a"]. reflexivity.
  - destruct (isSubPath_iff "/x" [] ["srv"] (Forall_nil_2 _) H3) as [_ H].
    exact (H eq_refl).
Defined.

End SlugFacts.

(** ** The path guard of the static server *)

Module PreviewFacts.
Import Path FS Publish Preview PathFacts FSFacts PublishFacts.

Lemma split_all_slashfree (s : string) : Forall slashfree (split s).
Proof.
  induction s as [|c s IH]; [repeat constructor|].
  cbn [split]. destruct (is_sep c) eqn:Hc.
  - constructor; [reflexivity|exact IH].
  - destruct (split s) as [|seg segs]; [repeat constructor; unfold slashfree; cbn; rewrite Hc; reflexivity|].
    inversion IH as [|? ? Hseg Hsegs]; subst. constructor; [|exact Hsegs].
    unfold slashfree in *. cbn. rewrite Hc. exact Hseg.
Qed.

Lemma split_append (a t : string) :
  split (a +:+ t)
  = removelast (split a) ++ (List.last (split a) EmptyString +:+ hd EmptyString (split t))
                              :: tl (split t).
Proof.
  induction a as [|c a IH].
  - rewrite app_empty_l. destruct (split_cons t) as (h & r & ->). reflexivity.
  - rewrite app_String. cbn [split]. rewrite IH. clear IH.
    destruct (split_cons a) as (s1 & rest & ->).
    destruct (is_sep c); destruct rest as [|s2 rest]; reflexivity.
Qed.

Lemma join_sep_proper_nonempty (ns : list string) :
  Forall proper ns -> join_sep ns = EmptyString -> ns = [].
Proof.
  intros H Heq. destruct ns as [|x xs]; [reflexivity|exfalso].
  pose proof (join_sep_nonempty (x :: xs) ltac:(discriminate) H) as Hne.
  rewrite Heq in Hne. discriminate.
Qed.

(** [path.join(base, rel)] for a normalized absolute [base] and any [rel]
    that does not end in a separator. *)
Lemma join_rel (R : list string) (rel : string) :
  Forall proper R ->
  nonempty rel = true -> endsWith_sep rel = false ->
  let ns := rev (fold_left (norm_step false) (split rel) (rev R)) in
  join [of_segments R; rel] = of_segments ns /\ Forall proper ns.
Proof.
  intros HR Hne Hend ns.
  assert (Hproper : Forall proper ns).
  { unfold ns. apply Forall_rev. apply fold_norm_proper; [apply Forall_rev; exact HR|].
    apply split_all_slashfree. }
  split; [|exact Hproper].
  unfold join. rewrite filter_cons_True by reflexivity.
  rewrite filter_cons_True by exact Hne. rewrite filter_nil.
  change (join_sep [of_segments R; rel]) with (of_segments R +:+ "/" +:+ rel).
  unfold normalize.
  change (of_segments R +:+ "/" +:+ rel) with (String "/" (join_sep R +:+ "/" +:+ rel)) at 1.
  cbv zeta.
  change (isAbsolute (of_segments R +:+ "/" +:+ rel)) with true.
  assert (Htrail : endsWith_sep (of_segments R +:+ "/" +:+ rel) = false).
  { destruct rel as [|c rel]; [discriminate|].
    rewrite <- app_assoc_s, endsWith_sep_app. exact Hend. }
  rewrite Htrail. cbn [negb].
  assert (Hnorm : normalizeString (of_segments R +:+ "/" +:+ rel) false = join_sep ns).
  { unfold normalizeString, norm_segments. rewrite split_app, fold_left_app.
    rewrite (fold_norm_of_segments R HR). reflexivity. }
  rewrite Hnorm. change (of_segments ns) with ("/" +:+ join_sep ns).
  destruct (join_sep ns) as [|c rest] eqn:Hj; reflexivity.
Qed.

Lemma normalize_of_segments (R : list string) :
  Forall proper R -> R <> [] -> join [of_segments R; EmptyString] = of_segments R.
Proof.
  intros HR HRne. unfold join.
  rewrite filter_cons_True by reflexivity.
  rewrite filter_cons_False by (cbn; discriminate). rewrite filter_nil.
  change (join_sep [of_segments R]) with (of_segments R).
  destruct (exists_last HRne) as (P & n & ->).
  pose proof HR as Hall.
  apply Forall_app in HR as [HP Hn]. apply Forall_cons in Hn as [Hn _].
  destruct (join_sep (P ++ [n])) as [|c r] eqn:Hj.
  { apply join_sep_proper_nonempty in Hj; [|exact Hall]. destruct P; discriminate. }
  assert (Hend : endsWith_sep (of_segments (P ++ [n])) = false).
  { pose proof (endsWith_sep_join P n (proper_slashfree n Hn) (proper_nonempty n Hn)) as He.
    unfold of_segments. rewrite Hj in *.
    change ("/" +:+ String c r) with ("/" +:+ String c r).
    rewrite endsWith_sep_app. exact He. }
  assert (Hnorm : normalizeString (of_segments (P ++ [n])) false = join_sep (P ++ [n])).
  { unfold normalizeString, norm_segments.
    rewrite (fold_norm_of_segments _ Hall), rev_involutive. reflexivity. }
  assert (Hof : of_segments (P ++ [n]) = String "/" (String c r))
    by (unfold of_segments; rewrite Hj; reflexivity).
  rewrite Hof in *. unfold normalize. cbv zeta.
  change (isAbsolute (String "/" (String c r))) with true. cbn [negb].
  rewrite Hend, Hnorm, Hj. reflexivity.
Qed.

Lemma prefix_refl_s (p : string) : String.prefix p p = true.
Proof. rewrite <- (app_empty_r p) at 2. apply prefix_app_s. Qed.

Lemma app_eq_empty (a t : string) : a +:+ t = EmptyString -> a = EmptyString.
Proof. destruct a; [reflexivity|discriminate]. Qed.

Lemma last_snoc (P : list string) (n d : string) : List.last (P ++ [n]) d = n.
Proof. apply last_last. Qed.

(** X24. What the guard of [tryServeInjected] guarantees: a request that is
    not answered with 403 is mapped to a path in the parent directory of
    [baseDir], inside an entry whose name begins with the name of
    [baseDir]. *)
Theorem guard_keeps_requests_near (P : list string) (n rel filePath : string) :
  Forall proper P -> proper n ->
  requested_file (of_segments (P ++ [n])) rel = Some filePath ->
  exists n' rest,
    filePath = of_segments (P ++ n' :: rest) /\
    Forall proper (n' :: rest) /\
    String.prefix n n' = true.
Proof.
  intros HP Hn.
  assert (HR : Forall proper (P ++ [n])).
  { apply Forall_app. split; [exact HP|]. apply Forall_cons. split; [exact Hn|apply Forall_nil; exact I]. }
  assert (HRne : P ++ [n] <> []) by (destruct P; discriminate).
  unfold requested_file.
  set (rel' := if endsWith_sep rel then rel +:+ "index.html" else rel).
  assert (Hend : endsWith_sep rel' = false).
  { unfold rel'. destruct (endsWith_sep rel) eqn:He; [|exact He].
    change "index.html" with (String "i" "ndex.html"). rewrite endsWith_sep_app. reflexivity. }
  cbv zeta. destruct rel' as [|c r] eqn:Hrel.
  - rewrite (normalize_of_segments _ HR HRne). unfold startsWith. rewrite prefix_refl_s.
    cbn [negb]. intros [= <-]. exists n, []. split; [reflexivity|].
    split; [apply Forall_cons; split; [exact Hn|apply Forall_nil; exact I]|apply prefix_refl_s].
  - destruct (join_rel (P ++ [n]) (String c r) HR eq_refl Hend) as [Hjoin Hproper].
    cbv zeta in Hjoin, Hproper. rewrite Hjoin.
    set (ns := rev (fold_left (norm_step false) (split (String c r)) (rev (P ++ [n])))) in *.
    destruct (startsWith (of_segments ns) (of_segments (P ++ [n]))) eqn:Hp; [|discriminate].
    cbn [negb]. intros [= <-].
    unfold startsWith in Hp. apply SlugFacts.prefix_inv in Hp as [t Ht].
    unfold of_segments in Ht. rewrite app_assoc_s in Ht. apply SlugFacts.app_inv_head_s in Ht.
    assert (Hns : ns <> []).
    { intros H0. rewrite H0 in Ht. cbn in Ht. symmetry in Ht. apply app_eq_empty in Ht.
      apply join_sep_proper_nonempty in Ht; [contradiction|exact HR]. }
    assert (Hsplit : ns = P ++ (n +:+ hd EmptyString (split t)) :: tl (split t)).
    { rewrite <- (split_join_sep ns Hns (SlugFacts.proper_all_slashfree ns Hproper)), Ht.
      rewrite split_append.
      rewrite (split_join_sep _ HRne (SlugFacts.proper_all_slashfree _ HR)).
      rewrite removelast_last, last_snoc. reflexivity. }
    exists (n +:+ hd EmptyString (split t)), (tl (split t)).
    split; [rewrite <- Hsplit; reflexivity|].
    split; [|apply prefix_app_s].
    rewrite Hsplit in Hproper. apply Forall_app in Hproper as [_ H]. exact H.
Qed.

Lemma guard_keeps_requests_near_witness :
  exists n' rest,
    "/srv/www/about/index.html" = of_segments (["srv"] ++ n' :: rest) /\
    Forall proper (n' :: rest) /\ String.prefix "www" n' = true.
Proof.
  apply (guard_keeps_requests_near ["srv"] "www" "/about/");
    [repeat constructor; discriminate|repeat split; discriminate|reflexivity].
Defined.

Lemma join_sep_snoc2 (P : list string) (n suffix file : string) :
  join_sep (P ++ [n +:+ suffix; file]) = join_sep (P ++ [n]) +:+ suffix +:+ "/" +:+ file.
Proof.
  destruct P as [|x P].
  - cbn [app]. rewrite join_sep_cons. cbn [join_sep String.concat].
    rewrite !app_assoc_s. reflexivity.
  - rewrite !join_sep_app by discriminate. rewrite join_sep_cons.
    cbn [join_sep String.concat]. rewrite !app_assoc_s. reflexivity.
Qed.

(** X25. The guard compares strings, not path segments, so it lets a request
    through that leaves [baseDir] for a sibling whose name begins with the
    name of [baseDir]: [/../<name><suffix>/<file>] is mapped to that file
    outside [baseDir], not answered with 403. *)
Theorem guard_lets_siblings_through (P : list string) (n suffix file : string) :
  Forall proper P -> proper n -> proper (n +:+ suffix) -> suffix <> EmptyString ->
  proper file ->
  let baseDir := of_segments (P ++ [n]) in
  let sibling := P ++ [n +:+ suffix; file] in
  requested_file baseDir ("/../" +:+ (n +:+ suffix) +:+ "/" +:+ file)
  = Some (of_segments sibling) /\
  ~ below (P ++ [n]) sibling.
Proof.
  intros HP Hn Hn' Hsuffix Hfile. cbv zeta.
  assert (HR : Forall proper (P ++ [n])).
  { apply Forall_app. split; [exact HP|]. apply Forall_cons. split; [exact Hn|apply Forall_nil; exact I]. }
  set (n' := n +:+ suffix) in *.
  set (rel := "/../" +:+ n' +:+ "/" +:+ file).
  assert (Hend : endsWith_sep rel = false).
  { unfold rel. pose proof (proper_nonempty file Hfile) as Hne.
    destruct file as [|c f]; [discriminate|].
    change ("/../" +:+ n' +:+ "/" +:+ String c f)
      with ("/../" +:+ (n' +:+ ("/" +:+ String c f))).
    rewrite <- !app_assoc_s, endsWith_sep_app.
    apply endsWith_sep_slashfree, proper_slashfree, Hfile. }
  split.
  - unfold requested_file. rewrite Hend. cbv zeta.
    destruct (join_rel (P ++ [n]) rel HR eq_refl Hend) as [Hjoin _]. cbv zeta in Hjoin.
    assert (Hsplit : split rel = [EmptyString; ".."; n'; file]).
    { unfold rel.
      change ("/../" +:+ n' +:+ "/" +:+ file)
        with (EmptyString +:+ "/" +:+ (".." +:+ "/" +:+ (n' +:+ "/" +:+ file))).
      rewrite !split_app.
      rewrite (split_slashfree n' (proper_slashfree _ Hn')),
        (split_slashfree file (proper_slashfree _ Hfile)). reflexivity. }
    assert (Hfold : fold_left (norm_step false) (split rel) (rev (P ++ [n]))
                    = file :: n' :: rev P).
    { rewrite Hsplit, rev_unit. cbn [fold_left]. rewrite norm_step_empty.
      assert (Hup : norm_step false (n :: rev P) ".." = rev P).
      { unfold norm_step. rewrite decide_False by discriminate.
        rewrite decide_False by discriminate. rewrite decide_True by reflexivity.
        rewrite decide_False by apply Hn. reflexivity. }
      rewrite Hup.
      rewrite (norm_step_plain false _ n' (proper_plain _ Hn')).
      rewrite (norm_step_plain false _ file (proper_plain _ Hfile)). reflexivity. }
    rewrite Hfold in Hjoin. cbn [rev] in Hjoin. rewrite (rev_involutive P) in Hjoin.
    rewrite <- app_assoc in Hjoin. cbn [app] in Hjoin.
    rewrite Hjoin. unfold startsWith, of_segments. unfold n'.
    rewrite join_sep_snoc2, <- app_assoc_s, prefix_app_s. reflexivity.
  - intros [k Hk]. rewrite <- app_assoc in Hk. apply app_inv_head in Hk.
    injection Hk as Hk _. unfold n' in Hk.
    rewrite <- (app_empty_r n) in Hk at 2. apply SlugFacts.app_inv_head_s in Hk.
    contradiction.
Qed.

Lemma guard_lets_siblings_through_witness :
  requested_file "/srv/www" "/../www-old/secret.html" = Some "/srv/www-old/secret.html" /\
  ~ below ["srv"; "www"] ["srv"; "www-old"; "secret.html"].
Proof.
  apply (guard_lets_siblings_through ["srv"] "www" "-old" "secret.html");
    [repeat constructor; discriminate|repeat split; discriminate..|discriminate
    |repeat split; discriminate].
Defined.

End PreviewFacts.

(** ** The scope directory *)

Module ConfigFacts.
Import Path FS Publish Config PathFacts FSFacts PublishFacts.

Abbreviation kept s := (forallb slug_keeps (list_ascii_of_string s) = true).

Lemma replace_runs_kept (in_run : bool) (s : string) : kept (replace_runs in_run s).
Proof.
  revert in_run. induction s as [|c s IH]; intros in_run; [reflexivity|].
  cbn [replace_runs]. destruct (slug_keeps c) eqn:Hc.
  - cbn. rewrite Hc. apply IH.
  - destruct in_run; [apply IH|]. cbn. apply IH.
Qed.

Lemma strip_start_kept (s : string) : kept s -> kept (strip_start s).
Proof.
  induction s as [|c s IH]; [reflexivity|].
  cbn [strip_start]. destruct (Ascii.eqb c "_"); [|intros H; exact H].
  cbn. intros H. apply andb_true_iff in H as [_ H]. apply IH, H.
Qed.

Lemma strip_end_kept (s : string) : kept s -> kept (strip_end s).
Proof.
  induction s as [|c s IH]; [reflexivity|].
  cbn [strip_end list_ascii_of_string forallb]. intros H.
  apply andb_true_iff in H as [Hc H]. specialize (IH H).
  destruct (strip_end s) as [|d r].
  - destruct (Ascii.eqb c "_"); [reflexivity|]. cbn. rewrite Hc. reflexivity.
  - cbn [list_ascii_of_string forallb] in *. rewrite Hc. exact IH.
Qed.

Lemma strip_start_head (s t : string) : strip_start s <> "_" +:+ t.
Proof.
  induction s as [|c s IH]; [discriminate|].
  cbn [strip_start]. destruct (Ascii.eqb c "_") eqn:Hc; [exact IH|].
  intros [= -> _]. discriminate Hc.
Qed.

Lemma strip_end_head (s t : string) : (forall t, s <> "_" +:+ t) -> strip_end s <> "_" +:+ t.
Proof.
  intros Hs. destruct s as [|c s]; [discriminate|].
  cbn [strip_end]. destruct (strip_end s) as [|d r].
  - destruct (Ascii.eqb c "_") eqn:Hc; [discriminate|]. intros [= -> _]. discriminate Hc.
  - intros [= -> _]. apply (Hs s). reflexivity.
Qed.

Lemma strip_end_last (s t : string) : strip_end s <> t +:+ "_".
Proof.
  revert t. induction s as [|c s IH]; intros t.
  - destruct t; discriminate.
  - cbn [strip_end]. destruct (strip_end s) as [|d r] eqn:Hs.
    + destruct (Ascii.eqb c "_") eqn:Hc; [destruct t; discriminate|].
      destruct t as [|x t].
      * intros [= ->]. discriminate Hc.
      * destruct t; discriminate.
    + destruct t as [|x t]; [discriminate|].
      rewrite app_String. intros [= _ H]. apply (IH t). exact H.
Qed.

Lemma kept_slashfree (s : string) : kept s -> slashfree s.
Proof.
  unfold slashfree. induction s as [|c s IH]; [reflexivity|].
  cbn [list_ascii_of_string forallb]. intros H. apply andb_true_iff in H as [Hc H].
  rewrite (IH H), andb_true_r.
  destruct c as [[] [] [] [] [] [] [] []]; try reflexivity; discriminate Hc.
Qed.

Lemma slugify_shape_parts (trim : string -> string) (name : string) :
  slugify trim name <> EmptyString /\ slashfree (slugify trim name).
Proof.
  unfold slugify.
  pose proof (strip_end_kept _ (strip_start_kept _ (replace_runs_kept false (trim name)))) as Hk.
  destruct (strip_end (strip_start (replace_runs false (trim name)))) as [|c s].
  - split; [discriminate|reflexivity].
  - split; [discriminate|apply kept_slashfree, Hk].
Qed.

(** X26. Whatever [trim] returns, [slugify] gives a name that is not empty,
    has only letters, digits, [.], [_] and [-], and neither begins nor ends
    with [_]; so it is one path segment. *)
Theorem slugify_shape (trim : string -> string) (name : string) :
  let s := slugify trim name in
  s <> EmptyString /\
  forallb slug_keeps (list_ascii_of_string s) = true /\
  (forall t, s <> "_" +:+ t) /\
  (forall t, s <> t +:+ "_") /\
  slashfree s.
Proof.
  cbv zeta. unfold slugify.
  set (r := replace_runs false (trim name)).
  pose proof (strip_end_kept _ (strip_start_kept _ (replace_runs_kept false (trim name)))) as Hk.
  pose proof (fun t => strip_end_head _ t (strip_start_head r)) as Hh.
  pose proof (strip_end_last (strip_start r)) as Hl.
  fold r in Hk. destruct (strip_end (strip_start r)) as [|c s].
  - split; [discriminate|]. split; [reflexivity|].
    split; [discriminate|]. split; [|reflexivity].
    intros [|a [|b [|c [|d t]]]]; discriminate.
  - split; [discriminate|]. split; [exact Hk|]. split; [exact Hh|]. split; [exact Hl|].
    apply kept_slashfree, Hk.
Qed.

(** X27. [defaultScopeDir] is the directory called [slugify(projectName)] in
    the projects directory, except for two project names: with the slug [.]
    it is the projects directory itself, and with the slug [..] it is the
    parent of the projects directory. *)
Theorem defaultScopeDir_place (trim : string -> string) (B : list string)
  (PROJECT_NAME : option string) :
  Forall proper B ->
  let slug := slugify trim (projectName PROJECT_NAME) in
  let dir := defaultScopeDir trim (of_segments B) PROJECT_NAME in
  (slug <> "." -> slug <> ".." -> dir = of_segments (B ++ [slug]) /\ proper slug) /\
  (slug = "." -> dir = of_segments B) /\
  (slug = ".." -> dir = of_segments (removelast B)).
Proof.
  intros HB. cbv zeta. unfold defaultScopeDir.
  set (slug := slugify trim (projectName PROJECT_NAME)).
  destruct (slugify_shape_parts trim (projectName PROJECT_NAME)) as (Hne & Hfree).
  fold slug in Hne, Hfree.
  assert (Hn : nonempty slug = true) by (destruct slug; [contradiction|reflexivity]).
  destruct (PreviewFacts.join_rel B slug HB Hn (endsWith_sep_slashfree _ Hfree)) as [Hjoin _].
  cbv zeta in Hjoin. rewrite (split_slashfree slug Hfree) in Hjoin. cbn [fold_left] in Hjoin.
  rewrite Hjoin. clear Hjoin. split; [|split].
  - intros Hdot Hdotdot.
    assert (Hp : proper slug) by (repeat split; assumption).
    rewrite (norm_step_plain false _ slug (proper_plain _ Hp)). cbn [rev].
    rewrite rev_involutive. split; [reflexivity|exact Hp].
  - intros ->. unfold norm_step. rewrite decide_False by discriminate.
    rewrite decide_True by reflexivity. rewrite rev_involutive. reflexivity.
  - intros ->. unfold norm_step. rewrite decide_False by discriminate.
    rewrite decide_False by discriminate. rewrite decide_True by reflexivity.
    destruct (rev B) as [|top below] eqn:Hrev.
    + apply (f_equal (@rev string)) in Hrev. rewrite rev_involutive in Hrev. subst B. reflexivity.
    + apply (f_equal (@rev string)) in Hrev. rewrite rev_involutive in Hrev. subst B.
      cbn [rev] in *. apply Forall_app in HB as [_ Htop]. apply Forall_cons in Htop as [Htop _].
      rewrite decide_False by apply Htop. rewrite removelast_last. reflexivity.
Qed.

Lemma defaultScopeDir_place_witness :
  defaultScopeDir (fun s => s) "/srv/projects" (Some "My Site") = "/srv/projects/My_Site" /\
  defaultScopeDir (fun s => s) "/srv/projects" (Some "..") = "/srv".
Proof.
  assert (HB : Forall proper ["srv"; "projects"]) by (repeat constructor; discriminate).
  split.
  - destruct (defaultScopeDir_place (fun s => s) ["srv"; "projects"] (Some "My Site") HB)
      as (H & _ & _).
    apply H; discriminate.
  - destruct (defaultScopeDir_place (fun s => s) ["srv"; "projects"] (Some "..") HB)
      as (_ & _ & H).
    apply H. reflexivity.
Defined.

End ConfigFacts.

(** ** The whole output of a job *)

Module JobOutput.
Import NodeBuffer Jobs Samples JobsFacts.

Lemma read_all (rb : RingBuffer.t) (max : Z) :
  blen (RingBuffer.buffer rb) <= max ->
  RingBuffer.read rb 0 max
  = RingBuffer.mkChunk (RingBuffer.full rb) (blen (RingBuffer.buffer rb)) true.
Proof.
  intros Hmax. unfold RingBuffer.read, RingBuffer.read_slice, RingBuffer.full.
  assert (Hlen : 0 <= blen (RingBuffer.buffer rb)) by (unfold blen; lia).
  rewrite (Z.min_l 0) by lia. rewrite (Z.min_r (0 + max)) by lia.
  rewrite subarray_range by lia. rewrite Z.sub_0_r. cbn [Z.to_nat drop].
  unfold blen at 1. rewrite Nat2Z.id, firstn_all.
  f_equal. apply Z.leb_le. lia.
Qed.

(** X28. [getOutput] and [streamLogs] agree: for a registered job
    [getOutput] gives the exit code and the two logs in full, and each log is
    what one [streamLogs] call from offset 0 returns when [maxBytes] is at
    least the size of the log, which then reports the end. *)
Theorem getOutput_is_one_full_read (reg : Registry) (jobId : string) (job : Job) (max : Z) :
  getJob reg jobId = Some job ->
  blen (RingBuffer.buffer (stdout job)) <= max ->
  blen (RingBuffer.buffer (stderr job)) <= max ->
  exists out,
    getOutput reg jobId = Some out /\
    o_exitCode out = exitCode job /\
    streamLogs reg jobId Stdout 0 max
    = Some (RingBuffer.mkChunk (o_stdout out) (blen (RingBuffer.buffer (stdout job))) true) /\
    streamLogs reg jobId Stderr 0 max
    = Some (RingBuffer.mkChunk (o_stderr out) (blen (RingBuffer.buffer (stderr job))) true).
Proof.
  intros Hjob Hout Herr. unfold getOutput, streamLogs. rewrite Hjob.
  eexists. split; [reflexivity|]. cbn [o_exitCode o_stdout o_stderr].
  split; [reflexivity|]. rewrite (read_all _ _ Hout), (read_all _ _ Herr). split; reflexivity.
Qed.

Lemma getOutput_is_one_full_read_witness :
  exists reg out,
    run hello_run initial = Some reg /\
    getOutput reg idA = Some out /\
    streamLogs reg idA Stdout 0 65536 = Some (RingBuffer.mkChunk (o_stdout out) 5 true).
Proof.
  eexists. 
  destruct (getOutput_is_one_full_read _ idA _ 65536
              (eq_refl : getJob (default initial (run hello_run initial)) idA = Some _))
    as (out & Hget & _ & Hs & _); [vm_compute; discriminate..|].
  exists out. split; [reflexivity|]. split; [exact Hget|exact Hs].
Defined.

End JobOutput.

(** ** The concurrency limit, when exits are timely *)

Module TimelyFacts.
Import NodeBuffer Jobs JobStreams Timely Samples Scenarios JobsFacts.

(** The invariant of timely runs. *)
Local Abbreviation guarded reg :=
  (slot_owns_running reg /\
   forall jobId, runningJobId reg = Some jobId -> truthy (Some jobId) = true).

Lemma guarded_slot_free (reg : Registry) :
  guarded reg -> truthy (runningJobId reg) = false ->
  forall r job, heap reg !! r = Some job -> status job <> running.
Proof.
  intros [Hown Hslot] Hfree r job Hj Hrun.
  destruct (Hown r job Hj Hrun) as (jobId & Hs & _).
  rewrite Hs, (Hslot _ Hs) in Hfree. discriminate.
Qed.

Lemma exit_status_not_running (code : option Z) :
  match code with Some 0 => completed | _ => failed end <> running.
Proof. destruct code as [[| |]|]; discriminate. Qed.

Lemma timely_step (ev : Event) (reg : Registry) :
  guarded reg -> enabled ev reg = true -> timely ev reg = true -> guarded (apply_event ev reg).
Proof.
  intros HG Hen Htimely. pose proof HG as [Hown Hslot].
  destruct ev as [a w|jobId0 signal now platform|r0 code now|r0 which d|r0 msg];
    cbn [apply_event enabled timely] in *.
  - destruct (startJob_cases a w reg) as [[e ->]|(Hfree & _ & ->)]; cbn [fst]; [exact HG|].
    split.
    + intros r job Hj Hrun. cbn [heap jobs runningJobId] in *.
      apply lookup_app_Some in Hj as [Hj|[Hge Hj]].
      * exfalso. exact (guarded_slot_free reg HG Hfree r job Hj Hrun).
      * exists (w_newId w). split; [reflexivity|]. rewrite lookup_insert_eq. f_equal.
        apply lookup_lt_Some in Hj. cbn in Hj. lia.
    + cbn [runningJobId]. intros jobId [= <-]. destruct (w_newId w); [discriminate|reflexivity].
  - unfold stopJob. destruct (jobs reg !! jobId0) as [r|] eqn:Hr; [|exact HG].
    destruct (heap reg !! r) as [job|] eqn:Hj; [|exact HG].
    destruct (decide (status job <> running)) as [|Hrun]; [exact HG|].
    apply dec_stable in Hrun.
    destruct (process_kill _ _ _); [|exact HG]. cbn [fst]. split.
    + intros r2 job2 Hj2 Hrun2. cbn [heap jobs runningJobId] in *. exfalso.
      apply list_lookup_insert_Some in Hj2 as [(-> & <- & _)|[Hne Hj2]]; [discriminate Hrun2|].
      destruct (Hown r job Hj Hrun) as (j1 & Hs1 & Hr1).
      destruct (Hown r2 job2 Hj2 Hrun2) as (j2 & Hs2 & Hr2). congruence.
    + cbn [runningJobId]. discriminate.
  - unfold on_exit. destruct (heap reg !! r0) as [job|] eqn:Hj; [|exact HG]. split.
    + intros r2 job2 Hj2 Hrun2. cbn [heap jobs runningJobId] in *. exfalso.
      apply list_lookup_insert_Some in Hj2 as [(-> & <- & _)|[Hne Hj2]].
      * exact (exit_status_not_running code Hrun2).
      * destruct (Hown r2 job2 Hj2 Hrun2) as (j2 & Hs2 & Hr2). rewrite Hs2 in Htimely.
        apply bool_decide_eq_true_1 in Htimely. congruence.
    + cbn [runningJobId]. discriminate.
  - unfold on_data. destruct (heap reg !! r0) as [job|] eqn:Hj; [|exact HG]. split.
    + intros r2 job2 Hj2 Hrun2. cbn [heap jobs runningJobId] in *.
      apply list_lookup_insert_Some in Hj2 as [(-> & <- & _)|[Hne Hj2]].
      * apply (Hown r2 job Hj). destruct which; exact Hrun2.
      * apply (Hown r2 job2 Hj2 Hrun2).
    + exact Hslot.
  - unfold on_error, on_data. destruct (heap reg !! r0) as [job|] eqn:Hj; [|exact HG]. split.
    + intros r2 job2 Hj2 Hrun2. cbn [heap jobs runningJobId] in *.
      apply list_lookup_insert_Some in Hj2 as [(-> & <- & _)|[Hne Hj2]].
      * apply (Hown r2 job Hj). exact Hrun2.
      * apply (Hown r2 job2 Hj2 Hrun2).
    + exact Hslot.
Qed.

Lemma run_timely_guarded (evs : list Event) (reg reg' : Registry) :
  guarded reg -> run_timely evs reg = Some reg' -> run evs reg = Some reg' /\ guarded reg'.
Proof.
  revert reg. induction evs as [|ev evs IH]; intros reg HG Hrun.
  - cbn in *. injection Hrun as <-. split; [reflexivity|exact HG].
  - cbn [run_timely run] in *. destruct (enabled ev reg) eqn:Hen; [|discriminate].
    destruct (timely ev reg) eqn:Ht; [|discriminate]. cbn [andb] in Hrun.
    apply (IH _ (timely_step ev reg HG Hen Ht) Hrun).
Qed.

Lemma filter_none {A} (P : A -> Prop) `{!forall x, Decision (P x)} (l : list A) :
  Forall (fun y => ~ P y) l -> filter P l = [].
Proof.
  induction 1 as [|y l Hy _ IH]; [reflexivity|].
  rewrite filter_cons, decide_False by exact Hy. exact IH.
Qed.

Lemma filter_at_most_one {A} (P : A -> Prop) `{!forall x, Decision (P x)} (l : list A) :
  (forall i j a b, l !! i = Some a -> P a -> l !! j = Some b -> P b -> i = j) ->
  (length (filter P l) <= 1)%nat.
Proof.
  induction l as [|x l IH]; intros Huniq; [cbn; lia|].
  rewrite filter_cons. destruct (decide (P x)) as [Hx|Hx].
  - assert (Hnone : filter P l = []).
    { apply filter_none. apply Forall_forall. intros y Hy Hpy.
      apply list_elem_of_lookup in Hy as [j Hj].
      specialize (Huniq 0%nat (S j) x y eq_refl Hx Hj Hpy). discriminate. }
    rewrite Hnone. cbn. lia.
  - apply IH. intros i j a b Hi Ha Hj Hb.
    specialize (Huniq (S i) (S j) a b Hi Ha Hj Hb). lia.
Qed.

(** X29. The concurrency limit holds in the runs in which no child exits
    while another job holds the slot: in every state of such a run every
    running job is the one that the slot names, so at most one job is
    ['running']. *)
Theorem timely_exits_keep_the_limit (evs : list Event) (reg : Registry) :
  run_timely evs initial = Some reg ->
  run evs initial = Some reg /\
  slot_owns_running reg /\
  (length (running_jobs reg) <= 1)%nat.
Proof.
  intros Hrun.
  assert (H0 : guarded initial).
  { split; [intros r job Hj; cbn in Hj; rewrite lookup_nil in Hj; discriminate|discriminate]. }
  destruct (run_timely_guarded evs initial reg H0 Hrun) as [Hr [Hown _]].
  split; [exact Hr|]. split; [exact Hown|].
  unfold running_jobs. apply filter_at_most_one. intros i j a b Hi Ha Hj Hb.
  destruct (Hown i a Hi Ha) as (j1 & Hs1 & Hr1).
  destruct (Hown j b Hj Hb) as (j2 & Hs2 & Hr2). congruence.
Qed.

Lemma timely_exits_keep_the_limit_witness :
  exists reg,
    run [EvStart run_hello (mkStartWorld idA "2025-01-01T00:00:00.000Z" (Some 101) None);
         EvStop idA "SIGTERM" "2025-01-01T00:00:05.000Z" Delivered;
         EvExit 0 None "2025-01-01T00:00:06.000Z";
         EvStart run_hello (mkStartWorld idB "2025-01-01T00:00:07.000Z" (Some 102) None)]
        initial = Some reg /\
    (length (running_jobs reg) <= 1)%nat.
Proof.
  eexists.
  destruct (timely_exits_keep_the_limit
              [EvStart run_hello (mkStartWorld idA "2025-01-01T00:00:00.000Z" (Some 101) None);
               EvStop idA "SIGTERM" "2025-01-01T00:00:05.000Z" Delivered;
               EvExit 0 None "2025-01-01T00:00:06.000Z";
               EvStart run_hello (mkStartWorld idB "2025-01-01T00:00:07.000Z" (Some 102) None)]
              _ eq_refl) as (Hr & _ & Hle).
  split; [exact Hr|exact Hle].
Defined.

(** X30. A job whose child could not be started holds the slot for good: it
    has no pid, so [stopJob] cannot cancel it, and no ['exit'] event will
    come.  When it is the only running job, no sequence of calls and of
    ['data'] and ['error'] events frees the slot: every later [startJob]
    throws [BUSY]. *)
Theorem failed_spawn_keeps_slot (reg reg' : Registry) (jobId : string) (r : nat) (job : Job)
  (evs : list Event) :
  runningJobId reg = Some jobId -> jobId <> EmptyString ->
  jobs reg !! jobId = Some r -> heap reg !! r = Some job ->
  status job = running -> child_pid (child job) = None ->
  only_running r reg ->
  Forall (fun ev => is_exit ev = false) evs ->
  run evs reg = Some reg' ->
  runningJobId reg' = Some jobId /\
  (exists job', getJob reg' jobId = Some job' /\ status job' = running) /\
  forall a w, exists m, startJob a w reg' = (reg', inl (BUSY m)).
Proof.
  intros Hslot Hne Hr Hj Hrun Hpid Honly Hev Hgo.
  assert (Htruthy : truthy (Some jobId) = true) by (destruct jobId; [contradiction|reflexivity]).
  revert reg job Hslot Hr Hj Hrun Hpid Honly Hgo.
  induction Hev as [|ev evs Hex _ IH]; intros reg job Hslot Hr Hj Hrun Hpid Honly Hgo.
  - cbn in Hgo. injection Hgo as <-. split; [exact Hslot|]. split.
    + exists job. unfold getJob. rewrite Hr. cbn. split; [exact Hj|exact Hrun].
    + intros a w. unfold startJob. rewrite Hslot, Htruthy. eauto.
  - cbn [run] in Hgo. destruct (enabled ev reg) eqn:Hen; [|discriminate].
    destruct ev as [a w|jobId0 signal now platform|r0 code now|r0 which d|r0 msg];
      cbn [apply_event is_exit] in *; try discriminate.
    + unfold startJob in Hgo. rewrite Hslot, Htruthy in Hgo. cbn [fst] in Hgo.
      apply (IH reg job); assumption.
    + assert (Hsame : (stopJob jobId0 signal now platform reg).1 = reg).
      { unfold stopJob. destruct (jobs reg !! jobId0) as [r2|] eqn:Hr2; [|reflexivity].
        destruct (heap reg !! r2) as [job2|] eqn:Hj2; [|reflexivity].
        destruct (decide (status job2 <> running)) as [|Hrun2]; [reflexivity|].
        apply dec_stable in Hrun2. pose proof (Honly r2 job2 Hj2 Hrun2) as ->.
        rewrite Hj in Hj2. injection Hj2 as <-. rewrite Hpid. reflexivity. }
      rewrite Hsame in Hgo. apply (IH reg job); assumption.
    + unfold on_data in Hgo. destruct (heap reg !! r0) as [job0|] eqn:Hj0;
        [|apply (IH reg job); assumption].
      pose proof (fun rg Hg job H1 H2 H3 H4 H5 H6 => IH rg job H1 H2 H3 H4 H5 H6 Hg) as IH2.
      specialize (IH2 _ Hgo).
      pose proof (fun job => IH2 job Hslot Hr) as Hnext. cbn [heap] in Hnext.
      destruct (decide (r0 = r)) as [->|Hne0].
      * rewrite Hj in Hj0. injection Hj0 as <-.
        eapply Hnext.
        -- apply list_lookup_insert_eq. eapply lookup_lt_Some, Hj.
        -- destruct which; exact Hrun.
        -- destruct which; exact Hpid.
        -- intros r2 job2 Hj2 Hrun2. cbn [heap] in Hj2.
           apply list_lookup_insert_Some in Hj2 as [(-> & _)|[_ Hj2]]; [reflexivity|].
           apply (Honly r2 job2 Hj2 Hrun2).
      * apply (Hnext job); try assumption.
        -- rewrite list_lookup_insert_ne by exact Hne0. exact Hj.
        -- intros r2 job2 Hj2 Hrun2. cbn [heap] in Hj2.
           apply list_lookup_insert_Some in Hj2 as [(-> & <- & _)|[_ Hj2]].
           ++ apply (Honly r2 job0 Hj0). destruct which; exact Hrun2.
           ++ apply (Honly r2 job2 Hj2 Hrun2).
    + unfold on_error, on_data in Hgo. destruct (heap reg !! r0) as [job0|] eqn:Hj0;
        [|apply (IH reg job); assumption].
      pose proof (fun rg Hg job H1 H2 H3 H4 H5 H6 => IH rg job H1 H2 H3 H4 H5 H6 Hg) as IH2.
      specialize (IH2 _ Hgo).
      pose proof (fun job => IH2 job Hslot Hr) as Hnext. cbn [heap] in Hnext.
      destruct (decide (r0 = r)) as [->|Hne0].
      * rewrite Hj in Hj0. injection Hj0 as <-.
        eapply Hnext.
        -- apply list_lookup_insert_eq. eapply lookup_lt_Some, Hj.
        -- exact Hrun.
        -- exact Hpid.
        -- intros r2 job2 Hj2 Hrun2. cbn [heap] in Hj2.
           apply list_lookup_insert_Some in Hj2 as [(-> & _)|[_ Hj2]]; [reflexivity|].
           apply (Honly r2 job2 Hj2 Hrun2).
      * apply (Hnext job); try assumption.
        -- rewrite list_lookup_insert_ne by exact Hne0. exact Hj.
        -- intros r2 job2 Hj2 Hrun2. cbn [heap] in Hj2.
           apply list_lookup_insert_Some in Hj2 as [(-> & <- & _)|[_ Hj2]].
           ++ apply (Honly r2 job0 Hj0). exact Hrun2.
           ++ apply (Honly r2 job2 Hj2 Hrun2).
Qed.

Lemma failed_spawn_keeps_slot_witness :
  exists reg',
    run [EvError 0 "spawn goose ENOENT";
         EvStop idA "SIGTERM" "2025-01-01T00:00:05.000Z" Delivered;
         EvStart run_hello (mkStartWorld idB "2025-01-01T00:00:07.000Z" (Some 102) None)]
        no_pid_running = Some reg' /\
    runningJobId reg' = Some idA.
Proof.
  set (evs := [EvError 0 "spawn goose ENOENT";
               EvStop idA "SIGTERM" "2025-01-01T00:00:05.000Z" Delivered;
               EvStart run_hello (mkStartWorld idB "2025-01-01T00:00:07.000Z" (Some 102) None)]).
  assert (Honly : only_running 0 no_pid_running)
    by (intros [|r2] job2 Hj2 _; [reflexivity|discriminate Hj2]).
  assert (Hev : Forall (fun ev => is_exit ev = false) evs) by (repeat constructor).
  exists (default initial (run evs no_pid_running)).
  split; [reflexivity|].
  refine (proj1 (failed_spawn_keeps_slot no_pid_running _ idA 0 _ evs eq_refl _ eq_refl
                   eq_refl eq_refl eq_refl Honly Hev eq_refl)).
  discriminate.
Defined.

End TimelyFacts.
